(** * LUMA clustering: K-Means, K-Means++, K-Medians, Mini-Batch K-Means

    A shallow embedding of [luma/clustering/kmeans.py], and the properties of
    its four estimators.

    Conventions of the embedding.
    - A matrix entry is an exact rational or NaN ([num]).  NaN is kept because
      the code itself produces it (the mean or the median of an empty
      selection) and because [==], [<], [>=] and [argmin] treat it specially.
      Rounding, overflow and infinities of binary64 are not represented, and
      matrices are of a floating dtype.
    - A matrix is a list of rows with its width; NumPy arrays are rectangular,
      which is [wf_matrix] where a property needs it.
    - The hyperparameters [n_clusters], [max_iter] and [batch_size] are
      integers, of any sign.
    - [np.linalg.norm] is only ever used under [argmin] or squared, so the
      embedding works with the squared Euclidean norm [norm2]: the square
      root is strictly monotone on non-negative numbers and maps NaN to NaN,
      hence the position [argmin] returns is the same.
    - The process-wide random source is an explicit tape of naturals [rng]
      consumed by the three uses of [np.random.choice]; every sample
      without replacement is the outcome for some tape.
    - Methods run in a state-and-exception monad over a [world]: the
      estimator object, the random tape, and a ghost [trace] with one entry
      per executed iteration of the assignment/update loop.  A raised
      exception keeps the world as it was at the point of the raise, as a
      Python exception keeps the attributes assigned so far.
    - Printing under [verbose] is not represented, except that the progress
      test of K-Means++ reads a variable that may be unbound. *)

From Stdlib Require Import QArith Qabs ZArith Lia Lqa.
From stdpp Require Import base tactics option list.

Local Open Scope Z_scope.
Local Open Scope nat_scope.

(** ** Numbers *)

Inductive num : Type :=
| Fin (q : Q)
| NaN.

Definition is_nan (a : num) : bool :=
  match a with NaN => true | Fin _ => false end.

Definition lift2 (f : Q -> Q -> Q) (a b : num) : num :=
  match a, b with
  | Fin x, Fin y => Fin (f x y)
  | _, _ => NaN
  end.

Definition nadd : num -> num -> num := lift2 Qplus.
Definition nsub : num -> num -> num := lift2 Qminus.
Definition nmul : num -> num -> num := lift2 Qmult.

Definition nabs (a : num) : num :=
  match a with Fin x => Fin (Qabs x) | NaN => NaN end.

(** [a / b]; [0 / 0] is NaN.  A non-zero numerator over zero (an infinity in
    binary64) does not arise: the code divides a sum by the number of its
    terms, and a non-negative number by a sum it is part of. *)
Definition ndiv (a b : num) : num :=
  match a, b with
  | Fin x, Fin y => if Qeq_bool y 0 then NaN else Fin (Qdiv x y)
  | _, _ => NaN
  end.

(** Comparisons: every comparison with NaN is false. *)
Definition nlt (a b : num) : bool :=
  match a, b with
  | Fin x, Fin y => Qle_bool x y && negb (Qeq_bool x y)
  | _, _ => false
  end.

Definition nge (a b : num) : bool :=
  match a, b with
  | Fin x, Fin y => Qle_bool y x
  | _, _ => false
  end.

Definition neq (a b : num) : bool :=
  match a, b with
  | Fin x, Fin y => Qeq_bool x y
  | _, _ => false
  end.

Definition nzero : num := Fin 0.
Definition of_nat (n : nat) : num := Fin (inject_Z (Z.of_nat n)).

(** [sum] of a vector, left to right from 0. *)
Definition nsum (v : list num) : num := foldl nadd nzero v.

(** Squared Euclidean norm and L1 norm of a vector. *)
Definition norm2 (v : list num) : num := nsum ((λ a, nmul a a) <$> v).
Definition norm1 (v : list num) : num := nsum (nabs <$> v).

(** ** Matrices *)

(** A two-dimensional array: [ncols] is [shape[1]], kept apart from the rows
    so that an array without rows still has a width. *)
Record Matrix : Type := mkMatrix {
  ncols : nat;
  rows : list (list num)
}.

Definition shape0 (X : Matrix) : nat := length (rows X).

Definition wf_matrix (X : Matrix) : Prop :=
  Forall (λ r, length r = ncols X) (rows X).

(** [X[idx]] for an index array [idx]. *)
Definition take_rows (X : Matrix) (idx : list nat) : Matrix :=
  mkMatrix (ncols X) ((λ i, default [] (rows X !! i)) <$> idx).

(** [X[labels == i]]: the rows whose label is [i], in order. *)
Definition select (rs : list (list num)) (labels : list nat) (i : nat)
  : list (list num) :=
  fst <$> filter (λ p, snd p = i) (zip rs labels).

(** Column [j] of a list of rows. *)
Definition column (j : nat) (rs : list (list num)) : list num :=
  (λ r, default NaN (r !! j)) <$> rs.

(** [rs.mean(axis=0)] for rows of width [d]; every entry is NaN when there
    is no row (0/0). *)
Definition mean_axis0 (d : nat) (rs : list (list num)) : list num :=
  (λ j, ndiv (nsum (column j rs)) (of_nat (length rs))) <$> seq 0 d.

(** Insertion sort of rationals, for the median. *)
Fixpoint insert_sorted (x : Q) (l : list Q) : list Q :=
  match l with
  | [] => [x]
  | y :: l' => if Qle_bool x y then x :: l else y :: insert_sorted x l'
  end.

Definition sort_Q (l : list Q) : list Q := foldr insert_sorted [] l.

Definition finite_values (v : list num) : option (list Q) :=
  mapM (λ a, match a with Fin q => Some q | NaN => None end) v.

(** [np.median] of one column: NaN when the column is empty or holds a NaN,
    else the middle of the sorted values (the mean of the two middle ones for
    an even count). *)
Definition median (v : list num) : num :=
  match finite_values v with
  | None => NaN
  | Some qs =>
      let s := sort_Q qs in
      let n := length s in
      let h := n / 2 in
      if n =? 0 then NaN
      else if Nat.odd n then Fin (default 0%Q (s !! h))
      else Fin (Qdiv (Qplus (default 0%Q (s !! (h - 1))) (default 0%Q (s !! h)))
                     (inject_Z 2))
  end.

Definition median_axis0 (d : nat) (rs : list (list num)) : list num :=
  (λ j, median (column j rs)) <$> seq 0 d.

(** [np.all(A == B)] on two arrays of the same shape. *)
Fixpoint all_eq_row (a b : list num) : bool :=
  match a, b with
  | [], [] => true
  | x :: a', y :: b' => neq x y && all_eq_row a' b'
  | _, _ => false
  end.

Fixpoint all_eq (A B : list (list num)) : bool :=
  match A, B with
  | [], [] => true
  | r :: A', s :: B' => all_eq_row r s && all_eq A' B'
  | _, _ => false
  end.

(** ** Exceptions *)

(** The [ValueError]s NumPy raises on the paths the clustering code takes. *)
Inductive value_error : Type :=
| LargerSampleThanPopulation
    (* choice: Cannot take a larger sample than population when 'replace=False' *)
| EmptyPopulation
    (* choice: a must be greater than 0 unless no samples are taken *)
| NegativeDimensions
    (* choice: negative dimensions are not allowed *)
| SizeMismatch
    (* choice: 'a' and 'p' must have same size *)
| ProbabilitiesContainNaN
    (* choice: probabilities contain NaN *)
| ProbabilitiesNotNonNegative
    (* choice: probabilities are not non-negative *)
| ProbabilitiesDoNotSumTo1
    (* choice: probabilities do not sum to 1 *)
| ArgminOfEmptySequence
    (* argmin: attempt to get argmin of an empty sequence *)
| OperandsNotBroadcastable.
    (* subtract: operands could not be broadcast together *)

(** Exceptions seen by the caller of an estimator of class [T].
    [NotFittedError] is constructed from the estimator ([NotFittedError(self)]). *)
Inductive exn (T : Type) : Type :=
| NotFittedError (self : T)
| ValueError (v : value_error)
| UnboundLocalError
| TypeError.
Arguments NotFittedError {T} self.
Arguments ValueError {T} v.
Arguments UnboundLocalError {T}.
Arguments TypeError {T}.

Inductive result (E A : Type) : Type :=
| Ok (a : A)
| Raise (e : E).
Arguments Ok {E A} a.
Arguments Raise {E A} e.

Definition is_ok {E A} (r : result E A) : bool :=
  match r with Ok _ => true | Raise _ => false end.

(** The error kinds by which [np.random.choice] rejects the size of the
    sample against the size of the population. *)
Definition sampling_range_error (v : value_error) : Prop :=
  v = LargerSampleThanPopulation ∨ v = EmptyPopulation.

(** ** The random source *)

Definition rng : Type := list nat.

(** The next number below [n] (0 when the tape is used up). *)
Definition next_below (n : nat) (g : rng) : nat * rng :=
  match g with
  | [] => (0, [])
  | r :: g' => (r `mod` n, g')
  end.

(** [k] distinct members of [pool], each taken out of what is left. *)
Fixpoint draw_distinct (k : nat) (pool : list nat) (g : rng)
  : list nat * rng :=
  match k with
  | 0 => ([], g)
  | S k' =>
      let '(p, g1) := next_below (length pool) g in
      match pool !! p with
      | None => ([], g1)
      | Some x =>
          let '(xs, g2) := draw_distinct k' (delete p pool) g1 in
          (x :: xs, g2)
      end
  end.

(** [np.random.choice(a, size, replace=False)] for an integer [a]. *)
Definition choice_no_replace (a : nat) (size : Z) (g : rng)
  : result value_error (list nat) * rng :=
  if (a =? 0) && negb (size =? 0)%Z then (Raise EmptyPopulation, g)
  else if (Z.of_nat a <? size)%Z then (Raise LargerSampleThanPopulation, g)
  else if (size <? 0)%Z then (Raise NegativeDimensions, g)
  else let '(idx, g') := draw_distinct (Z.to_nat size) (seq 0 a) g in
       (Ok idx, g').

(** [np.random.choice(a)]: one index below [a]. *)
Definition choice_one (a : nat) (g : rng) : result value_error nat * rng :=
  if a =? 0 then (Raise EmptyPopulation, g)
  else let '(i, g') := next_below a g in (Ok i, g').

(** [np.random.choice(a, p=p)]: one index below [a], among those of positive
    probability. *)
Definition choice_weighted (a : nat) (p : list num) (g : rng)
  : result value_error nat * rng :=
  if a =? 0 then (Raise EmptyPopulation, g)
  else if negb (length p =? a) then (Raise SizeMismatch, g)
  else if is_nan (nsum p) then (Raise ProbabilitiesContainNaN, g)
  else if existsb (λ x, nlt x nzero) p then (Raise ProbabilitiesNotNonNegative, g)
  else if negb (neq (nsum p) (Fin 1)) then (Raise ProbabilitiesDoNotSumTo1, g)
  else
    let support := filter (λ i, nlt nzero (default NaN (p !! i)) = true) (seq 0 a) in
    let '(k, g') := next_below (length support) g in
    (Ok (default 0 (support !! k)), g').

(** ** Distances and labels *)

Definition broadcastable (d1 d2 : nat) : bool :=
  (d1 =? d2) || (d1 =? 1) || (d2 =? 1).

(** [x - c] for two rows under broadcasting: a row of width 1 is stretched. *)
Definition bsub (x c : list num) : list num :=
  match x, c with
  | [a], _ :: _ :: _ => nsub a <$> c
  | _ :: _ :: _, [b] => (λ a, nsub a b) <$> x
  | _, _ => zip_with nsub x c
  end.

(** The distances of the point [x] to the reference points [C]. *)
Definition distance_row (f : list num -> num) (x : list num) (C : Matrix)
  : list num :=
  (λ c, f (bsub x c)) <$> rows C.

(** [f(X[:, np.newaxis] - C)] reduced over the last axis: entry [(n, k)] is
    [f (X[n] - C[k])]. *)
Definition pairwise (f : list num -> num) (X C : Matrix)
  : result value_error (list (list num)) :=
  if broadcastable (ncols X) (ncols C)
  then Ok ((λ x, distance_row f x C) <$> rows X)
  else Raise OperandsNotBroadcastable.

(** [np.argmin] of one row: the first NaN if there is one, else the first
    minimum. *)
Fixpoint argmin_scan (mp : num) (min_ind i : nat) (l : list num) : nat :=
  match l with
  | [] => min_ind
  | ip :: l' =>
      if negb (nge ip mp)
      then if is_nan ip then i else argmin_scan ip i (S i) l'
      else argmin_scan mp min_ind (S i) l'
  end.

Definition argmin (l : list num) : nat :=
  match l with
  | [] => 0
  | mp :: l' => if is_nan mp then 0 else argmin_scan mp 0 1 l'
  end.

(** [np.argmin(D, axis=1)] for [D] with [k] columns. *)
Definition argmin_axis1 (k : nat) (D : list (list num))
  : result value_error (list nat) :=
  if k =? 0 then Raise ArgminOfEmptySequence else Ok (argmin <$> D).

(** The labels of the rows of [X] against the reference points [C]. *)
Definition nearest (f : list num -> num) (X C : Matrix)
  : result value_error (list nat) :=
  match pairwise f X C with
  | Raise e => Raise e
  | Ok D => argmin_axis1 (shape0 C) D
  end.

(** ** Worlds and methods *)

Record world (T : Type) : Type := mkWorld {
  self : T;
  gen : rng;
  trace : list (Matrix * Matrix)
}.
Arguments mkWorld {T} self gen trace.
Arguments self {T} w.
Arguments gen {T} w.
Arguments trace {T} w.

Definition M (T A : Type) : Type := world T -> result (exn T) A * world T.

#[export] Instance M_ret {T} : MRet (M T) := λ A a w, (Ok a, w).
#[export] Instance M_bind {T} : MBind (M T) := λ A B f m w,
  match m w with
  | (Ok a, w') => f a w'
  | (Raise e, w') => (Raise e, w')
  end.

Definition raise {T A} (e : exn T) : M T A := λ w, (Raise e, w).

Definition gets {T A} (f : T -> A) : M T A := λ w, (Ok (f (self w)), w).

Definition modify {T} (f : T -> T) : M T unit :=
  λ w, (Ok tt, mkWorld (f (self w)) (gen w) (trace w)).

(** A NumPy call that may raise a [ValueError]. *)
Definition numpy {T A} (r : result value_error A) : M T A :=
  λ w, match r with
       | Ok a => (Ok a, w)
       | Raise v => (Raise (ValueError v), w)
       end.

(** A call of [np.random.choice]. *)
Definition random {T A} (c : rng -> result value_error A * rng) : M T A :=
  λ w, match c (gen w) with
       | (Ok a, g') => (Ok a, mkWorld (self w) g' (trace w))
       | (Raise v, g') => (Raise (ValueError v), mkWorld (self w) g' (trace w))
       end.

(** Ghost: note that an iteration starting from reference set [old] computed
    [new]. *)
Definition note {T} (old new : Matrix) : M T unit :=
  λ w, (Ok tt, mkWorld (self w) (gen w) (trace w ++ [(old, new)])).

Inductive control : Type := Continue | Break.

(** [for _ in range(n): body], where the body may [break]. *)
Fixpoint for_range {T} (n : nat) (body : M T control) : M T unit :=
  match n with
  | 0 => mret tt
  | S n' => λ w,
      match body w with
      | (Ok Continue, w') => for_range n' body w'
      | (Ok Break, w') => (Ok tt, w')
      | (Raise e, w') => (Raise e, w')
      end
  end.

(** The evaluator capability consumed by [score] ([metric.compute]). *)
Definition Evaluator : Type := Matrix -> list nat -> num.

(** ** KMeansClustering *)

Module KMeans.

Record t : Type := mk {
  n_clusters : Z;
  max_iter : Z;
  verbose : bool;
  centroids : option Matrix;
  _X : option Matrix;
  _fitted : bool
}.

Definition init (n_clusters max_iter : Z) (verbose : bool) : t :=
  mk n_clusters max_iter verbose None None false.

Definition set_centroids (c : Matrix) (s : t) : t :=
  mk (n_clusters s) (max_iter s) (verbose s) (Some c) (_X s) (_fitted s).
Definition set_X (X : Matrix) (s : t) : t :=
  mk (n_clusters s) (max_iter s) (verbose s) (centroids s) (Some X) (_fitted s).
Definition set_fitted (b : bool) (s : t) : t :=
  mk (n_clusters s) (max_iter s) (verbose s) (centroids s) (_X s) b.
Definition set_n_clusters (k : Z) (s : t) : t :=
  mk k (max_iter s) (verbose s) (centroids s) (_X s) (_fitted s).
Definition set_max_iter (m : Z) (s : t) : t :=
  mk (n_clusters s) m (verbose s) (centroids s) (_X s) (_fitted s).

(** [self.centroids] as an array ([fit] has assigned it before any read). *)
Definition the_centroids (s : t) : Matrix :=
  default (mkMatrix 0 []) (centroids s).

(** [[X[labels == i].mean(axis=0) for i in range(self.n_clusters)]] *)
Definition new_centroids (X : Matrix) (K : Z) (labels : list nat) : Matrix :=
  mkMatrix (ncols X)
    ((λ i, mean_axis0 (ncols X) (select (rows X) labels i))
       <$> seq 0 (Z.to_nat K)).

(** One pass of the body of the loop of [fit]. *)
Definition iteration (X : Matrix) : M t control :=
  c ← gets the_centroids;
  labels ← numpy (nearest norm2 X c);
  K ← gets n_clusters;
  let new := new_centroids X K labels in
  _ ← note c new;
  if all_eq (rows new) (rows c) then mret Break
  else
    _ ← modify (set_centroids new);
    mret Continue.

Definition fit (X : Matrix) : M t unit :=
  K ← gets n_clusters;
  init_indices ← random (choice_no_replace (shape0 X) K);
  _ ← modify (set_centroids (take_rows X init_indices));
  _ ← modify (set_X X);
  n ← gets max_iter;
  _ ← for_range (Z.to_nat n) (iteration X);
  modify (set_fitted true).

Definition predict (X : Matrix) : M t (list nat) :=
  fitted ← gets _fitted;
  if negb fitted then s ← gets id; raise (NotFittedError s)
  else
    c ← gets the_centroids;
    numpy (nearest norm2 X c).

(** The property [labels]: [self.predict(self._X)].  [predict] tests the
    fitted flag before it touches its argument, which is [None] until the
    first [fit]. *)
Definition labels : M t (list nat) :=
  X ← gets _X;
  match X with
  | Some X => predict X
  | None =>
      fitted ← gets _fitted;
      if negb fitted then s ← gets id; raise (NotFittedError s)
      else raise TypeError
  end.

Definition score (X : Matrix) (metric : Evaluator) : M t num :=
  X_pred ← predict X;
  mret (metric X X_pred).

Definition set_params (n_clusters max_iter : option Z) : M t unit :=
  _ ← match n_clusters with
      | Some k => modify (set_n_clusters k)
      | None => mret tt
      end;
  match max_iter with
  | Some m => modify (set_max_iter m)
  | None => mret tt
  end.

End KMeans.

(** ** KMeansClusteringPlus *)

(** Python's [min] of a list: a later item replaces the current one when it
    compares [<] to it. *)
Fixpoint py_min_from (m : num) (l : list num) : num :=
  match l with
  | [] => m
  | x :: l' => py_min_from (if nlt x m then x else m) l'
  end.

Definition py_min (l : list num) : num :=
  match l with
  | [] => NaN
  | x :: l' => py_min_from x l'
  end.

Module KMeansPlus.

Record t : Type := mk {
  n_clusters : Z;
  max_iter : Z;
  verbose : bool;
  centroids : option Matrix;
  _X : option Matrix;
  _fitted : bool
}.

Definition init (n_clusters max_iter : Z) (verbose : bool) : t :=
  mk n_clusters max_iter verbose None None false.

Definition set_centroids (c : Matrix) (s : t) : t :=
  mk (n_clusters s) (max_iter s) (verbose s) (Some c) (_X s) (_fitted s).
Definition set_X (X : Matrix) (s : t) : t :=
  mk (n_clusters s) (max_iter s) (verbose s) (centroids s) (Some X) (_fitted s).
Definition set_fitted (b : bool) (s : t) : t :=
  mk (n_clusters s) (max_iter s) (verbose s) (centroids s) (_X s) b.
Definition set_n_clusters (k : Z) (s : t) : t :=
  mk k (max_iter s) (verbose s) (centroids s) (_X s) (_fitted s).
Definition set_max_iter (m : Z) (s : t) : t :=
  mk (n_clusters s) m (verbose s) (centroids s) (_X s) (_fitted s).

Definition the_centroids (s : t) : Matrix :=
  default (mkMatrix 0 []) (centroids s).

Definition row (X : Matrix) (i : nat) : list num :=
  default [] (rows X !! i).

(** [[min([np.linalg.norm(x - c) ** 2 for c in self.centroids]) for x in X]] *)
Definition seed_distances (X c : Matrix) : list num :=
  (λ x, py_min ((λ c, norm2 (zip_with nsub x c)) <$> rows c)) <$> rows X.

(** [distances / distances.sum()] *)
Definition seed_probs (distances : list num) : list num :=
  (λ d, ndiv d (nsum distances)) <$> distances.

(** One pass of the seeding loop: draw the next centroid and append it. *)
Definition seed_next (X : Matrix) : M t control :=
  c ← gets the_centroids;
  let probs := seed_probs (seed_distances X c) in
  next_centroid ← random (choice_weighted (shape0 X) probs);
  _ ← modify (set_centroids (mkMatrix (ncols X) (rows c ++ [row X next_centroid])));
  mret Continue.

Definition _initialize_centroids (X : Matrix) : M t unit :=
  first ← random (choice_one (shape0 X));
  _ ← modify (set_centroids (mkMatrix (ncols X) [row X first]));
  K ← gets n_clusters;
  for_range (Z.to_nat (K - 1)) (seed_next X).

(** The inner loop over [range(self.n_clusters)]: a cluster without points
    is skipped, the others get their mean, in place. *)
Definition update_cluster (X : Matrix) (labels : list nat)
    (c : list (list num)) (i : nat) : list (list num) :=
  let cluster_points := select (rows X) labels i in
  if length cluster_points =? 0 then c
  else <[i := mean_axis0 (ncols X) cluster_points]> c.

Definition update (X : Matrix) (K : Z) (labels : list nat) (c : Matrix)
  : Matrix :=
  mkMatrix (ncols c) (foldl (update_cluster X labels) (rows c) (seq 0 (Z.to_nat K))).

(** One pass of the body of the loop of [fit].  The progress test reads the
    variable [i] of the inner loop, which is unbound when that loop had no
    pass. *)
Definition iteration (X : Matrix) : M t control :=
  c ← gets the_centroids;
  labels ← numpy (nearest norm2 X c);
  K ← gets n_clusters;
  let c' := update X K labels c in
  _ ← modify (set_centroids c');
  _ ← note c c';
  v ← gets verbose;
  if v && (K <=? 0)%Z then raise UnboundLocalError
  else mret Continue.

Definition fit (X : Matrix) : M t unit :=
  _ ← modify (set_X X);
  _ ← _initialize_centroids X;
  n ← gets max_iter;
  _ ← for_range (Z.to_nat n) (iteration X);
  modify (set_fitted true).

Definition predict (X : Matrix) : M t (list nat) :=
  fitted ← gets _fitted;
  if negb fitted then s ← gets id; raise (NotFittedError s)
  else
    c ← gets the_centroids;
    numpy (nearest norm2 X c).

Definition labels : M t (list nat) :=
  X ← gets _X;
  match X with
  | Some X => predict X
  | None =>
      fitted ← gets _fitted;
      if negb fitted then s ← gets id; raise (NotFittedError s)
      else raise TypeError
  end.

Definition score (X : Matrix) (metric : Evaluator) : M t num :=
  X_pred ← predict X;
  mret (metric X X_pred).

Definition set_params (n_clusters max_iter : option Z) : M t unit :=
  _ ← match n_clusters with
      | Some k => modify (set_n_clusters k)
      | None => mret tt
      end;
  match max_iter with
  | Some m => modify (set_max_iter m)
  | None => mret tt
  end.

End KMeansPlus.

(** ** KMediansClustering *)

Module KMedians.

Record t : Type := mk {
  n_clusters : Z;
  max_iter : Z;
  verbose : bool;
  medians : option Matrix;
  _X : option Matrix;
  _fitted : bool
}.

Definition init (n_clusters max_iter : Z) (verbose : bool) : t :=
  mk n_clusters max_iter verbose None None false.

Definition set_medians (c : Matrix) (s : t) : t :=
  mk (n_clusters s) (max_iter s) (verbose s) (Some c) (_X s) (_fitted s).
Definition set_X (X : Matrix) (s : t) : t :=
  mk (n_clusters s) (max_iter s) (verbose s) (medians s) (Some X) (_fitted s).
Definition set_fitted (b : bool) (s : t) : t :=
  mk (n_clusters s) (max_iter s) (verbose s) (medians s) (_X s) b.
Definition set_n_clusters (k : Z) (s : t) : t :=
  mk k (max_iter s) (verbose s) (medians s) (_X s) (_fitted s).
Definition set_max_iter (m : Z) (s : t) : t :=
  mk (n_clusters s) m (verbose s) (medians s) (_X s) (_fitted s).

Definition the_medians (s : t) : Matrix :=
  default (mkMatrix 0 []) (medians s).

(** [[np.median(X[labels == i], axis=0) for i in range(self.n_clusters)]] *)
Definition new_medians (X : Matrix) (K : Z) (labels : list nat) : Matrix :=
  mkMatrix (ncols X)
    ((λ i, median_axis0 (ncols X) (select (rows X) labels i))
       <$> seq 0 (Z.to_nat K)).

Definition iteration (X : Matrix) : M t control :=
  c ← gets the_medians;
  labels ← numpy (nearest norm1 X c);
  K ← gets n_clusters;
  let new := new_medians X K labels in
  _ ← note c new;
  if all_eq (rows new) (rows c) then mret Break
  else
    _ ← modify (set_medians new);
    mret Continue.

Definition fit (X : Matrix) : M t unit :=
  _ ← modify (set_X X);
  K ← gets n_clusters;
  idx ← random (choice_no_replace (shape0 X) K);
  _ ← modify (set_medians (take_rows X idx));
  n ← gets max_iter;
  _ ← for_range (Z.to_nat n) (iteration X);
  modify (set_fitted true).

Definition predict (X : Matrix) : M t (list nat) :=
  fitted ← gets _fitted;
  if negb fitted then s ← gets id; raise (NotFittedError s)
  else
    c ← gets the_medians;
    numpy (nearest norm1 X c).

Definition labels : M t (list nat) :=
  X ← gets _X;
  match X with
  | Some X => predict X
  | None =>
      fitted ← gets _fitted;
      if negb fitted then s ← gets id; raise (NotFittedError s)
      else raise TypeError
  end.

Definition score (X : Matrix) (metric : Evaluator) : M t num :=
  X_pred ← predict X;
  mret (metric X X_pred).

Definition set_params (n_clusters max_iter : option Z) : M t unit :=
  _ ← match n_clusters with
      | Some k => modify (set_n_clusters k)
      | None => mret tt
      end;
  match max_iter with
  | Some m => modify (set_max_iter m)
  | None => mret tt
  end.

End KMedians.

(** ** MiniBatchKMeansClustering *)

Module MiniBatch.

Record t : Type := mk {
  n_clusters : Z;
  batch_size : Z;
  max_iter : Z;
  centroids : option Matrix;
  _X : option Matrix;
  _fitted : bool
}.

Definition init (n_clusters batch_size max_iter : Z) : t :=
  mk n_clusters batch_size max_iter None None false.

Definition set_centroids (c : Matrix) (s : t) : t :=
  mk (n_clusters s) (batch_size s) (max_iter s) (Some c) (_X s) (_fitted s).
Definition set_X (X : Matrix) (s : t) : t :=
  mk (n_clusters s) (batch_size s) (max_iter s) (centroids s) (Some X) (_fitted s).
Definition set_fitted (b : bool) (s : t) : t :=
  mk (n_clusters s) (batch_size s) (max_iter s) (centroids s) (_X s) b.
Definition set_n_clusters (k : Z) (s : t) : t :=
  mk k (batch_size s) (max_iter s) (centroids s) (_X s) (_fitted s).
Definition set_batch_size (b : Z) (s : t) : t :=
  mk (n_clusters s) b (max_iter s) (centroids s) (_X s) (_fitted s).
Definition set_max_iter (m : Z) (s : t) : t :=
  mk (n_clusters s) (batch_size s) m (centroids s) (_X s) (_fitted s).

Definition the_centroids (s : t) : Matrix :=
  default (mkMatrix 0 []) (centroids s).

(** The inner loop over [range(self.n_clusters)]: a cluster with points of
    the batch gets their mean, in place. *)
Definition update_cluster (batch : Matrix) (closest_cluster_idx : list nat)
    (c : list (list num)) (i : nat) : list (list num) :=
  let cluster_points := select (rows batch) closest_cluster_idx i in
  if 0 <? length cluster_points
  then <[i := mean_axis0 (ncols batch) cluster_points]> c
  else c.

Definition update (batch : Matrix) (K : Z) (closest_cluster_idx : list nat)
    (c : Matrix) : Matrix :=
  mkMatrix (ncols c)
    (foldl (update_cluster batch closest_cluster_idx) (rows c)
           (seq 0 (Z.to_nat K))).

Definition iteration (X : Matrix) : M t control :=
  B ← gets batch_size;
  batch_idx ← random (choice_no_replace (shape0 X) B);
  let batch := take_rows X batch_idx in
  c ← gets the_centroids;
  closest_cluster_idx ← numpy (nearest norm2 batch c);
  K ← gets n_clusters;
  let c' := update batch K closest_cluster_idx c in
  _ ← modify (set_centroids c');
  _ ← note c c';
  mret Continue.

Definition fit (X : Matrix) : M t unit :=
  _ ← modify (set_X X);
  K ← gets n_clusters;
  rand_idx ← random (choice_no_replace (shape0 X) K);
  _ ← modify (set_centroids (take_rows X rand_idx));
  n ← gets max_iter;
  _ ← for_range (Z.to_nat n) (iteration X);
  modify (set_fitted true).

Definition predict (X : Matrix) : M t (list nat) :=
  fitted ← gets _fitted;
  if negb fitted then s ← gets id; raise (NotFittedError s)
  else
    c ← gets the_centroids;
    numpy (nearest norm2 X c).

Definition labels : M t (list nat) :=
  X ← gets _X;
  match X with
  | Some X => predict X
  | None =>
      fitted ← gets _fitted;
      if negb fitted then s ← gets id; raise (NotFittedError s)
      else raise TypeError
  end.

Definition score (X : Matrix) (metric : Evaluator) : M t num :=
  X_pred ← predict X;
  mret (metric X X_pred).

Definition set_params (n_clusters batch_size max_iter : option Z) : M t unit :=
  _ ← match n_clusters with
      | Some k => modify (set_n_clusters k)
      | None => mret tt
      end;
  _ ← match batch_size with
      | Some b => modify (set_batch_size b)
      | None => mret tt
      end;
  match max_iter with
  | Some m => modify (set_max_iter m)
  | None => mret tt
  end.

End MiniBatch.

(** ** The estimator protocol and its four implementations *)

(** [luma.interface.super.Estimator], with the attributes the four clustering
    classes share: every class has the four methods, its hyperparameters, a
    reference set ([centroids] or [medians]), the training set [_X], the flag
    [_fitted], and measures distance by one vector norm. *)
Class Estimator (T : Type) : Type := {
  args : Type;
  new : args -> T;
  params : Type;
  fit : Matrix -> M T unit;
  predict : Matrix -> M T (list nat);
  labels : M T (list nat);
  score : Matrix -> Evaluator -> M T num;
  set_params : params -> M T unit;
  n_clusters : T -> Z;
  max_iter : T -> Z;
  reference_set : T -> option Matrix;
  training_set : T -> option Matrix;
  fitted : T -> bool;
  norm : list num -> num
}.

#[export] Instance KMeans_estimator : Estimator KMeans.t := {|
  args := Z * Z * bool;
  new := λ '(k, m, v), KMeans.init k m v;
  params := option Z * option Z;
  fit := KMeans.fit;
  predict := KMeans.predict;
  labels := KMeans.labels;
  score := KMeans.score;
  set_params := λ '(k, m), KMeans.set_params k m;
  n_clusters := KMeans.n_clusters;
  max_iter := KMeans.max_iter;
  reference_set := KMeans.centroids;
  training_set := KMeans._X;
  fitted := KMeans._fitted;
  norm := norm2
|}.

#[export] Instance KMeansPlus_estimator : Estimator KMeansPlus.t := {|
  args := Z * Z * bool;
  new := λ '(k, m, v), KMeansPlus.init k m v;
  params := option Z * option Z;
  fit := KMeansPlus.fit;
  predict := KMeansPlus.predict;
  labels := KMeansPlus.labels;
  score := KMeansPlus.score;
  set_params := λ '(k, m), KMeansPlus.set_params k m;
  n_clusters := KMeansPlus.n_clusters;
  max_iter := KMeansPlus.max_iter;
  reference_set := KMeansPlus.centroids;
  training_set := KMeansPlus._X;
  fitted := KMeansPlus._fitted;
  norm := norm2
|}.

#[export] Instance KMedians_estimator : Estimator KMedians.t := {|
  args := Z * Z * bool;
  new := λ '(k, m, v), KMedians.init k m v;
  params := option Z * option Z;
  fit := KMedians.fit;
  predict := KMedians.predict;
  labels := KMedians.labels;
  score := KMedians.score;
  set_params := λ '(k, m), KMedians.set_params k m;
  n_clusters := KMedians.n_clusters;
  max_iter := KMedians.max_iter;
  reference_set := KMedians.medians;
  training_set := KMedians._X;
  fitted := KMedians._fitted;
  norm := norm1
|}.

#[export] Instance MiniBatch_estimator : Estimator MiniBatch.t := {|
  args := Z * Z * Z;
  new := λ '(k, b, m), MiniBatch.init k b m;
  params := option Z * option Z * option Z;
  fit := MiniBatch.fit;
  predict := MiniBatch.predict;
  labels := MiniBatch.labels;
  score := MiniBatch.score;
  set_params := λ '(k, b, m), MiniBatch.set_params k b m;
  n_clusters := MiniBatch.n_clusters;
  max_iter := MiniBatch.max_iter;
  reference_set := MiniBatch.centroids;
  training_set := MiniBatch._X;
  fitted := MiniBatch._fitted;
  norm := norm2
|}.

(** The four classes of [__all__]. *)
Inductive variant : Type :=
| KMeansClustering
| KMeansClusteringPlus
| KMediansClustering
| MiniBatchKMeansClustering.

#[export] Instance variant_eq_dec : EqDecision variant.
Proof. solve_decision. Defined.

Definition instance (v : variant) : Type :=
  match v with
  | KMeansClustering => KMeans.t
  | KMeansClusteringPlus => KMeansPlus.t
  | KMediansClustering => KMedians.t
  | MiniBatchKMeansClustering => MiniBatch.t
  end.

#[export] Instance variant_estimator (v : variant) : Estimator (instance v) :=
  match v with
  | KMeansClustering => KMeans_estimator
  | KMeansClusteringPlus => KMeansPlus_estimator
  | KMediansClustering => KMedians_estimator
  | MiniBatchKMeansClustering => MiniBatch_estimator
  end.

(** ** Sessions: what a caller does with an estimator *)

Inductive call (T : Type) `{Estimator T} : Type :=
| CallFit (X : Matrix)
| CallPredict (X : Matrix)
| CallLabels
| CallScore (X : Matrix) (metric : Evaluator)
| CallSetParams (p : params).
Arguments call T {_}.
Arguments CallFit {T _} X.
Arguments CallPredict {T _} X.
Arguments CallLabels {T _}.
Arguments CallScore {T _} X metric.
Arguments CallSetParams {T _} p.

(** One call: whether it returned, and the world it leaves. *)
Definition exec {T} `{Estimator T} (c : call T) (w : world T) : bool * world T :=
  match c with
  | CallFit X => let '(r, w') := fit X w in (is_ok r, w')
  | CallPredict X => let '(r, w') := predict X w in (is_ok r, w')
  | CallLabels => let '(r, w') := labels w in (is_ok r, w')
  | CallScore X metric => let '(r, w') := score X metric w in (is_ok r, w')
  | CallSetParams p => let '(r, w') := set_params p w in (is_ok r, w')
  end.

Definition is_fit {T} `{Estimator T} (c : call T) : bool :=
  match c with CallFit _ => true | _ => false end.

Definition run {T} `{Estimator T} (cs : list (call T)) (w : world T) : world T :=
  foldl (λ w c, snd (exec c w)) w cs.

(** No [fit] of the session returned. *)
Fixpoint no_fit_completed {T} `{Estimator T} (cs : list (call T)) (w : world T)
  : bool :=
  match cs with
  | [] => true
  | c :: cs' =>
      let '(ok, w') := exec c w in
      negb (is_fit c && ok) && no_fit_completed cs' w'
  end.

(** ** Vocabulary of the properties *)

(** Numbers that are not NaN, and their signs. *)
Definition finite (a : num) : Prop := is_nan a = false.

Definition nonneg (a : num) : Prop :=
  match a with Fin q => (0 <= q)%Q | NaN => True end.

Definition zero (a : num) : Prop :=
  match a with Fin q => (q == 0)%Q | NaN => False end.

Definition is_positive (a : num) : bool := nlt nzero a.

(** What every method but a returning [fit] leaves alone. *)
Definition frame {T} `{Estimator T} (s s' : T) : Prop :=
  n_clusters s' = n_clusters s ∧ max_iter s' = max_iter s ∧
  fitted s' = fitted s ∧ training_set s' = training_set s.

Definition wframe {T} `{Estimator T} (w w' : world T) : Prop :=
  frame (self w) (self w').

(** What [fit] does to the hyperparameters and to the fitted flag: the flag
    is set when [fit] returns and kept when it raises. *)
Definition fit_flag {T} `{Estimator T} (w : world T)
    (r : result (exn T) unit) (w' : world T) : Prop :=
  n_clusters (self w') = n_clusters (self w) ∧
  max_iter (self w') = max_iter (self w) ∧
  fitted (self w') = (if is_ok r then true else fitted (self w)).

(** The reference set as an array. *)
Definition current {T} `{Estimator T} (w : world T) : Matrix :=
  default (mkMatrix 0 []) (reference_set (self w)).

(** The hyperparameter [n_clusters] is [K] and there are [k] reference
    points. *)
Definition has_rows {T} `{Estimator T} (K : Z) (k : nat) (w : world T) : Prop :=
  n_clusters (self w) = K ∧
  ∃ C, reference_set (self w) = Some C ∧ shape0 C = k.

(** The reference set an iteration of K-Means or K-Medians computes from the
    current one: the labels of the rows of [X] against [old], then per
    cluster index the mean, resp. the median, of the rows with that label. *)
Definition recomputed (v : variant) (X : Matrix) (K : Z) (old new : Matrix)
  : Prop :=
  ∃ labels, nearest (norm (T := instance v)) X old = Ok labels ∧
    new = match v with
          | KMediansClustering => KMedians.new_medians X K labels
          | _ => KMeans.new_centroids X K labels
          end.

(** The new reference point of cluster [i] in an in-place update, if any. *)
Definition cluster_value (X : Matrix) (labels : list nat) (i : nat)
  : option (list num) :=
  match select (rows X) labels i with
  | [] => None
  | pts => Some (mean_axis0 (ncols X) pts)
  end.

(** What one update step does to the reference set [old], given the points
    [batch] and their labels: same shape; a cluster without points keeps its
    row; a cluster with points gets their mean. *)
Definition updated (K : Z) (batch : Matrix) (labels : list nat)
    (old new : Matrix) : Prop :=
  ncols new = ncols old ∧ shape0 new = shape0 old ∧
  ∀ i, (Z.of_nat i < K)%Z ->
    let pts := select (rows batch) labels i in
    (pts = [] -> rows new !! i = rows old !! i) ∧
    (pts ≠ [] -> i < shape0 old ->
       rows new !! i = Some (mean_axis0 (ncols batch) pts)).



(** [l] is the lowest position of a least entry of [d]. *)
Definition lowest_nearest (d : list num) (l : nat) : Prop :=
  ∃ dl, d !! l = Some dl ∧
    (∀ j dj, d !! j = Some dj -> nge dj dl = true) ∧
    (∀ j dj, j < l -> d !! j = Some dj -> nlt dl dj = true).

(** The state of the seeding: some centroids, all of the width of [X], one
    per index of a duplicate-free list of row indices, each of which is at a
    distance that is not positive. *)
Definition seeded (X : Matrix) (w : world KMeansPlus.t) : Prop :=
  let c := KMeansPlus.the_centroids (self w) in
  rows c ≠ [] ∧ Forall (λ r, length r = ncols X) (rows c) ∧
  ∃ chosen, NoDup chosen ∧ length chosen = shape0 c ∧
    ∀ r, r ∈ chosen ->
      r < shape0 X ∧
      ∃ dr, KMeansPlus.seed_distances X c !! r = Some dr ∧ is_positive dr = false.

(** ** Sample data *)

Definition Q_of (z : Z) : num := Fin (inject_Z z).

(** The four points of the specification's scenario. *)
Definition four_points : Matrix :=
  mkMatrix 2 [[Q_of 0; Q_of 0]; [Q_of 0; Q_of 1];
              [Q_of 10; Q_of 0]; [Q_of 10; Q_of 1]].

(** The means (0, 1/2) and (10, 1/2) of its two pairs. *)
Definition two_means : Matrix :=
  mkMatrix 2 [[Fin (0 # 2); Fin (1 # 2)]; [Fin (20 # 2); Fin (1 # 2)]].

Definition one_point : Matrix := mkMatrix 1 [[Q_of 0]].

Definition two_zeros : Matrix := mkMatrix 1 [[Q_of 0]; [Q_of 0]].

(** ** Vocabulary of the further properties *)



(** The world with the fitted flag replaced. *)
Definition with_flag (v : variant) (b : bool) (w : world (instance v))
  : world (instance v) :=
  mkWorld
    (match v return instance v -> instance v with
     | KMeansClustering => KMeans.set_fitted b
     | KMeansClusteringPlus => KMeansPlus.set_fitted b
     | KMediansClustering => KMedians.set_fitted b
     | MiniBatchKMeansClustering => MiniBatch.set_fitted b
     end (self w))
    (gen w) (trace w).

(** The instance a constructor call with the hyperparameters of [s] gives. *)
Definition renewed (v : variant) : instance v -> instance v :=
  match v with
  | KMeansClustering => λ s,
      KMeans.init (KMeans.n_clusters s) (KMeans.max_iter s) (KMeans.verbose s)
  | KMeansClusteringPlus => λ s,
      KMeansPlus.init (KMeansPlus.n_clusters s) (KMeansPlus.max_iter s)
        (KMeansPlus.verbose s)
  | KMediansClustering => λ s,
      KMedians.init (KMedians.n_clusters s) (KMedians.max_iter s)
        (KMedians.verbose s)
  | MiniBatchKMeansClustering => λ s,
      MiniBatch.init (MiniBatch.n_clusters s) (MiniBatch.batch_size s)
        (MiniBatch.max_iter s)
  end.

(** The reference set has the width of [X], and is rectangular. *)
Definition has_width {T} `{Estimator T} (X : Matrix) (w : world T) : Prop :=
  ∃ C, reference_set (self w) = Some C ∧ ncols C = ncols X ∧ wf_matrix C.

(** What a call of [fit] returns or raises, and the world a returning call
    leaves, as a function of the hyperparameters alone. *)
Definition fit_outcome (v : variant) (X : Matrix) (w : world (instance v))
  : result (exn (instance v)) unit * option (world (instance v)) :=
  let '(r, w') := fit X w in
  (r, if is_ok r then Some w' else None).

(** The state of the seeding, by value: the centroids are rows of [X], no
    two of them the same. *)
Definition distinct_seeds (X : Matrix) (w : world KMeansPlus.t) : Prop :=
  ∃ C, KMeansPlus.centroids (self w) = Some C ∧
    rows C ≠ [] ∧ ncols C = ncols X ∧ NoDup (rows C) ∧
    ∀ x, x ∈ rows C -> x ∈ rows X.

(** A matrix without NaN. *)
Definition nan_free (C : Matrix) : Prop := Forall (Forall finite) (rows C).

(** A reference set for [K] clusters of points of [X]. *)
Definition shaped (X : Matrix) (K : Z) (C : Matrix) : Prop :=
  ncols C = ncols X ∧ wf_matrix C ∧ shape0 C = Z.to_nat K.

(** The reference set K-Means, resp. K-Medians, computes from labels. *)
Definition recompute (v : variant) (X : Matrix) (K : Z) (labels : list nat)
  : Matrix :=
  match v with
  | KMediansClustering => KMedians.new_medians X K labels
  | _ => KMeans.new_centroids X K labels
  end.

(** The instance holds a reference set for [K] clusters with a NaN in it. *)
Definition poisoned {T} `{Estimator T} (X : Matrix) (K : Z) (w : world T)
  : Prop :=
  n_clusters (self w) = K ∧
  ∃ c, reference_set (self w) = Some c ∧ shaped X K c ∧ ¬ nan_free c.

#[local] Instance finite_dec (a : num) : Decision (finite a).
Proof. unfold finite. apply _. Defined.

(** The calls that only read the estimator. *)
Definition is_observer {T} `{Estimator T} (c : call T) : bool :=
  match c with
  | CallPredict _ | CallLabels | CallScore _ _ => true
  | CallFit _ | CallSetParams _ => false
  end.

(** The mean, resp. for K-Medians the median, of all rows of [X], as a
    reference set of one point. *)
Definition center (v : variant) (X : Matrix) : Matrix :=
  mkMatrix (ncols X)
    [match v with
     | KMediansClustering => median_axis0 (ncols X) (rows X)
     | _ => mean_axis0 (ncols X) (rows X)
     end].

(** The rational a number stands for (0 for NaN, which the properties
    exclude where they use it). *)
Definition val (a : num) : Q :=
  match a with Fin q => q | NaN => 0%Q end.

(** The sum of a list of rationals. *)
Definition sumQ (l : list Q) : Q := foldr Qplus 0%Q l.

(** The squared distance of two points, as a rational. *)
Definition d2 (x c : list num) : Q :=
  sumQ (zip_with (λ a b, (val a - val b) * (val a - val b))%Q x c).

(** The within-cluster dispersion of the points of [X] under [labels]: the
    sum of the distances [f (x - c)] of each point to the reference point of
    its label. *)
Definition cost (f : list num -> num) (X C : Matrix) (labels : list nat)
  : num :=
  nsum (zip_with (λ x l, f (bsub x (default [] (rows C !! l))))
          (rows X) labels).

(** The same with squared Euclidean distances, as a rational. *)
Definition costQ (P C : list (list num)) (labels : list nat) : Q :=
  sumQ (zip_with (λ x l, d2 x (default [] (C !! l))) P labels).

(** * Properties *)

(** ** Reasoning about methods *)

Ltac msimpl :=
  cbv beta iota delta
    [mbind mret M_bind M_ret gets modify raise note numpy random] in *;
  cbn [self gen trace fst snd is_ok] in *.

Ltac mcases :=
  msimpl; repeat (case_match; simplify_eq; msimpl).

Section Loops.
Context {T : Type}.

(** A relation between worlds that every pass of the body respects is
    respected by the loop, however it ends. *)
Lemma for_range_rel (R : world T -> world T -> Prop) (body : M T control) :
  (∀ w, R w w) ->
  (∀ w1 w2 w3, R w1 w2 -> R w2 w3 -> R w1 w3) ->
  (∀ w r w', body w = (r, w') -> R w w') ->
  ∀ n w r w', for_range n body w = (r, w') -> R w w'.
Proof.
  intros Hrefl Htrans Hbody n.
  induction n as [|n IH]; intros w r w' Hrun; cbn in Hrun.
  - inversion Hrun; subst. apply Hrefl.
  - destruct (body w) as [[[|]|e] w1] eqn:Hb.
    + eapply Htrans; [eapply Hbody, Hb | eapply IH, Hrun].
    + inversion Hrun; subst. eapply Hbody, Hb.
    + inversion Hrun; subst. eapply Hbody, Hb.
Qed.

(** A loop without passes does nothing. *)
Lemma for_range_0 (body : M T control) (w : world T) :
  for_range 0 body w = (Ok tt, w).
Proof. reflexivity. Qed.

(** A loop whose body neither breaks nor raises, and whose returning passes
    each add one to a measure of the world, adds the number of its passes. *)
Lemma for_range_measure (mu : world T -> nat) (body : M T control) :
  (∀ w r w', body w = (r, w') ->
     r = Ok Continue ∧ mu w' = S (mu w) ∨ (∃ e, r = Raise e)) ->
  ∀ n w w', for_range n body w = (Ok tt, w') -> mu w' = n + mu w.
Proof.
  intros Hbody n.
  induction n as [|n IH]; intros w w' Hrun; cbn in Hrun.
  - by inversion Hrun.
  - destruct (body w) as [[[|]|e] w1] eqn:Hb.
    + apply Hbody in Hb as [[_ Hlen]|[e He]]; [|done].
      apply IH in Hrun. lia.
    + apply Hbody in Hb as [[? _]|[e He]]; done.
    + done.
Qed.

Lemma for_range_count (body : M T control) :
  (∀ w r w', body w = (r, w') ->
     r = Ok Continue ∧ length (trace w') = S (length (trace w)) ∨
     (∃ e, r = Raise e)) ->
  ∀ n w w', for_range n body w = (Ok tt, w') ->
    length (trace w') = n + length (trace w).
Proof. apply (for_range_measure (λ w, length (trace w))). Qed.


(** An invariant that every continuing pass keeps, for a body that never
    breaks. *)
Lemma for_range_invariant (Inv : world T -> Prop) (body : M T control) :
  (∀ w w', Inv w -> body w = (Ok Continue, w') -> Inv w') ->
  (∀ w w', body w ≠ (Ok Break, w')) ->
  ∀ n w w', Inv w -> for_range n body w = (Ok tt, w') -> Inv w'.
Proof.
  intros Hkeep Hnobreak n.
  induction n as [|n IH]; intros w w' Hinv Hrun; cbn in Hrun.
  - msimpl. by simplify_eq.
  - destruct (body w) as [[[|]|e] w1] eqn:Hb.
    + eapply IH; [|exact Hrun]. by eapply Hkeep.
    + by apply Hnobreak in Hb.
    + done.
Qed.

(** The exceptions of a loop are those of its passes. *)
Lemma for_range_raises (E : exn T -> Prop) (body : M T control) :
  (∀ w e w', body w = (Raise e, w') -> E e) ->
  ∀ n w e w', for_range n body w = (Raise e, w') -> E e.
Proof.
  intros Hbody n.
  induction n as [|n IH]; intros w e w' Hrun; cbn in Hrun; [done|].
  destruct (body w) as [[[|]|e1] w1] eqn:Hb.
  - by eapply IH.
  - done.
  - simplify_eq. by eapply Hbody.
Qed.

End Loops.

Lemma wframe_refl {T} `{Estimator T} (w : world T) : wframe w w.
Proof. by repeat split. Qed.

Lemma wframe_trans {T} `{Estimator T} (w1 w2 w3 : world T) :
  wframe w1 w2 -> wframe w2 w3 -> wframe w1 w3.
Proof.
  unfold wframe, frame. intros (?&?&?&?) (?&?&?&?).
  repeat split; congruence.
Qed.

(** *** The loops keep hyperparameters and the fitted flag *)

Lemma KMeans_iteration_frame X w r w' :
  KMeans.iteration X w = (r, w') -> wframe w w'.
Proof. unfold KMeans.iteration. intros Hrun. mcases; by repeat split. Qed.

Lemma KMeansPlus_seed_next_frame X w r w' :
  KMeansPlus.seed_next X w = (r, w') -> wframe w w'.
Proof. unfold KMeansPlus.seed_next. intros Hrun. mcases; by repeat split. Qed.

Lemma KMeansPlus_iteration_frame X w r w' :
  KMeansPlus.iteration X w = (r, w') -> wframe w w'.
Proof. unfold KMeansPlus.iteration. intros Hrun. mcases; by repeat split. Qed.

Lemma KMedians_iteration_frame X w r w' :
  KMedians.iteration X w = (r, w') -> wframe w w'.
Proof. unfold KMedians.iteration. intros Hrun. mcases; by repeat split. Qed.

Lemma MiniBatch_iteration_frame X w r w' :
  MiniBatch.iteration X w = (r, w') -> wframe w w'.
Proof. unfold MiniBatch.iteration. intros Hrun. mcases; by repeat split. Qed.

Lemma for_range_frame {T} `{Estimator T} (body : M T control) :
  (∀ w r w', body w = (r, w') -> wframe w w') ->
  ∀ n w r w', for_range n body w = (r, w') -> wframe w w'.
Proof.
  intros Hbody. apply for_range_rel; auto using wframe_refl.
  intros. eapply wframe_trans; eauto.
Qed.

(** *** The shape of a run of [fit] *)

Lemma KMeans_fit_eq X w :
  KMeans.fit X w =
  match choice_no_replace (shape0 X) (KMeans.n_clusters (self w)) (gen w) with
  | (Raise v, g') => (Raise (ValueError v), mkWorld (self w) g' (trace w))
  | (Ok idx, g') =>
      let s1 := KMeans.set_X X (KMeans.set_centroids (take_rows X idx) (self w)) in
      match for_range (Z.to_nat (KMeans.max_iter s1)) (KMeans.iteration X)
                      (mkWorld s1 g' (trace w)) with
      | (Ok _, w2) =>
          (Ok tt, mkWorld (KMeans.set_fitted true (self w2)) (gen w2) (trace w2))
      | (Raise e, w2) => (Raise e, w2)
      end
  end.
Proof.
  unfold KMeans.fit. msimpl.
  destruct (choice_no_replace _ _ _) as [[idx|v] g']; [|done].
  msimpl. by destruct (for_range _ _ _) as [[[]|e] w2].
Qed.

Lemma KMedians_fit_eq X w :
  KMedians.fit X w =
  let s0 := KMedians.set_X X (self w) in
  match choice_no_replace (shape0 X) (KMedians.n_clusters s0) (gen w) with
  | (Raise v, g') => (Raise (ValueError v), mkWorld s0 g' (trace w))
  | (Ok idx, g') =>
      let s1 := KMedians.set_medians (take_rows X idx) s0 in
      match for_range (Z.to_nat (KMedians.max_iter s1)) (KMedians.iteration X)
                      (mkWorld s1 g' (trace w)) with
      | (Ok _, w2) =>
          (Ok tt, mkWorld (KMedians.set_fitted true (self w2)) (gen w2) (trace w2))
      | (Raise e, w2) => (Raise e, w2)
      end
  end.
Proof.
  unfold KMedians.fit. msimpl.
  destruct (choice_no_replace _ _ _) as [[idx|v] g']; [|done].
  msimpl. by destruct (for_range _ _ _) as [[[]|e] w2].
Qed.

Lemma MiniBatch_fit_eq X w :
  MiniBatch.fit X w =
  let s0 := MiniBatch.set_X X (self w) in
  match choice_no_replace (shape0 X) (MiniBatch.n_clusters s0) (gen w) with
  | (Raise v, g') => (Raise (ValueError v), mkWorld s0 g' (trace w))
  | (Ok idx, g') =>
      let s1 := MiniBatch.set_centroids (take_rows X idx) s0 in
      match for_range (Z.to_nat (MiniBatch.max_iter s1)) (MiniBatch.iteration X)
                      (mkWorld s1 g' (trace w)) with
      | (Ok _, w2) =>
          (Ok tt, mkWorld (MiniBatch.set_fitted true (self w2)) (gen w2) (trace w2))
      | (Raise e, w2) => (Raise e, w2)
      end
  end.
Proof.
  unfold MiniBatch.fit. msimpl.
  destruct (choice_no_replace _ _ _) as [[idx|v] g']; [|done].
  msimpl. by destruct (for_range _ _ _) as [[[]|e] w2].
Qed.

Lemma KMeansPlus_initialize_eq X w :
  KMeansPlus._initialize_centroids X w =
  match choice_one (shape0 X) (gen w) with
  | (Raise v, g') => (Raise (ValueError v), mkWorld (self w) g' (trace w))
  | (Ok first, g') =>
      let s1 := KMeansPlus.set_centroids
                  (mkMatrix (ncols X) [KMeansPlus.row X first]) (self w) in
      for_range (Z.to_nat (KMeansPlus.n_clusters s1 - 1)) (KMeansPlus.seed_next X)
                (mkWorld s1 g' (trace w))
  end.
Proof.
  unfold KMeansPlus._initialize_centroids. msimpl.
  by destruct (choice_one _ _) as [[first|v] g'].
Qed.

Lemma KMeansPlus_fit_eq X w :
  KMeansPlus.fit X w =
  let s0 := KMeansPlus.set_X X (self w) in
  match KMeansPlus._initialize_centroids X (mkWorld s0 (gen w) (trace w)) with
  | (Raise e, w1) => (Raise e, w1)
  | (Ok _, w1) =>
      match for_range (Z.to_nat (KMeansPlus.max_iter (self w1)))
                      (KMeansPlus.iteration X) w1 with
      | (Ok _, w2) =>
          (Ok tt, mkWorld (KMeansPlus.set_fitted true (self w2)) (gen w2) (trace w2))
      | (Raise e, w2) => (Raise e, w2)
      end
  end.
Proof.
  unfold KMeansPlus.fit. msimpl.
  destruct (KMeansPlus._initialize_centroids _ _) as [[[]|e] w1]; [|done].
  msimpl. by destruct (for_range _ _ _) as [[[]|e] w2].
Qed.

Lemma KMeansPlus_initialize_frame X w r w' :
  KMeansPlus._initialize_centroids X w = (r, w') -> wframe w w'.
Proof.
  rewrite KMeansPlus_initialize_eq. intros Hrun.
  destruct (choice_one _ _) as [[first|v] g'].
  - eapply (for_range_frame _ (KMeansPlus_seed_next_frame X)) in Hrun.
    destruct Hrun as (?&?&?&?). by repeat split.
  - simplify_eq. by repeat split.
Qed.

(** *** A raising [fit] keeps the fitted flag; a returning one sets it *)

Lemma KMeans_fit_flag X w r w' :
  KMeans.fit X w = (r, w') -> fit_flag w r w'.
Proof.
  rewrite KMeans_fit_eq. intros Hrun.
  destruct (choice_no_replace _ _ _) as [[idx|v] g'].
  - cbv zeta in Hrun.
    destruct (for_range _ _ _) as [[[]|e] w2] eqn:Hloop; simplify_eq;
      eapply (for_range_frame _ (KMeans_iteration_frame X)) in Hloop;
      destruct Hloop as (?&?&?&?); by repeat split.
  - simplify_eq. by repeat split.
Qed.

Lemma KMedians_fit_flag X w r w' :
  KMedians.fit X w = (r, w') -> fit_flag w r w'.
Proof.
  rewrite KMedians_fit_eq. intros Hrun. cbv zeta in Hrun.
  destruct (choice_no_replace _ _ _) as [[idx|v] g'].
  - destruct (for_range _ _ _) as [[[]|e] w2] eqn:Hloop; simplify_eq;
      eapply (for_range_frame _ (KMedians_iteration_frame X)) in Hloop;
      destruct Hloop as (?&?&?&?); by repeat split.
  - simplify_eq. by repeat split.
Qed.

Lemma MiniBatch_fit_flag X w r w' :
  MiniBatch.fit X w = (r, w') -> fit_flag w r w'.
Proof.
  rewrite MiniBatch_fit_eq. intros Hrun. cbv zeta in Hrun.
  destruct (choice_no_replace _ _ _) as [[idx|v] g'].
  - destruct (for_range _ _ _) as [[[]|e] w2] eqn:Hloop; simplify_eq;
      eapply (for_range_frame _ (MiniBatch_iteration_frame X)) in Hloop;
      destruct Hloop as (?&?&?&?); by repeat split.
  - simplify_eq. by repeat split.
Qed.

Lemma KMeansPlus_fit_flag X w r w' :
  KMeansPlus.fit X w = (r, w') -> fit_flag w r w'.
Proof.
  rewrite KMeansPlus_fit_eq. intros Hrun. cbv zeta in Hrun.
  destruct (KMeansPlus._initialize_centroids _ _) as [[[]|e] w1] eqn:Hinit;
    apply KMeansPlus_initialize_frame in Hinit; destruct Hinit as (?&?&?&?).
  - destruct (for_range _ _ _) as [[[]|e] w2] eqn:Hloop; simplify_eq;
      eapply (for_range_frame _ (KMeansPlus_iteration_frame X)) in Hloop;
      destruct Hloop as (?&?&?&?); repeat split; cbn in *; congruence.
  - simplify_eq. by repeat split.
Qed.

Lemma fit_flag_variant (v : variant) X (w : world (instance v)) r w' :
  fit X w = (r, w') -> fit_flag w r w'.
Proof.
  destruct v; cbn.
  - apply KMeans_fit_flag.
  - apply KMeansPlus_fit_flag.
  - apply KMedians_fit_flag.
  - apply MiniBatch_fit_flag.
Qed.

(** *** The fitted gate *)

Lemma unfitted_raises (v : variant) (w : world (instance v)) X metric :
  fitted (self w) = false ->
  predict X w = (Raise (NotFittedError (self w)), w) ∧
  labels w = (Raise (NotFittedError (self w)), w) ∧
  score X metric w = (Raise (NotFittedError (self w)), w).
Proof.
  destruct v; cbn in *; intros Hf.
  - unfold KMeans.score, KMeans.labels, KMeans.predict. msimpl.
    destruct (KMeans._X (self w)); rewrite Hf; cbn; auto.
  - unfold KMeansPlus.score, KMeansPlus.labels, KMeansPlus.predict. msimpl.
    destruct (KMeansPlus._X (self w)); rewrite Hf; cbn; auto.
  - unfold KMedians.score, KMedians.labels, KMedians.predict. msimpl.
    destruct (KMedians._X (self w)); rewrite Hf; cbn; auto.
  - unfold MiniBatch.score, MiniBatch.labels, MiniBatch.predict. msimpl.
    destruct (MiniBatch._X (self w)); rewrite Hf; cbn; auto.
Qed.

(** [predict], [labels] and [score] assign nothing. *)
Lemma observers_pure (v : variant) (w : world (instance v)) X metric :
  snd (predict X w) = w ∧ snd (labels w) = w ∧ snd (score X metric w) = w.
Proof.
  destruct v; cbn in *.
  - unfold KMeans.score, KMeans.labels, KMeans.predict.
    repeat split; mcases; done.
  - unfold KMeansPlus.score, KMeansPlus.labels, KMeansPlus.predict.
    repeat split; mcases; done.
  - unfold KMedians.score, KMedians.labels, KMedians.predict.
    repeat split; mcases; done.
  - unfold MiniBatch.score, MiniBatch.labels, MiniBatch.predict.
    repeat split; mcases; done.
Qed.

(** [set_params] does not reset the fitted flag. *)
Lemma set_params_fitted (v : variant) (w : world (instance v)) p :
  fitted (self (snd (set_params p w))) = fitted (self w).
Proof.
  destruct v; cbn in *.
  - destruct p as [[k|] [m|]]; done.
  - destruct p as [[k|] [m|]]; done.
  - destruct p as [[k|] [m|]]; done.
  - destruct p as [[[k|] [b|]] [m|]]; done.
Qed.

Lemma new_unfitted (v : variant) (a : args) :
  fitted (new a : instance v) = false.
Proof. destruct v; cbn in *; by destruct a as [[? ?] ?]. Qed.

(** The flag is still false after a session in which no [fit] returned. *)
Lemma session_unfitted (v : variant) (cs : list (call (instance v))) :
  ∀ w, fitted (self w) = false -> no_fit_completed cs w = true ->
       fitted (self (run cs w)) = false.
Proof.
  induction cs as [|c cs IH]; intros w Hf Hno; [done|].
  cbn [no_fit_completed] in Hno. cbn [run foldl].
  destruct (exec c w) as [ok w1] eqn:Hexec.
  apply andb_prop in Hno as [Hc Hno].
  change (foldl _ (snd (ok, w1)) cs) with (run cs w1) in *.
  apply IH; [|done]. cbn [snd].
  destruct (observers_pure v w (mkMatrix 0 []) (λ _ _, NaN)) as (_&Hl&_).
  destruct c as [X|X| |X metric|p]; cbn [exec is_fit] in *.
  - destruct (fit X w) as [r w2] eqn:Hfit. simplify_eq.
    apply fit_flag_variant in Hfit as (_&_&Hflag).
    destruct r; cbn in *; [done|congruence].
  - pose proof (observers_pure v w X (λ _ _, NaN)) as (Hp&_&_).
    destruct (predict X w); cbn in *; simplify_eq. done.
  - destruct (labels w); cbn in *; simplify_eq. done.
  - pose proof (observers_pure v w X metric) as (_&_&Hs).
    destruct (score X metric w); cbn in *; simplify_eq. done.
  - pose proof (set_params_fitted v w p) as Hs.
    destruct (set_params p w); cbn in *; simplify_eq. congruence.
Qed.

(** C1.  For each of the four variants: on an instance that was constructed
    and then used in any way in which no [fit] has returned, [predict], the
    property [labels] and [score] raise [NotFittedError] carrying that very
    instance, and return nothing. *)
Theorem not_fitted_before_fit (v : variant) (a : args) (g : rng)
    (cs : list (call (instance v))) (X : Matrix) (metric : Evaluator) :
  no_fit_completed cs (mkWorld (new a) g []) = true ->
  let w := run cs (mkWorld (new a) g []) in
  predict X w = (Raise (NotFittedError (self w)), w) ∧
  labels w = (Raise (NotFittedError (self w)), w) ∧
  score X metric w = (Raise (NotFittedError (self w)), w).
Proof.
  intros Hno w. apply unfitted_raises.
  apply session_unfitted; [apply new_unfitted|done].
Qed.

(** A session on a K-Means instance: parameters are set, a [fit] with more
    clusters than rows raises, a [predict] raises. *)
Lemma not_fitted_before_fit_witness :
  let X := mkMatrix 1 [[Q_of 0]] in
  let cs : list (call KMeans.t) :=
    [@CallSetParams _ KMeans_estimator (Some 5%Z, None);
     CallFit X; CallPredict X] in
  let w := run cs (mkWorld (KMeans.init 2 10 false) [] []) in
  no_fit_completed cs (mkWorld (KMeans.init 2 10 false) [] []) = true ∧
  predict X w = (Raise (NotFittedError (self w)), w).
Proof.
  intros X cs w. split; [reflexivity|].
  apply (not_fitted_before_fit KMeansClustering (2%Z, 10%Z, false) [] cs X
           (λ _ _, NaN)).
  reflexivity.
Defined.

(** ** Loops with a convergence check (K-Means, K-Medians) *)

Section CheckedLoop.
Context {T : Type} `{Estimator T}.
Variable body : M T control.
Variable K : Z.
Variable step : Matrix -> Matrix -> Prop.

(** A pass raises before it changes anything, or notes the reference set it
    computed from the current one and then either breaks, keeping the old
    one, or installs the new one. *)
Hypothesis body_spec : ∀ w r w',
  n_clusters (self w) = K ->
  body w = (r, w') ->
  n_clusters (self w') = K ∧
  ((∃ e, r = Raise e ∧ w' = w) ∨
   (∃ new, trace w' = trace w ++ [(current w, new)] ∧
      step (current w) new ∧
      ((r = Ok Break ∧ all_eq (rows new) (rows (current w)) = true ∧
        reference_set (self w') = reference_set (self w)) ∨
       (r = Ok Continue ∧ all_eq (rows new) (rows (current w)) = false ∧
        reference_set (self w') = Some new)))).


End CheckedLoop.

Lemma KMeans_iteration_spec X K w r w' :
  n_clusters (self w) = K ->
  KMeans.iteration X w = (r, w') ->
  n_clusters (self w') = K ∧
  ((∃ e, r = Raise e ∧ w' = w) ∨
   (∃ new, trace w' = trace w ++ [(current w, new)] ∧
      recomputed KMeansClustering X K (current w) new ∧
      ((r = Ok Break ∧ all_eq (rows new) (rows (current w)) = true ∧
        reference_set (self w') = reference_set (self w)) ∨
       (r = Ok Continue ∧ all_eq (rows new) (rows (current w)) = false ∧
        reference_set (self w') = Some new)))).
Proof.
  unfold KMeans.iteration. intros <- Hrun. mcases.
  - split; [done|]. right. eexists. split; [reflexivity|].
    split; [by eexists|]. left. auto.
  - split; [done|]. right. eexists. split; [reflexivity|].
    split; [by eexists|]. right. auto.
  - split; [done|]. left. eauto.
Qed.

Lemma KMedians_iteration_spec X K w r w' :
  n_clusters (self w) = K ->
  KMedians.iteration X w = (r, w') ->
  n_clusters (self w') = K ∧
  ((∃ e, r = Raise e ∧ w' = w) ∨
   (∃ new, trace w' = trace w ++ [(current w, new)] ∧
      recomputed KMediansClustering X K (current w) new ∧
      ((r = Ok Break ∧ all_eq (rows new) (rows (current w)) = true ∧
        reference_set (self w') = reference_set (self w)) ∨
       (r = Ok Continue ∧ all_eq (rows new) (rows (current w)) = false ∧
        reference_set (self w') = Some new)))).
Proof.
  unfold KMedians.iteration. intros <- Hrun. mcases.
  - split; [done|]. right. eexists. split; [reflexivity|].
    split; [by eexists|]. left. auto.
  - split; [done|]. right. eexists. split; [reflexivity|].
    split; [by eexists|]. right. auto.
  - split; [done|]. left. eauto.
Qed.





(** ** Sampling without replacement *)

Lemma next_below_lt n g : 0 < n -> fst (next_below n g) < n.
Proof.
  intros Hn. destruct g as [|r g]; cbn; [done|].
  apply Nat.mod_upper_bound. lia.
Qed.

(** [k] draws out of a duplicate-free pool that has at least [k] members give
    [k] distinct members of the pool. *)
Lemma draw_distinct_spec k : ∀ pool g xs g',
  NoDup pool -> k ≤ length pool ->
  draw_distinct k pool g = (xs, g') ->
  length xs = k ∧ NoDup xs ∧ ∀ x, x ∈ xs -> x ∈ pool.
Proof.
  induction k as [|k IH]; intros pool g xs g' Hnd Hlen Hdraw; cbn in Hdraw.
  - simplify_eq. split_and!; [done|constructor|].
    intros x Hx. by apply elem_of_nil in Hx.
  - pose proof (next_below_lt (length pool) g) as Hlt.
    destruct (next_below (length pool) g) as [p g1]. cbn in Hlt.
    destruct (lookup_lt_is_Some_2 pool p) as [x Hx]; [lia|].
    rewrite Hx in Hdraw.
    destruct (draw_distinct k (delete p pool) g1) as [ys g2] eqn:Hrec.
    simplify_eq.
    apply IH in Hrec as (Hl&Hnd'&Hsub).
    + split_and!; [cbn; lia| |].
      * apply NoDup_cons. split; [|done].
        intros Hin. apply Hsub in Hin.
        rewrite <- (take_drop_middle pool p x Hx) in Hnd.
        rewrite delete_take_drop in Hin.
        apply NoDup_app in Hnd as (_&Hdisj&Hnd2).
        apply NoDup_cons in Hnd2 as [Hnotin _].
        apply elem_of_app in Hin as [Hin|Hin]; [|done].
        apply (Hdisj x Hin). by left.
      * intros y Hy. apply elem_of_cons in Hy as [->|Hy].
        -- by eapply list_elem_of_lookup_2.
        -- eapply list_elem_of_delete_inv, Hsub, Hy.
    + eapply sublist_NoDup; [done|apply sublist_delete].
    + rewrite length_delete; [lia|by eexists].
Qed.

(** Conversely, every arrangement of distinct members of the pool is drawn
    for some tape. *)
Lemma draw_distinct_any xs : ∀ pool,
  NoDup xs -> (∀ x, x ∈ xs -> x ∈ pool) ->
  ∃ g, draw_distinct (length xs) pool g = (xs, []).
Proof.
  induction xs as [|x xs IH]; intros pool Hnd Hsub; [by exists []|].
  apply NoDup_cons in Hnd as [Hx Hnd].
  destruct (list_elem_of_lookup_1 pool x) as [p Hp]; [apply Hsub; by left|].
  destruct (IH (delete p pool) Hnd) as [g Hg].
  { intros y Hy. assert (Hyx : y ≠ x) by (by intros ->).
    assert (Hin : y ∈ pool) by (apply Hsub; by right).
    rewrite <- (take_drop_middle pool p x Hp) in Hin.
    rewrite delete_take_drop.
    apply elem_of_app in Hin as [Hin|Hin]; [apply elem_of_app; by left|].
    apply elem_of_cons in Hin as [->|Hin]; [done|].
    apply elem_of_app. by right. }
  exists (p :: g). cbn.
  rewrite Nat.mod_small by (by eapply lookup_lt_Some).
  by rewrite Hp, Hg.
Qed.

(** A sample of [k] rows, [0 <= k <= a], is made of [k] distinct row
    indices. *)
Lemma choice_no_replace_ok a (k : Z) g :
  (0 <= k <= Z.of_nat a)%Z ->
  ∃ idx g', choice_no_replace a k g = (Ok idx, g') ∧
    length idx = Z.to_nat k ∧ NoDup idx ∧ ∀ i, i ∈ idx -> i < a.
Proof.
  intros Hk. unfold choice_no_replace.
  assert ((a =? 0) && negb (k =? 0)%Z = false) as ->.
  { destruct (Nat.eqb_spec a 0); [|done]. cbn.
    destruct (Z.eqb_spec k 0); [done|lia]. }
  destruct (Z.ltb_spec (Z.of_nat a) k); [lia|].
  destruct (Z.ltb_spec k 0); [lia|].
  destruct (draw_distinct _ _ _) as [idx g'] eqn:Hdraw.
  exists idx, g'. split; [done|].
  apply draw_distinct_spec in Hdraw as (?&?&Hsub).
  - split_and!; [done..|].
    intros i Hi. apply Hsub, elem_of_seq in Hi. lia.
  - apply NoDup_seq.
  - rewrite length_seq. lia.
Qed.

(** More clusters than rows: the sample is refused, and the tape is not
    read. *)
Lemma choice_no_replace_too_many a (k : Z) g :
  (Z.of_nat a < k)%Z ->
  ∃ v, choice_no_replace a k g = (Raise v, g) ∧ sampling_range_error v.
Proof.
  intros Hk. unfold choice_no_replace.
  destruct ((a =? 0) && negb (k =? 0)%Z).
  - exists EmptyPopulation. split; [done|by right].
  - destruct (Z.ltb_spec (Z.of_nat a) k); [|lia].
    exists LargerSampleThanPopulation. split; [done|by left].
Qed.

(** ** [fit] with no iteration allowed *)

(** C10.  K-Means, K-Medians and Mini-Batch K-Means on a matrix with at least
    [n_clusters] rows ([n_clusters] a count, so not negative) and with
    [max_iter <= 0]: [fit] returns without a single assignment/update
    iteration, the fitted flag is set, and the reference set is made of the
    [n_clusters] distinct rows drawn at the start. *)
Theorem fit_without_iterations (v : variant) (X : Matrix) (s : instance v)
    (g : rng) :
  v ≠ KMeansClusteringPlus ->
  (0 <= n_clusters s <= Z.of_nat (shape0 X))%Z ->
  (max_iter s <= 0)%Z ->
  ∃ idx g' w,
    choice_no_replace (shape0 X) (n_clusters s) g = (Ok idx, g') ∧
    length idx = Z.to_nat (n_clusters s) ∧ NoDup idx ∧
    (∀ i, i ∈ idx -> i < shape0 X) ∧
    fit X (mkWorld s g []) = (Ok tt, w) ∧
    trace w = [] ∧
    fitted (self w) = true ∧
    reference_set (self w) = Some (take_rows X idx).
Proof.
  intros Hv HK Hmax.
  destruct (choice_no_replace_ok (shape0 X) (n_clusters s) g HK)
    as (idx&g'&Hch&Hlen&Hnd&Hlt).
  exists idx, g'.
  assert (Z.to_nat (max_iter s) = 0) as H0 by lia.
  destruct v; cbn in *; [|done| |].
  - eexists. split_and!; [done..| | | |].
    + rewrite KMeans_fit_eq. cbn [self gen trace]. rewrite Hch. cbv zeta.
      cbn [KMeans.max_iter KMeans.set_X KMeans.set_centroids].
      rewrite H0. reflexivity.
    + done.
    + done.
    + done.
  - eexists. split_and!; [done..| | | |].
    + rewrite KMedians_fit_eq. cbn [self gen trace]. cbv zeta.
      cbn [KMedians.n_clusters KMedians.set_X]. rewrite Hch.
      cbn [KMedians.max_iter KMedians.set_medians KMedians.set_X].
      rewrite H0. reflexivity.
    + done.
    + done.
    + done.
  - eexists. split_and!; [done..| | | |].
    + rewrite MiniBatch_fit_eq. cbn [self gen trace]. cbv zeta.
      cbn [MiniBatch.n_clusters MiniBatch.set_X]. rewrite Hch.
      cbn [MiniBatch.max_iter MiniBatch.set_centroids MiniBatch.set_X].
      rewrite H0. reflexivity.
    + done.
    + done.
    + done.
Qed.

(** Mini-Batch K-Means on the four points, two clusters, no iteration. *)
Lemma fit_without_iterations_witness :
  ∃ idx g' w,
    choice_no_replace 4 2 [0; 1] = (Ok idx, g') ∧
    length idx = 2 ∧ NoDup idx ∧ (∀ i, i ∈ idx -> i < 4) ∧
    MiniBatch.fit four_points (mkWorld (MiniBatch.init 2 3 0) [0; 1] [])
      = (Ok tt, w) ∧
    trace w = [] ∧
    MiniBatch._fitted (self w) = true ∧
    MiniBatch.centroids (self w) = Some (take_rows four_points idx).
Proof.
  apply (fit_without_iterations MiniBatchKMeansClustering four_points
           (MiniBatch.init 2 3 0) [0; 1]).
  - discriminate.
  - vm_compute. split; discriminate.
  - vm_compute. discriminate.
Defined.

(** ** Loops without a convergence check (K-Means++, Mini-Batch K-Means) *)

Lemma MiniBatch_iteration_count X w r w' :
  MiniBatch.iteration X w = (r, w') ->
  r = Ok Continue ∧ length (trace w') = S (length (trace w)) ∨
  (∃ e, r = Raise e).
Proof.
  unfold MiniBatch.iteration. intros Hrun. mcases; eauto.
  left. split; [done|]. rewrite length_app. cbn. lia.
Qed.

Lemma KMeansPlus_iteration_count X w r w' :
  KMeansPlus.iteration X w = (r, w') ->
  r = Ok Continue ∧ length (trace w') = S (length (trace w)) ∨
  (∃ e, r = Raise e).
Proof.
  unfold KMeansPlus.iteration. intros Hrun. mcases; eauto.
  left. split; [done|]. rewrite length_app. cbn. lia.
Qed.

Lemma KMeansPlus_seed_next_trace X w r w' :
  KMeansPlus.seed_next X w = (r, w') -> trace w' = trace w.
Proof. unfold KMeansPlus.seed_next. intros Hrun. by mcases. Qed.

Lemma KMeansPlus_initialize_trace X w r w' :
  KMeansPlus._initialize_centroids X w = (r, w') -> trace w' = trace w.
Proof.
  rewrite KMeansPlus_initialize_eq. intros Hrun.
  destruct (choice_one _ _) as [[first|v] g']; [|by simplify_eq].
  cbv zeta in Hrun.
  eapply (for_range_rel (λ w w', trace w' = trace w)) in Hrun; [done|done|..].
  - intros ??? H1 H2. by rewrite H2, H1.
  - apply KMeansPlus_seed_next_trace.
Qed.

(** C4.  Mini-Batch K-Means: whenever [fit] returns, the assignment/update
    loop has executed exactly [max_iter] iterations (none for a [max_iter]
    that is not positive): there is no convergence check and no early
    stop. *)
Theorem minibatch_runs_full_budget (X : Matrix) (s : MiniBatch.t) (g : rng)
    (w : world MiniBatch.t) :
  MiniBatch.fit X (mkWorld s g []) = (Ok tt, w) ->
  length (trace w) = Z.to_nat (MiniBatch.max_iter s).
Proof.
  rewrite MiniBatch_fit_eq. cbn [self gen trace]. cbv zeta. intros Hrun.
  destruct (choice_no_replace _ _ _) as [[idx|v] g']; [|done].
  destruct (for_range _ _ _) as [[[]|e] w2] eqn:Hloop; [|done].
  simplify_eq.
  apply (for_range_count _ (MiniBatch_iteration_count X)) in Hloop.
  cbn in *. lia.
Qed.

(** Three iterations on the four points with batches of three: the second
    and the third iteration run whatever the first one gave. *)
Lemma minibatch_runs_full_budget_witness :
  let r := MiniBatch.fit four_points
             (mkWorld (MiniBatch.init 2 3 3) [0; 1; 3; 3; 1; 1] []) in
  fst r = Ok tt ∧ length (trace (snd r)) = 3.
Proof.
  intros r. split; [vm_compute; reflexivity|].
  apply (minibatch_runs_full_budget four_points (MiniBatch.init 2 3 3)
           [0; 1; 3; 3; 1; 1] (snd r)).
  vm_compute; reflexivity.
Defined.

(** C2, as stated, fails: K-Means++ on a single point with one cluster and
    three iterations allowed.  The first iteration already reproduces the
    reference set it started from, and two more iterations follow. *)
Lemma plus_convergence_check_counterexample :
  let r := KMeansPlus.fit one_point
             (mkWorld (KMeansPlus.init 1 3 false) [] []) in
  fst r = Ok tt ∧
  trace (snd r) !! 0 = Some (one_point, one_point) ∧
  all_eq (rows one_point) (rows one_point) = true ∧
  length (trace (snd r)) = 3 ∧
  ¬ (length (trace (snd r)) = 1).
Proof. vm_compute. split_and!; (reflexivity || discriminate). Qed.

(** C2, amended.  [KMeansClusteringPlus.fit] has no convergence check:
    whenever it returns, its loop has executed exactly [max_iter] iterations,
    and the fitted flag is set. *)
Theorem plus_runs_full_budget (X : Matrix) (s : KMeansPlus.t) (g : rng)
    (w : world KMeansPlus.t) :
  KMeansPlus.fit X (mkWorld s g []) = (Ok tt, w) ->
  length (trace w) = Z.to_nat (KMeansPlus.max_iter s) ∧
  KMeansPlus._fitted (self w) = true.
Proof.
  intros Hrun. split; [|by apply KMeansPlus_fit_flag in Hrun as (_&_&?)].
  rewrite KMeansPlus_fit_eq in Hrun. cbn [self gen trace] in Hrun.
  cbv zeta in Hrun.
  destruct (KMeansPlus._initialize_centroids _ _) as [[[]|e] w1] eqn:Hinit;
    [|done].
  destruct (for_range _ _ _) as [[[]|e] w2] eqn:Hloop; [|done].
  simplify_eq.
  apply (for_range_count _ (KMeansPlus_iteration_count X)) in Hloop.
  pose proof (KMeansPlus_initialize_trace _ _ _ _ Hinit) as Htr.
  apply KMeansPlus_initialize_frame in Hinit as (_&Hmax&_&_).
  cbn in *. rewrite Htr in Hloop. rewrite Hmax in Hloop. cbn in Hloop. lia.
Qed.

Lemma plus_runs_full_budget_witness :
  let r := KMeansPlus.fit four_points
             (mkWorld (KMeansPlus.init 2 3 false) [0; 1] []) in
  length (trace (snd r)) = 3 ∧ KMeansPlus._fitted (self (snd r)) = true.
Proof.
  intros r.
  apply (plus_runs_full_budget four_points (KMeansPlus.init 2 3 false) [0; 1]).
  vm_compute; reflexivity.
Defined.

(** ** The update step in place *)

Section InPlace.
Variable value : nat -> option (list num).
Variable step : list (list num) -> nat -> list (list num).
Hypothesis step_eq : ∀ c i,
  step c i = match value i with Some v => <[i:=v]> c | None => c end.

Lemma foldl_step_length (c : list (list num)) a n :
  length (foldl step c (seq a n)) = length c.
Proof.
  revert c a. induction n as [|n IH]; intros c a; cbn; [done|].
  rewrite IH, step_eq. destruct (value a); [apply length_insert|done].
Qed.

(** Passing over the cluster indices [a, a+n) touches row [i] only at the
    pass for [i]. *)
Lemma foldl_step_lookup (c : list (list num)) a n i :
  foldl step c (seq a n) !! i =
  if decide (a ≤ i < a + n)
  then match value i with
       | Some v => if decide (i < length c) then Some v else None
       | None => c !! i
       end
  else c !! i.
Proof.
  revert c a. induction n as [|n IH]; intros c a; cbn.
  - case_decide; [lia|done].
  - rewrite IH, step_eq.
    assert (Hlen : length (match value a with
                           | Some v => <[a:=v]> c | None => c end) = length c)
      by (destruct (value a); [apply length_insert|done]).
    rewrite Hlen.
    destruct (decide (i = a)) as [->|Hne].
    + rewrite decide_False by lia. rewrite decide_True by lia.
      destruct (value a) as [v|]; [|done].
      case_decide.
      * by apply list_lookup_insert_eq.
      * apply lookup_ge_None. rewrite length_insert. lia.
    + destruct (value a) as [v|].
      * rewrite list_lookup_insert_ne by done.
        repeat case_decide; try lia; done.
      * repeat case_decide; try lia; done.
Qed.

End InPlace.

Lemma KMeansPlus_update_cluster_eq X labels c i :
  KMeansPlus.update_cluster X labels c i =
  match cluster_value X labels i with Some v => <[i:=v]> c | None => c end.
Proof.
  unfold KMeansPlus.update_cluster, cluster_value.
  by destruct (select (rows X) labels i).
Qed.

Lemma MiniBatch_update_cluster_eq X labels c i :
  MiniBatch.update_cluster X labels c i =
  match cluster_value X labels i with Some v => <[i:=v]> c | None => c end.
Proof.
  unfold MiniBatch.update_cluster, cluster_value.
  by destruct (select (rows X) labels i).
Qed.

Lemma KMeansPlus_update_updated K X labels c :
  updated K X labels c (KMeansPlus.update X K labels c).
Proof.
  unfold updated, KMeansPlus.update, shape0. cbn [ncols rows].
  split_and!; [done| |].
  - apply (foldl_step_length _ _ (KMeansPlus_update_cluster_eq X labels)).
  - intros i Hi.
    rewrite (foldl_step_lookup _ _ (KMeansPlus_update_cluster_eq X labels)).
    rewrite decide_True by lia. unfold cluster_value.
    destruct (select (rows X) labels i) eqn:Hsel; cbn; [done|].
    split; [done|]. intros _ Hlt. by rewrite decide_True.
Qed.

Lemma MiniBatch_update_updated K X labels c :
  updated K X labels c (MiniBatch.update X K labels c).
Proof.
  unfold updated, MiniBatch.update, shape0. cbn [ncols rows].
  split_and!; [done| |].
  - apply (foldl_step_length _ _ (MiniBatch_update_cluster_eq X labels)).
  - intros i Hi.
    rewrite (foldl_step_lookup _ _ (MiniBatch_update_cluster_eq X labels)).
    rewrite decide_True by lia. unfold cluster_value.
    destruct (select (rows X) labels i) eqn:Hsel; cbn; [done|].
    split; [done|]. intros _ Hlt. by rewrite decide_True.
Qed.

Lemma choice_no_replace_inv a (k : Z) g idx g' :
  choice_no_replace a k g = (Ok idx, g') ->
  (0 <= k <= Z.of_nat a)%Z ∧
  length idx = Z.to_nat k ∧ NoDup idx ∧ ∀ i, i ∈ idx -> i < a.
Proof.
  intros Hch.
  assert (Hk : (0 <= k <= Z.of_nat a)%Z).
  { unfold choice_no_replace in Hch.
    destruct ((a =? 0) && negb (k =? 0)%Z); [done|].
    destruct (Z.ltb_spec (Z.of_nat a) k); [done|].
    destruct (Z.ltb_spec k 0); [done|]. lia. }
  split; [done|].
  destruct (choice_no_replace_ok a k g Hk) as (idx'&g''&Hch'&?&?&?).
  rewrite Hch in Hch'. by simplify_eq.
Qed.

Lemma KMeansPlus_iteration_eq X w :
  KMeansPlus.iteration X w =
  let c := KMeansPlus.the_centroids (self w) in
  match nearest norm2 X c with
  | Raise v => (Raise (ValueError v), w)
  | Ok labels =>
      let c' := KMeansPlus.update X (KMeansPlus.n_clusters (self w)) labels c in
      let w1 := mkWorld (KMeansPlus.set_centroids c' (self w)) (gen w)
                        (trace w ++ [(c, c')]) in
      if KMeansPlus.verbose (self w) && (KMeansPlus.n_clusters (self w) <=? 0)%Z
      then (Raise UnboundLocalError, w1)
      else (Ok Continue, w1)
  end.
Proof.
  unfold KMeansPlus.iteration. msimpl.
  destruct (nearest _ _ _); [|done]. cbn.
  by destruct (_ && _).
Qed.

Lemma MiniBatch_iteration_eq X w :
  MiniBatch.iteration X w =
  match choice_no_replace (shape0 X) (MiniBatch.batch_size (self w)) (gen w) with
  | (Raise v, g') => (Raise (ValueError v), mkWorld (self w) g' (trace w))
  | (Ok batch_idx, g') =>
      let batch := take_rows X batch_idx in
      let c := MiniBatch.the_centroids (self w) in
      match nearest norm2 batch c with
      | Raise v => (Raise (ValueError v), mkWorld (self w) g' (trace w))
      | Ok labels =>
          let c' := MiniBatch.update batch (MiniBatch.n_clusters (self w)) labels c in
          (Ok Continue,
           mkWorld (MiniBatch.set_centroids c' (self w)) g' (trace w ++ [(c, c')]))
      end
  end.
Proof.
  unfold MiniBatch.iteration. msimpl.
  destruct (choice_no_replace _ _ _) as [[idx|v] g']; [|done]. msimpl.
  by destruct (nearest _ _ _).
Qed.



Lemma KMeansPlus_seed_next_rows X w r w' :
  KMeansPlus.seed_next X w = (r, w') ->
  r = Ok Continue ∧
  shape0 (KMeansPlus.the_centroids (self w')) =
    S (shape0 (KMeansPlus.the_centroids (self w))) ∨
  (∃ e, r = Raise e).
Proof.
  unfold KMeansPlus.seed_next. intros Hrun. mcases; eauto.
  left. split; [done|]. unfold shape0. cbn. rewrite length_app. cbn. lia.
Qed.

(** A seeding that returns leaves [max 1 n_clusters] reference points. *)
Lemma KMeansPlus_initialize_rows X w w' :
  KMeansPlus._initialize_centroids X w = (Ok tt, w') ->
  shape0 (KMeansPlus.the_centroids (self w')) =
    S (Z.to_nat (KMeansPlus.n_clusters (self w) - 1)).
Proof.
  rewrite KMeansPlus_initialize_eq.
  destruct (choice_one _ _) as [[first|v] g']; [|done]. cbv zeta. intros Hrun.
  apply (for_range_measure
           (λ w, shape0 (KMeansPlus.the_centroids (self w)))
           _ (KMeansPlus_seed_next_rows X)) in Hrun.
  rewrite Hrun. cbn. lia.
Qed.





(** ** Labels *)

Lemma nge_Fin x y : nge (Fin x) (Fin y) = true <-> (y <= x)%Q.
Proof. cbn. apply Qle_bool_iff. Qed.

Lemma nlt_Fin x y : nlt (Fin x) (Fin y) = true <-> (x < y)%Q.
Proof.
  cbn. rewrite andb_true_iff, negb_true_iff, Qle_bool_iff.
  rewrite <- not_true_iff_false, Qeq_bool_iff. split.
  - intros [Hle Hne]. apply Qle_lteq in Hle as [?|?]; [done|contradiction].
  - intros Hlt. split; [by apply Qlt_le_weak|]. intros Heq.
    rewrite Heq in Hlt. by apply Qlt_irrefl in Hlt.
Qed.

Lemma argmin_scan_bound l : ∀ mp mi i,
  mi < i -> argmin_scan mp mi i l < i + length l.
Proof.
  induction l as [|ip l IH]; intros mp mi i Hmi; cbn; [lia|].
  destruct (negb (nge ip mp)).
  - destruct (is_nan ip); [lia|]. specialize (IH ip i (S i)). lia.
  - specialize (IH mp mi (S i)). lia.
Qed.

(** The position [argmin] returns is a position of the row. *)
Lemma argmin_lt l : l ≠ [] -> argmin l < length l.
Proof.
  destruct l as [|mp l]; [done|]. intros _. cbn.
  destruct (is_nan mp); [lia|].
  pose proof (argmin_scan_bound l mp 0 1). lia.
Qed.

Lemma argmin_scan_least l : ∀ pre mp mi,
  pre !! mi = Some (Fin mp) ->
  (∀ j dj, pre !! j = Some dj -> nge dj (Fin mp) = true) ->
  (∀ j dj, j < mi -> pre !! j = Some dj -> nlt (Fin mp) dj = true) ->
  Forall finite l ->
  lowest_nearest (pre ++ l) (argmin_scan (Fin mp) mi (length pre) l).
Proof.
  induction l as [|ip l IH]; intros pre mp mi Hmi Hle Hlt Hfin; cbn.
  - rewrite app_nil_r. by exists (Fin mp).
  - apply Forall_cons in Hfin as [Hip Hfin].
    destruct ip as [ip|]; [|done]. cbn [is_nan].
    replace (pre ++ Fin ip :: l) with ((pre ++ [Fin ip]) ++ l)
      by (by rewrite <- app_assoc).
    replace (S (length pre)) with (length (pre ++ [Fin ip]))
      by (rewrite length_app; cbn; lia).
    destruct (nge (Fin ip) (Fin mp)) eqn:Hge; cbn [negb].
    + apply IH; [|  | |done].
      * by apply lookup_app_l_Some.
      * intros j dj Hj. apply lookup_app_Some in Hj as [Hj|[_ Hj]]; [eauto|].
        apply list_lookup_singleton_Some in Hj as [_ <-]. done.
      * intros j dj Hjm Hj. apply lookup_app_Some in Hj as [Hj|[Hge' _]]; [eauto|].
        apply lookup_lt_Some in Hmi. lia.
    + assert (Hnew : (ip < mp)%Q).
      { apply Qnot_le_lt. intros Hc. apply nge_Fin in Hc. congruence. }
      rewrite length_app. cbn [length]. rewrite Nat.add_1_r.
      replace (S (length pre)) with (length (pre ++ [Fin ip]))
        by (rewrite length_app; cbn; lia).
      replace (length pre) with (length pre + 0) at 1 by lia.
      assert (Hpre : ∀ j dj, pre !! j = Some dj -> nlt (Fin ip) dj = true).
      { intros j dj Hj. specialize (Hle j dj Hj).
        destruct dj as [dj|]; [|done].
        apply nlt_Fin. apply nge_Fin in Hle.
        by eapply Qlt_le_trans. }
      apply IH; [| | |done].
      * rewrite lookup_app_r by lia.
        by replace (length pre + 0 - length pre) with 0 by lia.
      * intros j dj Hj. apply lookup_app_Some in Hj as [Hj|[_ Hj]].
        -- specialize (Hpre j dj Hj). destruct dj as [dj|]; [|done].
           apply nge_Fin. apply nlt_Fin in Hpre. by apply Qlt_le_weak.
        -- apply list_lookup_singleton_Some in Hj as [_ <-].
           apply nge_Fin. apply Qle_refl.
      * intros j dj Hjm Hj. apply lookup_app_Some in Hj as [Hj|[Hge' _]]; [eauto|].
        lia.
Qed.

(** On a row without NaN, [argmin] is the lowest position of a least
    entry. *)
Lemma argmin_least l :
  l ≠ [] -> Forall finite l -> lowest_nearest l (argmin l).
Proof.
  destruct l as [|mp l]; [done|]. intros _ Hfin.
  apply Forall_cons in Hfin as [Hmp Hfin].
  destruct mp as [mp|]; [|done]. cbn [argmin is_nan].
  apply (argmin_scan_least l [Fin mp] mp 0); [done| | |done].
  - intros j dj Hj. apply list_lookup_singleton_Some in Hj as [_ <-].
    apply nge_Fin, Qle_refl.
  - intros j dj Hj. lia.
Qed.

Lemma argmin_scan_first_nan l : ∀ mp mi i k,
  l !! k = Some NaN ->
  (∀ j dj, j < k -> l !! j = Some dj -> finite dj) ->
  argmin_scan mp mi i l = i + k.
Proof.
  induction l as [|ip l IH]; intros mp mi i k Hk Hbefore; [done|].
  destruct k as [|k]; cbn in Hk |- *.
  - simplify_eq. cbn. lia.
  - assert (Hip : finite ip) by (apply (Hbefore 0); [lia|done]).
    unfold finite in Hip. rewrite Hip.
    assert (Hrec : ∀ j dj, j < k -> l !! j = Some dj -> finite dj).
    { intros j dj Hj Hl. apply (Hbefore (S j)); [lia|done]. }
    destruct (negb (nge ip mp)); rewrite (IH _ _ _ k Hk Hrec); lia.
Qed.

(** On a row with a NaN, [argmin] is the position of the first NaN. *)
Lemma argmin_first_nan l k :
  l !! k = Some NaN ->
  (∀ j dj, j < k -> l !! j = Some dj -> finite dj) ->
  argmin l = k.
Proof.
  destruct l as [|mp l]; [done|]. intros Hk Hbefore.
  destruct k as [|k]; cbn in Hk |- *.
  - by simplify_eq.
  - assert (Hmp : finite mp) by (apply (Hbefore 0); [lia|done]).
    unfold finite in Hmp. rewrite Hmp.
    apply (argmin_scan_first_nan l mp 0 1 k Hk).
    intros j dj Hj Hl. apply (Hbefore (S j)); [lia|done].
Qed.

Lemma nearest_spec f X C ls :
  nearest f X C = Ok ls ->
  0 < shape0 C ∧ length ls = shape0 X ∧
  ∀ n l, ls !! n = Some l ->
    ∃ x, rows X !! n = Some x ∧ l = argmin (distance_row f x C) ∧
         l < shape0 C.
Proof.
  unfold nearest, pairwise, argmin_axis1.
  destruct (broadcastable _ _); [|done].
  destruct (Nat.eqb_spec (shape0 C) 0) as [|Hne]; [done|].
  intros [= <-]. split_and!; [lia|by rewrite !length_fmap|].
  intros n l Hl. rewrite <- list_fmap_compose in Hl.
  apply list_lookup_fmap_Some_1 in Hl as (x&->&Hx). cbn.
  exists x. split_and!; [done..|].
  fold (distance_row f x C).
  assert (Hlen : length (distance_row f x C) = shape0 C)
    by (unfold distance_row; by rewrite length_fmap).
  rewrite <- Hlen. apply argmin_lt.
  intros Hnil. rewrite Hnil in Hlen. cbn in Hlen. lia.
Qed.

Lemma predict_fitted (v : variant) (w : world (instance v)) X C :
  fitted (self w) = true -> reference_set (self w) = Some C ->
  predict X w =
  (match nearest (norm (T := instance v)) X C with
   | Ok ls => Ok ls
   | Raise e => Raise (ValueError e)
   end, w).
Proof.
  destruct v; cbn in *; intros Hf HC.
  - unfold KMeans.predict. msimpl. rewrite Hf. cbn.
    unfold KMeans.the_centroids. rewrite HC. cbn. by destruct (nearest _ _ _).
  - unfold KMeansPlus.predict. msimpl. rewrite Hf. cbn.
    unfold KMeansPlus.the_centroids. rewrite HC. cbn. by destruct (nearest _ _ _).
  - unfold KMedians.predict. msimpl. rewrite Hf. cbn.
    unfold KMedians.the_medians. rewrite HC. cbn. by destruct (nearest _ _ _).
  - unfold MiniBatch.predict. msimpl. rewrite Hf. cbn.
    unfold MiniBatch.the_centroids. rewrite HC. cbn. by destruct (nearest _ _ _).
Qed.


(** [labels] is [predict] on the training set, and the labels [score] passes
    to its evaluator are those of [predict]. *)
Lemma observers_via_predict (v : variant) (w : world (instance v)) X metric :
  (training_set (self w) = Some X -> labels w = predict X w) ∧
  score X metric w =
    (match fst (predict X w) with
     | Ok ls => Ok (metric X ls)
     | Raise e => Raise e
     end, snd (predict X w)).
Proof.
  destruct v; cbn in *.
  - split; [unfold KMeans.labels; msimpl; by intros ->|].
    unfold KMeans.score. msimpl. by destruct (KMeans.predict X w) as [[]].
  - split; [unfold KMeansPlus.labels; msimpl; by intros ->|].
    unfold KMeansPlus.score. msimpl.
    by destruct (KMeansPlus.predict X w) as [[]].
  - split; [unfold KMedians.labels; msimpl; by intros ->|].
    unfold KMedians.score. msimpl. by destruct (KMedians.predict X w) as [[]].
  - split; [unfold MiniBatch.labels; msimpl; by intros ->|].
    unfold MiniBatch.score. msimpl. by destruct (MiniBatch.predict X w) as [[]].
Qed.



(** ** Sums, norms and Python's [min] *)

Lemma foldl_nadd_NaN l : foldl nadd NaN l = NaN.
Proof. induction l as [|a l IH]; [done|]. cbn. exact IH. Qed.

Lemma foldl_nadd_finite l : ∀ acc q,
  foldl nadd acc l = Fin q -> finite acc ∧ Forall finite l.
Proof.
  induction l as [|a l IH]; intros acc q Hsum; cbn in Hsum.
  - subst. split; [done|constructor].
  - apply IH in Hsum as [Hacc Hl].
    destruct acc as [x|], a as [y|]; try done.
    split; [done|]. by constructor.
Qed.

(** A sum that is a number has only numbers as terms. *)
Lemma nsum_finite l q : nsum l = Fin q -> Forall finite l.
Proof. intros Hsum. by apply foldl_nadd_finite in Hsum as [_ ?]. Qed.

Lemma foldl_nadd_nonneg l : ∀ acc,
  nonneg acc -> Forall nonneg l -> nonneg (foldl nadd acc l).
Proof.
  induction l as [|a l IH]; intros acc Hacc Hl; cbn; [done|].
  apply Forall_cons in Hl as [Ha Hl]. apply IH; [|done].
  destruct acc as [x|], a as [y|]; cbn in *; try done. lra.
Qed.

Lemma foldl_nadd_zero l : ∀ acc,
  zero acc -> Forall zero l -> zero (foldl nadd acc l).
Proof.
  induction l as [|a l IH]; intros acc Hacc Hl; cbn; [done|].
  apply Forall_cons in Hl as [Ha Hl]. apply IH; [|done].
  destruct acc as [x|], a as [y|]; cbn in *; try done. lra.
Qed.

Lemma norm2_nonneg v : nonneg (norm2 v).
Proof.
  unfold norm2, nsum. apply foldl_nadd_nonneg; [cbn; lra|].
  apply Forall_fmap, Forall_forall. intros [a|] _; cbn; [nra|done].
Qed.

(** A squared norm that is a number is the norm of a vector of numbers. *)
Lemma norm2_finite v q : norm2 v = Fin q -> Forall finite v.
Proof.
  unfold norm2. intros Hsum. apply nsum_finite in Hsum.
  rewrite Forall_fmap in Hsum. eapply Forall_impl; [exact Hsum|].
  by intros [a|].
Qed.

(** The squared distance of a point of numbers to itself is zero. *)
Lemma norm2_self x : Forall finite x -> zero (norm2 (zip_with nsub x x)).
Proof.
  intros Hx. unfold norm2, nsum. apply foldl_nadd_zero; [cbn; lra|].
  apply Forall_fmap. induction Hx as [|a x Ha Hx IH]; [constructor|].
  cbn. constructor; [|done].
  destruct a as [a|]; [|done]. cbn. ring.
Qed.

Lemma zip_with_nsub_finite x c :
  length x = length c -> Forall finite (zip_with nsub x c) -> Forall finite x.
Proof.
  revert c. induction x as [|a x IH]; intros c Hlen Hz; [constructor|].
  destruct c as [|b c]; [done|]. cbn in *.
  apply Forall_cons in Hz as [Hab Hz]. constructor; [|eauto].
  by destruct a.
Qed.

Lemma py_min_from_NaN l : py_min_from NaN l = NaN.
Proof.
  induction l as [|a l IH]; [done|]. cbn.
  replace (nlt a NaN) with false by (by destruct a). done.
Qed.

Lemma py_min_from_snoc l : ∀ m v,
  py_min_from m (l ++ [v]) =
  if nlt v (py_min_from m l) then v else py_min_from m l.
Proof. induction l as [|a l IH]; intros m v; cbn; [done|]. apply IH. Qed.

(** [min] of a list extended at its end. *)
Lemma py_min_snoc l v :
  l ≠ [] ->
  py_min (l ++ [v]) = if nlt v (py_min l) then v else py_min l.
Proof.
  destruct l as [|a l]; [done|]. intros _. cbn. apply py_min_from_snoc.
Qed.

(** A [min] that is a number starts from a number. *)
Lemma py_min_finite_head a l q : py_min (a :: l) = Fin q -> finite a.
Proof.
  destruct a as [a|]; [done|]. cbn. by rewrite py_min_from_NaN.
Qed.

Lemma py_min_from_nonneg l : ∀ m,
  nonneg m -> Forall nonneg l -> nonneg (py_min_from m l).
Proof.
  induction l as [|a l IH]; intros m Hm Hl; cbn; [done|].
  apply Forall_cons in Hl as [Ha Hl]. apply IH; [|done].
  by destruct (nlt a m).
Qed.

Lemma py_min_nonneg l : Forall nonneg l -> nonneg (py_min l).
Proof.
  destruct l as [|a l]; [done|]. intros Hl.
  apply Forall_cons in Hl as [Ha Hl]. by apply py_min_from_nonneg.
Qed.

(** ** Seeding of K-Means++ *)

Lemma positive_Fin q : is_positive (Fin q) = true <-> (0 < q)%Q.
Proof. apply nlt_Fin. Qed.

(** A weighted draw that returns gives an index of positive probability. *)
Lemma choice_weighted_ok a p g r g' :
  choice_weighted a p g = (Ok r, g') ->
  r < a ∧ ∃ pr, p !! r = Some pr ∧ is_positive pr = true.
Proof.
  unfold choice_weighted.
  destruct (a =? 0); [done|].
  destruct (Nat.eqb_spec (length p) a) as [Hlen|]; [|done]. cbn [negb].
  destruct (is_nan (nsum p)) eqn:Hnan; [done|].
  destruct (existsb _ p) eqn:Hneg; [done|].
  destruct (neq (nsum p) (Fin 1)) eqn:Hsum; [|done]. cbn [negb].
  remember (filter _ (seq 0 a)) as support eqn:Hsupp.
  pose proof (next_below_lt (length support) g) as Hk.
  destruct (next_below _ g) as [k g1]. intros [= <- <-]. cbn in Hk.
  destruct (decide (support = [])) as [Hnil|Hne].
  - exfalso. rewrite Hnil in Hsupp. symmetry in Hsupp.
    destruct (nsum p) as [s|] eqn:Hs; [|done].
    assert (Hzero : zero (nsum p)).
    { apply foldl_nadd_zero; [cbn; lra|].
      apply Forall_lookup. intros i x Hx.
      pose proof (nsum_finite _ _ Hs) as Hfin.
      rewrite Forall_lookup in Hfin. specialize (Hfin i x Hx).
      destruct x as [x|]; [|done]. cbn.
      assert (Hnotneg : nlt (Fin x) nzero = false).
      { apply not_true_iff_false. intros Hc.
        apply not_true_iff_false in Hneg. apply Hneg.
        apply existsb_exists. exists (Fin x). split; [|done].
        apply list_elem_of_In. by eapply list_elem_of_lookup_2. }
      assert (Hnotpos : nlt nzero (Fin x) ≠ true).
      { intros Hc. apply (filter_nil_not_elem_of _ _ i Hsupp).
        - by rewrite Hx.
        - apply elem_of_seq. apply lookup_lt_Some in Hx. lia. }
      apply not_true_iff_false in Hnotneg.
      unfold nzero in *. rewrite nlt_Fin in Hnotneg, Hnotpos. lra. }
    rewrite Hs in Hzero. cbn in Hzero, Hsum.
    apply Qeq_bool_iff in Hsum. lra.
  - destruct (lookup_lt_is_Some_2 support k) as [r Hr].
    { destruct support; [done|]. cbn in *. lia. }
    rewrite Hr. cbn.
    apply list_elem_of_lookup_2 in Hr. subst support.
    apply list_elem_of_filter in Hr as [Hpos Hr].
    apply elem_of_seq in Hr. split; [lia|].
    destruct (p !! r) as [pr|]; [|done]. by exists pr.
Qed.

Lemma seed_distances_lookup X c i xi :
  rows X !! i = Some xi ->
  KMeansPlus.seed_distances X c !! i =
    Some (py_min ((λ c, norm2 (zip_with nsub xi c)) <$> rows c)).
Proof.
  intros Hx. unfold KMeansPlus.seed_distances. by rewrite list_lookup_fmap, Hx.
Qed.

(** The seeding distance of row [i] after one more centroid [x]. *)
Lemma seed_distances_snoc X D c x i xi :
  rows c ≠ [] -> rows X !! i = Some xi ->
  KMeansPlus.seed_distances X (mkMatrix D (rows c ++ [x])) !! i =
    Some (let m := py_min ((λ c, norm2 (zip_with nsub xi c)) <$> rows c) in
          let v := norm2 (zip_with nsub xi x) in
          if nlt v m then v else m).
Proof.
  intros Hc Hx. rewrite (seed_distances_lookup _ _ _ _ Hx). cbn [rows].
  rewrite fmap_app. cbn. rewrite py_min_snoc; [done|].
  by destruct (rows c).
Qed.

Lemma seed_distances_nonneg X c :
  Forall nonneg (KMeansPlus.seed_distances X c).
Proof.
  unfold KMeansPlus.seed_distances. apply Forall_fmap, Forall_forall. intros x _. cbn.
  apply py_min_nonneg, Forall_fmap, Forall_forall. intros y _. cbn.
  apply norm2_nonneg.
Qed.

(** A positive probability comes from a positive distance. *)
Lemma seed_probs_positive d r pr :
  Forall nonneg d ->
  KMeansPlus.seed_probs d !! r = Some pr -> is_positive pr = true ->
  ∃ dr, d !! r = Some dr ∧ is_positive dr = true.
Proof.
  intros Hnn Hp Hpos. unfold KMeansPlus.seed_probs in Hp.
  apply list_lookup_fmap_Some_1 in Hp as (dr&->&Hd).
  exists dr. split; [done|].
  rewrite Forall_lookup in Hnn. specialize (Hnn r dr Hd).
  destruct dr as [x|]; [|done]. destruct (nsum d) as [y|]; [|done].
  cbn in Hpos, Hnn. destruct (Qeq_bool y 0) eqn:Hy; [done|].
  apply positive_Fin in Hpos. apply positive_Fin.
  destruct (Qlt_le_dec 0 x) as [|Hle]; [done|].
  assert (Hx0 : (x == 0)%Q) by lra.
  rewrite Hx0 in Hpos. unfold Qdiv in Hpos. rewrite Qmult_0_l in Hpos. lra.
Qed.

Lemma norm2_self_not_positive x :
  is_positive (norm2 (zip_with nsub x x)) = false.
Proof.
  destruct (norm2 (zip_with nsub x x)) as [q|] eqn:Hn; [|done].
  pose proof (norm2_finite _ _ Hn) as Hfin.
  apply zip_with_nsub_finite in Hfin; [|done].
  apply norm2_self in Hfin. rewrite Hn in Hfin. cbn in Hfin.
  apply not_true_iff_false. rewrite positive_Fin. lra.
Qed.

(** Taking the smaller of a distance and a new one never makes a distance
    positive that was not. *)
Lemma min_step_not_positive v m :
  is_positive m = false -> is_positive (if nlt v m then v else m) = false.
Proof.
  intros Hm. destruct (nlt v m) eqn:Hlt; [|done].
  destruct v as [v|], m as [m|]; try done.
  apply not_true_iff_false. apply not_true_iff_false in Hm.
  rewrite positive_Fin in *. apply nlt_Fin in Hlt. lra.
Qed.

Lemma seeded_bound X w :
  seeded X w -> shape0 (KMeansPlus.the_centroids (self w)) ≤ shape0 X.
Proof.
  intros (_&_&chosen&Hnd&Hlen&Hin). rewrite <- Hlen.
  replace (shape0 X) with (length (seq 0 (shape0 X))) by apply length_seq.
  apply submseteq_length, NoDup_submseteq; [done|].
  intros r Hr. apply elem_of_seq. destruct (Hin r Hr). lia.
Qed.

Lemma KMeansPlus_seed_next_seeded X w w' :
  wf_matrix X -> seeded X w ->
  KMeansPlus.seed_next X w = (Ok Continue, w') -> seeded X w'.
Proof.
  intros Hwf (Hne&Hwidth&chosen&Hnd&Hlen&Hin).
  unfold KMeansPlus.seed_next. msimpl.
  set (c := KMeansPlus.the_centroids (self w)) in *.
  destruct (choice_weighted _ _ _) as [[r|v] g'] eqn:Hch; [|done].
  intros [= <-].
  apply choice_weighted_ok in Hch as (Hr&pr&Hpr&Hpos).
  apply seed_probs_positive in Hpr as (dr&Hdr&Hdpos);
    [|apply seed_distances_nonneg|done].
  destruct (lookup_lt_is_Some_2 (rows X) r Hr) as [xr Hxr].
  assert (Hrow : KMeansPlus.row X r = xr)
    by (unfold KMeansPlus.row; by rewrite Hxr).
  rewrite Hrow. unfold seeded. cbn.
  assert (Hxr_len : length xr = ncols X).
  { unfold wf_matrix in Hwf. rewrite Forall_lookup in Hwf. by eapply Hwf. }
  split_and!.
  - by destruct (rows c).
  - apply Forall_app. split; [done|]. by apply Forall_singleton.
  - exists (r :: chosen). split_and!.
    + apply NoDup_cons. split; [|done]. intros Hc.
      destruct (Hin r Hc) as (_&dr'&Hdr'&Hnpos). congruence.
    + unfold shape0 in *. cbn. rewrite length_app. cbn. lia.
    + intros i Hi. apply elem_of_cons in Hi as [->|Hi].
      * split; [done|].
        rewrite (seed_distances_snoc X (ncols X) c xr r xr Hne Hxr).
        eexists. split; [reflexivity|]. cbv zeta.
        rewrite (seed_distances_lookup X c r xr Hxr) in Hdr.
        injection Hdr as Hdr. rewrite Hdr.
        destruct dr as [q|]; [|done].
        assert (Hfin : Forall finite xr).
        { destruct (rows c) as [|c0 cs] eqn:Hrows; [done|].
          cbn in Hdr. change (py_min_from ?a ?l) with (py_min (a :: l)) in Hdr.
          apply py_min_finite_head in Hdr.
          destruct (norm2 (zip_with nsub xr c0)) as [q0|] eqn:Hn; [|done].
          apply norm2_finite in Hn.
          apply zip_with_nsub_finite in Hn; [done|].
          apply Forall_cons in Hwidth as [-> _]. done. }
        apply norm2_self in Hfin.
        destruct (norm2 (zip_with nsub xr xr)) as [q0|]; [|done].
        cbn in Hfin. apply positive_Fin in Hdpos.
        assert (Hlt : nlt (Fin q0) (Fin q) = true) by (apply nlt_Fin; lra).
        rewrite Hlt. cbv iota. apply not_true_iff_false. intros Hc.
        apply (proj1 (positive_Fin q0)) in Hc. lra.
      * destruct (Hin i Hi) as (Hi_lt&di&Hdi&Hnpos). split; [done|].
        destruct (lookup_lt_is_Some_2 (rows X) i Hi_lt) as [xi Hxi].
        rewrite (seed_distances_snoc X (ncols X) c xr i xi Hne Hxi).
        eexists. split; [reflexivity|]. cbv zeta.
        rewrite (seed_distances_lookup X c i xi Hxi) in Hdi.
        injection Hdi as ->. by apply min_step_not_positive.
Qed.

Lemma foldl_nadd_Fin qs : ∀ a,
  foldl nadd (Fin a) (Fin <$> qs) = Fin (foldl Qplus a qs).
Proof. induction qs as [|q qs IH]; intros a; cbn; [done|]. apply IH. Qed.

Lemma foldl_Qplus_div (y : Q) qs : ∀ a b,
  (a == b / y)%Q ->
  (foldl Qplus a ((λ x, x / y)%Q <$> qs) == foldl Qplus b qs / y)%Q.
Proof.
  induction qs as [|q qs IH]; intros a b Hab; cbn; [done|].
  apply IH. rewrite Hab. unfold Qdiv. ring.
Qed.

Lemma foldl_Qplus_nonneg qs : ∀ a,
  (0 <= a)%Q -> Forall (λ q, 0 <= q)%Q qs -> (0 <= foldl Qplus a qs)%Q.
Proof.
  induction qs as [|q qs IH]; intros a Ha Hqs; cbn; [done|].
  apply Forall_cons in Hqs as [Hq Hqs]. apply IH; [lra|done].
Qed.

Lemma finite_list l : Forall finite l -> ∃ qs, l = Fin <$> qs.
Proof.
  induction 1 as [|a l Ha _ [qs ->]]; [by exists []|].
  destruct a as [q|]; [|done]. by exists (q :: qs).
Qed.

(** The probabilities the seeding computes from distances that are numbers
    with a non-zero sum pass every test of the weighted draw: the only way
    for the draw to be refused is a NaN among them. *)
Lemma seed_probs_refused a d g v g' :
  a ≠ 0 -> length d = a -> Forall nonneg d ->
  choice_weighted a (KMeansPlus.seed_probs d) g = (Raise v, g') ->
  v = ProbabilitiesContainNaN.
Proof.
  intros Ha Hlen Hnn. unfold choice_weighted.
  destruct (Nat.eqb_spec a 0); [done|].
  unfold KMeansPlus.seed_probs at 1. rewrite length_fmap.
  destruct (Nat.eqb_spec (length d) a); [|done]. cbn [negb].
  destruct (nsum (KMeansPlus.seed_probs d)) as [t|] eqn:Hsum;
    [|by intros [= <- <-]].
  cbn [is_nan].
  pose proof (nsum_finite _ _ Hsum) as Hfin.
  destruct d as [|d0 d']; [cbn in *; lia|].
  destruct (nsum (d0 :: d')) as [y|] eqn:Hy.
  2:{ unfold KMeansPlus.seed_probs in Hfin. rewrite Hy in Hfin.
      apply Forall_cons in Hfin as [Hfin _]. by destruct d0. }
  assert (Hy0 : Qeq_bool y 0 = false).
  { unfold KMeansPlus.seed_probs in Hfin. rewrite Hy in Hfin.
    apply Forall_cons in Hfin as [Hfin _]. destruct d0 as [x|]; [|done].
    cbn in Hfin. by destruct (Qeq_bool y 0). }
  destruct (finite_list _ (nsum_finite _ _ Hy)) as [qs Hqs].
  rewrite Hqs in *. clear Hqs.
  assert (Hqs_nn : Forall (λ q, 0 <= q)%Q qs).
  { rewrite Forall_fmap in Hnn. done. }
  unfold nsum, nzero in Hy. rewrite foldl_nadd_Fin in Hy. injection Hy as Hy.
  assert (Hypos : (0 < y)%Q).
  { pose proof (foldl_Qplus_nonneg qs 0 ltac:(lra) Hqs_nn) as Hge.
    rewrite Hy in Hge. apply not_true_iff_false in Hy0.
    rewrite Qeq_bool_iff in Hy0. lra. }
  assert (Hprobs : KMeansPlus.seed_probs (Fin <$> qs) =
                   Fin <$> ((λ x, x / y)%Q <$> qs)).
  { unfold KMeansPlus.seed_probs, nsum, nzero.
    rewrite foldl_nadd_Fin, Hy, <- !list_fmap_compose.
    apply list_fmap_ext. intros i x _. cbn. by rewrite Hy0. }
  rewrite Hprobs in Hsum |- *.
  unfold nsum, nzero in Hsum. rewrite foldl_nadd_Fin in Hsum.
  injection Hsum as Hsum.
  pose proof (foldl_Qplus_div y qs 0 0 ltac:(unfold Qdiv; ring)) as Hdiv.
  rewrite Hsum, Hy in Hdiv.
  assert (Hone : (t == 1)%Q) by (rewrite Hdiv; field; lra).
  destruct (existsb _ _) eqn:Hneg.
  - exfalso. apply existsb_exists in Hneg as (p&Hp&Hlt).
    apply list_elem_of_In, list_elem_of_fmap in Hp as (q'&->&Hq').
    apply list_elem_of_fmap in Hq' as (x&->&Hx).
    rewrite Forall_forall in Hqs_nn. specialize (Hqs_nn x Hx).
    apply nlt_Fin in Hlt.
    assert (0 <= x / y)%Q by (apply Qle_shift_div_l; lra). lra.
  - cbn [neq].
    assert (Qeq_bool t 1 = true) as -> by (by apply Qeq_bool_iff).
    cbn [negb]. destruct (next_below _ _). done.
Qed.

Lemma KMeansPlus_seed_next_raises X w e w' :
  shape0 X ≠ 0 ->
  KMeansPlus.seed_next X w = (Raise e, w') ->
  e = ValueError ProbabilitiesContainNaN.
Proof.
  intros HN. unfold KMeansPlus.seed_next. msimpl.
  destruct (choice_weighted _ _ _) as [[r|v] g'] eqn:Hch; [done|].
  intros [= <- <-]. f_equal.
  eapply (seed_probs_refused _ _ _ _ _ HN); [| |exact Hch].
  - unfold KMeansPlus.seed_distances. by rewrite length_fmap.
  - apply seed_distances_nonneg.
Qed.

Lemma KMeansPlus_seed_next_no_break X w w' :
  KMeansPlus.seed_next X w ≠ (Ok Break, w').
Proof.
  unfold KMeansPlus.seed_next. msimpl.
  by destruct (choice_weighted _ _ _) as [[r|v] g'].
Qed.

Lemma choice_one_ok a g r g' :
  choice_one a g = (Ok r, g') -> r < a.
Proof.
  unfold choice_one. destruct (Nat.eqb_spec a 0); [done|].
  pose proof (next_below_lt a g). destruct (next_below a g).
  intros [= <- <-]. cbn in *. lia.
Qed.

(** More clusters than rows: the seeding of K-Means++ raises.  On a matrix
    without rows it is the first draw that is refused; otherwise the
    weighted draws run out of rows at a positive distance, all
    probabilities are 0/0, and a weighted draw is refused. *)
Lemma KMeansPlus_initialize_too_many X w :
  wf_matrix X ->
  (Z.of_nat (shape0 X) < KMeansPlus.n_clusters (self w))%Z ->
  ∃ v w', KMeansPlus._initialize_centroids X w = (Raise (ValueError v), w') ∧
    (shape0 X = 0 -> v = EmptyPopulation) ∧
    (shape0 X ≠ 0 -> v = ProbabilitiesContainNaN).
Proof.
  intros Hwf HK.
  destruct (KMeansPlus._initialize_centroids X w) as [r w'] eqn:Hinit.
  pose proof Hinit as Hinit'.
  rewrite KMeansPlus_initialize_eq in Hinit'.
  destruct (choice_one _ _) as [[first|v] g'] eqn:Hfirst.
  - cbv zeta in Hinit'. apply choice_one_ok in Hfirst.
    destruct (lookup_lt_is_Some_2 (rows X) first Hfirst) as [x0 Hx0].
    destruct r as [[]|e].
    + exfalso.
      pose proof (KMeansPlus_initialize_rows _ _ _ Hinit) as Hrows.
      eapply (for_range_invariant (seeded X)) in Hinit'.
      * apply seeded_bound in Hinit'. lia.
      * intros ????. by eapply KMeansPlus_seed_next_seeded.
      * apply KMeansPlus_seed_next_no_break.
      * unfold seeded, KMeansPlus.row. cbn. rewrite Hx0. cbn.
        split_and!; [done| |].
        -- apply Forall_singleton. unfold wf_matrix in Hwf.
           rewrite Forall_lookup in Hwf. by eapply Hwf.
        -- exists [first]. split_and!; [apply NoDup_singleton|done|].
           intros r Hr. apply list_elem_of_singleton in Hr as ->.
           split; [done|].
           rewrite (seed_distances_lookup X _ first x0 Hx0). cbn.
           eexists. split; [reflexivity|]. apply norm2_self_not_positive.
    + apply (for_range_raises
               (λ e, e = ValueError ProbabilitiesContainNaN)) in Hinit'.
      * subst e. exists ProbabilitiesContainNaN, w'.
        split_and!; [done| |done]. unfold shape0 in *. lia.
      * intros ???. apply KMeansPlus_seed_next_raises.
        unfold shape0. by destruct (rows X).
  - simplify_eq. exists v. eexists. split; [done|].
    unfold choice_one in Hfirst.
    destruct (Nat.eqb_spec (shape0 X) 0) as [H0|Hne].
    + simplify_eq. split; [done|]. intros ?. done.
    + by destruct (next_below _ _).
Qed.

(** ** A [fit] that raises *)

(** A refused sample leaves the tape where it was. *)
Lemma choice_no_replace_refused a k g v g' :
  choice_no_replace a k g = (Raise v, g') -> g' = g.
Proof.
  unfold choice_no_replace.
  destruct (_ && _); [by intros [= _ <-]|].
  destruct (_ <? _)%Z; [by intros [= _ <-]|].
  destruct (_ <? _)%Z; [by intros [= _ <-]|].
  by destruct (draw_distinct _ _ _).
Qed.

(** What [fit] does when its sample of [n_clusters] rows is refused. *)
Lemma fit_sample_refused (v : variant) X (w : world (instance v)) ve g' :
  v ≠ KMeansClusteringPlus ->
  choice_no_replace (shape0 X) (n_clusters (self w)) (gen w) = (Raise ve, g') ->
  ∃ w', fit X w = (Raise (ValueError ve), w') ∧
        gen w' = gen w ∧ trace w' = trace w ∧
        training_set (self w') =
          match v with
          | KMeansClustering => training_set (self w)
          | _ => Some X
          end ∧
        (v = KMeansClustering -> w' = w).
Proof.
  intros Hv Hch. pose proof (choice_no_replace_refused _ _ _ _ _ Hch) as ->.
  destruct v; cbn in *; [|done| |].
  - rewrite KMeans_fit_eq, Hch. eexists. split_and!; [done..|].
    intros _. by destruct w.
  - rewrite KMedians_fit_eq. cbv zeta.
    cbn [KMedians.n_clusters KMedians.set_X]. rewrite Hch.
    eexists. split_and!; done.
  - rewrite MiniBatch_fit_eq. cbv zeta.
    cbn [MiniBatch.n_clusters MiniBatch.set_X]. rewrite Hch.
    eexists. split_and!; done.
Qed.

(** K-Means++, K-Medians and Mini-Batch K-Means assign [_X] first: it is the
    new matrix however [fit] ends. *)
Lemma fit_training_set (v : variant) X (w : world (instance v)) r w' :
  v ≠ KMeansClustering ->
  fit X w = (r, w') -> training_set (self w') = Some X.
Proof.
  intros Hv. destruct v; cbn in *; [done| | |].
  - rewrite KMeansPlus_fit_eq. cbv zeta. intros Hrun.
    destruct (KMeansPlus._initialize_centroids _ _) as [[[]|e] w1] eqn:Hinit;
      apply KMeansPlus_initialize_frame in Hinit as (_&_&_&HX); cbn in HX.
    + destruct (for_range _ _ _) as [[[]|e] w2] eqn:Hloop; simplify_eq;
        eapply (for_range_frame _ (KMeansPlus_iteration_frame X)) in Hloop;
        destruct Hloop as (_&_&_&HX'); cbn in *; congruence.
    + by simplify_eq.
  - rewrite KMedians_fit_eq. cbv zeta. intros Hrun.
    destruct (choice_no_replace _ _ _) as [[idx|v] g']; [|by simplify_eq].
    destruct (for_range _ _ _) as [[[]|e] w2] eqn:Hloop; simplify_eq;
      eapply (for_range_frame _ (KMedians_iteration_frame X)) in Hloop;
      by destruct Hloop as (_&_&_&HX').
  - rewrite MiniBatch_fit_eq. cbv zeta. intros Hrun.
    destruct (choice_no_replace _ _ _) as [[idx|v] g']; [|by simplify_eq].
    destruct (for_range _ _ _) as [[[]|e] w2] eqn:Hloop; simplify_eq;
      eapply (for_range_frame _ (MiniBatch_iteration_frame X)) in Hloop;
      by destruct Hloop as (_&_&_&HX').
Qed.

(** K-Means++ with more clusters than rows. *)
Lemma KMeansPlus_fit_too_many X w :
  wf_matrix X ->
  (Z.of_nat (shape0 X) < KMeansPlus.n_clusters (self w))%Z ->
  ∃ v w', KMeansPlus.fit X w = (Raise (ValueError v), w') ∧
    (shape0 X = 0 -> v = EmptyPopulation) ∧
    (shape0 X ≠ 0 -> v = ProbabilitiesContainNaN).
Proof.
  intros Hwf HK. rewrite KMeansPlus_fit_eq. cbv zeta.
  destruct (KMeansPlus_initialize_too_many X
              (mkWorld (KMeansPlus.set_X X (self w)) (gen w) (trace w)) Hwf HK)
    as (v&w'&->&H0&H1).
  by exists v, w'.
Qed.

(** More clusters than rows: [fit] raises a [ValueError], in every
    variant. *)
Lemma fit_too_many_raises (v : variant) X (w : world (instance v)) :
  wf_matrix X ->
  (Z.of_nat (shape0 X) < n_clusters (self w))%Z ->
  ∃ e w', fit X w = (Raise (ValueError e), w').
Proof.
  intros Hwf HK.
  destruct (decide (v = KMeansClusteringPlus)) as [->|Hv].
  - destruct (KMeansPlus_fit_too_many X w Hwf HK) as (e&w'&Hfit&_).
    by exists e, w'.
  - destruct (choice_no_replace_too_many (shape0 X) (n_clusters (self w))
                (gen w) HK) as (e&Hch&_).
    destruct (fit_sample_refused v X w e _ Hv Hch) as (w'&Hfit&_).
    by exists e, w'.
Qed.




(** C9.  K-Means++, K-Medians and Mini-Batch K-Means assign the training set
    before they sample: a [fit] with more clusters than rows raises, and
    leaves the new matrix installed as [_X] while the fitted flag is what it
    was. *)
Theorem failed_fit_installs_training_set (v : variant) (X : Matrix)
    (s : instance v) (g : rng) :
  v ≠ KMeansClustering ->
  wf_matrix X ->
  (Z.of_nat (shape0 X) < n_clusters s)%Z ->
  ∃ e w', fit X (mkWorld s g []) = (Raise e, w') ∧
    training_set (self w') = Some X ∧
    fitted (self w') = fitted s.
Proof.
  intros Hv Hwf HK.
  destruct (fit_too_many_raises v X (mkWorld s g []) Hwf HK) as (e&w'&Hfit).
  exists (ValueError e), w'. split_and!; [done| |].
  - by eapply fit_training_set.
  - by apply fit_flag_variant in Hfit as (_&_&?).
Qed.

Lemma failed_fit_installs_training_set_witness :
  ∃ e w', KMeansPlus.fit one_point (mkWorld (KMeansPlus.init 2 10 false) [] [])
            = (Raise e, w') ∧
    KMeansPlus._X (self w') = Some one_point ∧
    KMeansPlus._fitted (self w') = false.
Proof.
  apply (failed_fit_installs_training_set KMeansClusteringPlus one_point
           (KMeansPlus.init 2 10 false) []).
  - discriminate.
  - repeat constructor.
  - vm_compute; reflexivity.
Defined.




(** ** The number of reference points after [fit] *)

Lemma for_range_has_rows {T} `{Estimator T} (K : Z) (k : nat)
    (body : M T control) :
  (∀ w r w', has_rows K k w -> body w = (r, w') -> has_rows K k w') ->
  ∀ n w r w', has_rows K k w -> for_range n body w = (r, w') ->
    has_rows K k w'.
Proof.
  intros Hbody n w r w' Hw Hrun. revert Hw.
  eapply (for_range_rel (λ w w', has_rows K k w -> has_rows K k w'));
    [| |by eauto|exact Hrun]; auto.
Qed.

Lemma KMeans_iteration_rows K X w r w' :
  has_rows K (Z.to_nat K) w ->
  KMeans.iteration X w = (r, w') -> has_rows K (Z.to_nat K) w'.
Proof.
  intros [HK (C&HC&Hrows)] Hrun.
  apply (KMeans_iteration_spec X K w r w' HK) in Hrun
    as (HK'&[(e&->&->)|(new&_&(ls&_&Hnew)&[(_&_&Hr)|(_&_&Hr)])]).
  - by split; [|exists C].
  - split; [done|]. exists C. by rewrite Hr.
  - split; [done|]. exists new. split; [done|]. subst new.
    unfold shape0. cbn. by rewrite length_fmap, length_seq.
Qed.

Lemma KMedians_iteration_rows K X w r w' :
  has_rows K (Z.to_nat K) w ->
  KMedians.iteration X w = (r, w') -> has_rows K (Z.to_nat K) w'.
Proof.
  intros [HK (C&HC&Hrows)] Hrun.
  apply (KMedians_iteration_spec X K w r w' HK) in Hrun
    as (HK'&[(e&->&->)|(new&_&(ls&_&Hnew)&[(_&_&Hr)|(_&_&Hr)])]).
  - by split; [|exists C].
  - split; [done|]. exists C. by rewrite Hr.
  - split; [done|]. exists new. split; [done|]. subst new.
    unfold shape0. cbn. by rewrite length_fmap, length_seq.
Qed.

Lemma KMeansPlus_iteration_rows K k X w r w' :
  has_rows K k w ->
  KMeansPlus.iteration X w = (r, w') -> has_rows K k w'.
Proof.
  intros [HK (C&HC&Hrows)]. rewrite KMeansPlus_iteration_eq. cbv zeta.
  cbn in HK, HC.
  destruct (nearest _ _ _) as [ls|v]; [|intros; simplify_eq; by split; [|exists C]].
  intros Hrun.
  assert (Hw' : has_rows K k
            (mkWorld
               (KMeansPlus.set_centroids
                  (KMeansPlus.update X (KMeansPlus.n_clusters (self w)) ls
                     (KMeansPlus.the_centroids (self w))) (self w))
               (gen w)
               (trace w ++ [(KMeansPlus.the_centroids (self w),
                  KMeansPlus.update X (KMeansPlus.n_clusters (self w)) ls
                    (KMeansPlus.the_centroids (self w)))]))).
  { split; [done|]. eexists. split; [reflexivity|].
    destruct (KMeansPlus_update_updated (KMeansPlus.n_clusters (self w)) X ls
                (KMeansPlus.the_centroids (self w))) as (_&->&_).
    unfold KMeansPlus.the_centroids. by rewrite HC. }
  by destruct (_ && _); simplify_eq.
Qed.

Lemma MiniBatch_iteration_rows K k X w r w' :
  has_rows K k w ->
  MiniBatch.iteration X w = (r, w') -> has_rows K k w'.
Proof.
  intros [HK (C&HC&Hrows)]. rewrite MiniBatch_iteration_eq.
  cbn in HK, HC.
  destruct (choice_no_replace _ _ _) as [[idx|v] g'];
    [|intros; simplify_eq; by split; [|exists C]].
  cbv zeta.
  destruct (nearest _ _ _) as [ls|v]; [|intros; simplify_eq; by split; [|exists C]].
  intros Hrun. simplify_eq. split; [done|]. eexists. split; [reflexivity|].
  destruct (MiniBatch_update_updated (MiniBatch.n_clusters (self w))
              (take_rows X idx) ls (MiniBatch.the_centroids (self w)))
    as (_&->&_).
  unfold MiniBatch.the_centroids. by rewrite HC.
Qed.

(** A [fit] that returns, with at least one cluster asked for, leaves a
    fitted instance whose reference set has [n_clusters] rows. *)
Lemma fit_reference_rows (v : variant) X (s : instance v) g w :
  (1 <= n_clusters s)%Z ->
  fit X (mkWorld s g []) = (Ok tt, w) ->
  fitted (self w) = true ∧ n_clusters (self w) = n_clusters s ∧
  ∃ C, reference_set (self w) = Some C ∧
       Z.of_nat (shape0 C) = n_clusters s.
Proof.
  intros HK Hfit.
  pose proof (fit_flag_variant v X _ _ _ Hfit) as (HK'&_&Hflag).
  cbn in HK', Hflag. split_and!; [done..|].
  assert (Hrows : has_rows (n_clusters s) (Z.to_nat (n_clusters s)) w).
  { destruct v; cbn in *.
    - rewrite KMeans_fit_eq in Hfit. cbn [self gen trace] in Hfit.
      destruct (choice_no_replace _ _ _) as [[idx|e] g'] eqn:Hch; [|done].
      apply choice_no_replace_inv in Hch as (_&Hlen&_&_). cbv zeta in Hfit.
      destruct (for_range _ _ _) as [[[]|e] w2] eqn:Hloop; [|done].
      eapply (for_range_has_rows _ _ _ (KMeans_iteration_rows _ X)) in Hloop.
      + simplify_eq. destruct Hloop as [? (C&?&?)]. split; [done|]. by exists C.
      + split; [done|]. eexists. split; [reflexivity|].
        unfold shape0. cbn. by rewrite length_fmap.
    - rewrite KMeansPlus_fit_eq in Hfit. cbn [self gen trace] in Hfit.
      cbv zeta in Hfit.
      destruct (KMeansPlus._initialize_centroids _ _) as [[[]|e] w1] eqn:Hinit;
        [|done].
      pose proof (KMeansPlus_initialize_rows _ _ _ Hinit) as Hn.
      pose proof (KMeansPlus_initialize_frame _ _ _ _ Hinit) as (HK1&_&_&_).
      cbn in Hn, HK1.
      destruct (for_range _ _ _) as [[[]|e] w2] eqn:Hloop; [|done].
      eapply (for_range_has_rows _ _ _ (KMeansPlus_iteration_rows _ _ X))
        in Hloop.
      + simplify_eq. destruct Hloop as [? (C&?&?)]. split; [done|]. by exists C.
      + split; [done|].
        unfold KMeansPlus.the_centroids in Hn.
        destruct (KMeansPlus.centroids (self w1)) as [C|] eqn:HC; [|done].
        exists C. split; [exact HC|]. cbn in Hn. lia.
    - rewrite KMedians_fit_eq in Hfit. cbn [self gen trace] in Hfit.
      cbv zeta in Hfit.
      destruct (choice_no_replace _ _ _) as [[idx|e] g'] eqn:Hch; [|done].
      apply choice_no_replace_inv in Hch as (_&Hlen&_&_).
      destruct (for_range _ _ _) as [[[]|e] w2] eqn:Hloop; [|done].
      eapply (for_range_has_rows _ _ _ (KMedians_iteration_rows _ X)) in Hloop.
      + simplify_eq. destruct Hloop as [? (C&?&?)]. split; [done|]. by exists C.
      + split; [done|]. eexists. split; [reflexivity|].
        unfold shape0. cbn. rewrite length_fmap. exact Hlen.
    - rewrite MiniBatch_fit_eq in Hfit. cbn [self gen trace] in Hfit.
      cbv zeta in Hfit.
      destruct (choice_no_replace _ _ _) as [[idx|e] g'] eqn:Hch; [|done].
      apply choice_no_replace_inv in Hch as (_&Hlen&_&_).
      destruct (for_range _ _ _) as [[[]|e] w2] eqn:Hloop; [|done].
      eapply (for_range_has_rows _ _ _ (MiniBatch_iteration_rows _ _ X))
        in Hloop.
      + simplify_eq. destruct Hloop as [? (C&?&?)]. split; [done|]. by exists C.
      + split; [done|]. eexists. split; [reflexivity|].
        unfold shape0. cbn. rewrite length_fmap. exact Hlen. }
  destruct Hrows as [_ (C&HC&Hlen)]. exists C. split; [done|]. lia.
Qed.

(** * Further properties *)

(** ** [set_params] *)






(** ** Hyperparameters out of range *)

Lemma broadcastable_refl d : broadcastable d d = true.
Proof. unfold broadcastable. by rewrite Nat.eqb_refl. Qed.

(** Labels against a reference set without rows. *)
Lemma nearest_no_reference f X D :
  nearest f X (mkMatrix D []) =
  Raise (if broadcastable (ncols X) D then ArgminOfEmptySequence
         else OperandsNotBroadcastable).
Proof.
  unfold nearest, pairwise. cbn. by destruct (broadcastable _ _).
Qed.

(** A sample of no row is granted, without reading the tape. *)
Lemma choice_no_replace_zero a g : choice_no_replace a 0 g = (Ok [], g).
Proof.
  unfold choice_no_replace. cbn. rewrite andb_false_r.
  by destruct (Z.ltb_spec (Z.of_nat a) 0); [lia|].
Qed.

Lemma choice_no_replace_negative a (k : Z) g :
  (k < 0)%Z ->
  choice_no_replace a k g =
  (Raise (if a =? 0 then EmptyPopulation else NegativeDimensions), g).
Proof.
  intros Hk. unfold choice_no_replace.
  destruct (Z.eqb_spec k 0); [lia|]. cbn. rewrite andb_true_r.
  destruct (a =? 0); [done|].
  destruct (Z.ltb_spec (Z.of_nat a) k); [lia|].
  by destruct (Z.ltb_spec k 0); [|lia].
Qed.

Lemma choice_no_replace_out_of_range a (k : Z) g :
  ¬ (0 <= k <= Z.of_nat a)%Z ->
  ∃ e, choice_no_replace a k g = (Raise e, g).
Proof.
  intros Hk. destruct (Z.ltb_spec k 0).
  - rewrite choice_no_replace_negative by done. by eexists.
  - destruct (choice_no_replace_too_many a k g) as (e&He&_); [lia|].
    by exists e.
Qed.

Lemma KMeans_iteration_no_reference X w D :
  KMeans.centroids (self w) = Some (mkMatrix D []) ->
  KMeans.iteration X w =
  (Raise (ValueError (if broadcastable (ncols X) D then ArgminOfEmptySequence
                      else OperandsNotBroadcastable)), w).
Proof.
  intros Hc. unfold KMeans.iteration, KMeans.the_centroids. msimpl.
  rewrite Hc. cbn [default from_option id]. by rewrite nearest_no_reference.
Qed.

Lemma KMedians_iteration_no_reference X w D :
  KMedians.medians (self w) = Some (mkMatrix D []) ->
  KMedians.iteration X w =
  (Raise (ValueError (if broadcastable (ncols X) D then ArgminOfEmptySequence
                      else OperandsNotBroadcastable)), w).
Proof.
  intros Hc. unfold KMedians.iteration, KMedians.the_medians. msimpl.
  rewrite Hc. cbn [default from_option id]. by rewrite nearest_no_reference.
Qed.

Lemma MiniBatch_iteration_no_reference X w D :
  MiniBatch.centroids (self w) = Some (mkMatrix D []) ->
  ∃ e g', MiniBatch.iteration X w =
          (Raise (ValueError e), mkWorld (self w) g' (trace w)).
Proof.
  intros Hc. rewrite MiniBatch_iteration_eq.
  destruct (choice_no_replace _ _ _) as [[idx|e] g']; [|by eauto].
  cbv zeta. unfold MiniBatch.the_centroids.
  rewrite Hc. cbn [default from_option id]. rewrite nearest_no_reference. by eauto.
Qed.

Lemma predict_no_reference (v : variant) (w : world (instance v)) D X :
  fitted (self w) = true ->
  reference_set (self w) = Some (mkMatrix D []) ->
  ∃ e, predict X w = (Raise (ValueError e), w).
Proof.
  intros Hf Hr. rewrite (predict_fitted v w X _ Hf Hr).
  rewrite nearest_no_reference. by eauto.
Qed.

(** X2.  [n_clusters = 0] in K-Means, K-Medians and Mini-Batch K-Means: the
    sample of no row is granted and the reference set is the matrix without
    rows.  With [max_iter >= 1] the first iteration raises a [ValueError]
    (for K-Means and K-Medians that of [argmin] over an empty axis), no
    iteration is noted and the fitted flag is kept.  With [max_iter <= 0]
    [fit] returns and sets the flag, and every later [predict] raises a
    [ValueError]. *)
Theorem zero_clusters (v : variant) (X : Matrix) (s : instance v) (g : rng) :
  v ≠ KMeansClusteringPlus ->
  n_clusters s = 0%Z ->
  ∃ r w, fit X (mkWorld s g []) = (r, w) ∧
    reference_set (self w) = Some (mkMatrix (ncols X) []) ∧ trace w = [] ∧
    ((1 <= max_iter s)%Z ->
       fitted (self w) = fitted s ∧
       ∃ e, r = Raise (ValueError e) ∧
            (v ≠ MiniBatchKMeansClustering -> e = ArgminOfEmptySequence)) ∧
    ((max_iter s <= 0)%Z ->
       r = Ok tt ∧ fitted (self w) = true ∧
       ∀ X', ∃ e, predict X' w = (Raise (ValueError e), w)).
Proof.
  intros Hv HK.
  destruct (Z.to_nat (max_iter s)) as [|n] eqn:Hn.
  - (* no iteration *)
    assert (Hrun : ∃ w, fit X (mkWorld s g []) = (Ok tt, w) ∧
              reference_set (self w) = Some (mkMatrix (ncols X) []) ∧
              trace w = [] ∧ fitted (self w) = true).
    { destruct v; cbn in *; [|done| |].
      - rewrite KMeans_fit_eq. cbn [self gen trace].
        rewrite HK, choice_no_replace_zero. cbv zeta.
        cbn [KMeans.max_iter KMeans.set_X KMeans.set_centroids].
        rewrite Hn. cbn. eexists. split_and!; reflexivity.
      - rewrite KMedians_fit_eq. cbn [self gen trace]. cbv zeta.
        cbn [KMedians.n_clusters KMedians.set_X].
        rewrite HK, choice_no_replace_zero.
        cbn [KMedians.max_iter KMedians.set_X KMedians.set_medians].
        rewrite Hn. cbn. eexists. split_and!; reflexivity.
      - rewrite MiniBatch_fit_eq. cbn [self gen trace]. cbv zeta.
        cbn [MiniBatch.n_clusters MiniBatch.set_X].
        rewrite HK, choice_no_replace_zero.
        cbn [MiniBatch.max_iter MiniBatch.set_X MiniBatch.set_centroids].
        rewrite Hn. cbn. eexists. split_and!; reflexivity. }
    destruct Hrun as (w&Hrun&Hr&Htr&Hf).
    exists (Ok tt), w. split_and!; [done..|lia|].
    intros _. split_and!; [done..|].
    intros X'. by eapply predict_no_reference.
  - (* the first iteration *)
    assert (Hrun : ∃ e w, fit X (mkWorld s g []) = (Raise (ValueError e), w) ∧
              reference_set (self w) = Some (mkMatrix (ncols X) []) ∧
              trace w = [] ∧ fitted (self w) = fitted s ∧
              (v ≠ MiniBatchKMeansClustering -> e = ArgminOfEmptySequence)).
    { destruct v; cbn in *; [|done| |].
      - rewrite KMeans_fit_eq. cbn [self gen trace].
        rewrite HK, choice_no_replace_zero. cbv zeta.
        cbn [KMeans.max_iter KMeans.set_X KMeans.set_centroids].
        rewrite Hn. cbn [for_range].
        rewrite (KMeans_iteration_no_reference X _ (ncols X)) by done.
        rewrite broadcastable_refl.
        eexists _, _. split_and!; [reflexivity|done..].
      - rewrite KMedians_fit_eq. cbn [self gen trace]. cbv zeta.
        cbn [KMedians.n_clusters KMedians.set_X].
        rewrite HK, choice_no_replace_zero.
        cbn [KMedians.max_iter KMedians.set_X KMedians.set_medians].
        rewrite Hn. cbn [for_range].
        rewrite (KMedians_iteration_no_reference X _ (ncols X)) by done.
        rewrite broadcastable_refl.
        eexists _, _. split_and!; [reflexivity|done..].
      - rewrite MiniBatch_fit_eq. cbn [self gen trace]. cbv zeta.
        cbn [MiniBatch.n_clusters MiniBatch.set_X].
        rewrite HK, choice_no_replace_zero.
        cbn [MiniBatch.max_iter MiniBatch.set_X MiniBatch.set_centroids].
        rewrite Hn. cbn [for_range].
        edestruct (MiniBatch_iteration_no_reference X) as (e&g'&->);
          [reflexivity|].
        eexists _, _. split_and!; [reflexivity|done..]. }
    destruct Hrun as (e&w&Hrun&Hr&Htr&Hf&He).
    exists (Raise (ValueError e)), w. split_and!; [done..| |lia].
    intros _. split; [done|]. by exists e.
Qed.

Lemma zero_clusters_witness :
  ∃ r w, KMedians.fit four_points (mkWorld (KMedians.init 0 10 false) [] [])
           = (r, w) ∧
    KMedians.medians (self w) = Some (mkMatrix 2 []) ∧
    r = Raise (ValueError ArgminOfEmptySequence).
Proof.
  destruct (zero_clusters KMediansClustering four_points
              (KMedians.init 0 10 false) [])
    as (r&w&Hrun&Hr&_&Hloop&_); [discriminate|reflexivity|].
  exists r, w. split_and!; [exact Hrun|exact Hr|].
  destruct Hloop as (_&e&->&He); [vm_compute; discriminate|].
  by rewrite He.
Defined.

(** X3.  A negative [n_clusters] in K-Means, K-Medians and Mini-Batch
    K-Means: [fit] raises the [ValueError] by which [np.random.choice]
    refuses the size ("negative dimensions", or on a matrix without rows
    that of the empty population), before any iteration; reference set,
    fitted flag and random source are as before the call. *)
Theorem negative_clusters (v : variant) (X : Matrix) (s : instance v)
    (g : rng) :
  v ≠ KMeansClusteringPlus ->
  (n_clusters s < 0)%Z ->
  ∃ w, fit X (mkWorld s g []) =
         (Raise (ValueError (if shape0 X =? 0 then EmptyPopulation
                             else NegativeDimensions)), w) ∧
    reference_set (self w) = reference_set s ∧
    fitted (self w) = fitted s ∧
    gen w = g ∧ trace w = [].
Proof.
  intros Hv HK. destruct v; cbn in *; [|done| |].
  - rewrite KMeans_fit_eq. cbn [self gen trace].
    rewrite choice_no_replace_negative by done.
    eexists. split_and!; reflexivity.
  - rewrite KMedians_fit_eq. cbn [self gen trace]. cbv zeta.
    cbn [KMedians.n_clusters KMedians.set_X].
    rewrite choice_no_replace_negative by done.
    eexists. split_and!; reflexivity.
  - rewrite MiniBatch_fit_eq. cbn [self gen trace]. cbv zeta.
    cbn [MiniBatch.n_clusters MiniBatch.set_X].
    rewrite choice_no_replace_negative by done.
    eexists. split_and!; reflexivity.
Qed.

Lemma negative_clusters_witness :
  ∃ w, KMeans.fit four_points (mkWorld (KMeans.init (-1) 10 false) [3] []) =
         (Raise (ValueError NegativeDimensions), w) ∧
    KMeans.centroids (self w) = None ∧
    KMeans._fitted (self w) = false ∧
    gen w = [3] ∧ trace w = [].
Proof.
  apply (negative_clusters KMeansClustering four_points
           (KMeans.init (-1) 10 false) [3]).
  - discriminate.
  - reflexivity.
Defined.

(** ** The batch of Mini-Batch K-Means *)

(** X4.  Mini-Batch K-Means with [0 <= n_clusters <= N], a [batch_size]
    outside [0, N] and [max_iter >= 1]: [fit] draws its initial centroids,
    then the first batch is refused and [fit] raises that [ValueError]; the
    instance is left with the matrix as [_X], the drawn rows as centroids,
    the fitted flag unchanged, and no iteration noted. *)
Theorem minibatch_batch_out_of_range (X : Matrix) (s : MiniBatch.t) (g : rng) :
  (0 <= MiniBatch.n_clusters s <= Z.of_nat (shape0 X))%Z ->
  ¬ (0 <= MiniBatch.batch_size s <= Z.of_nat (shape0 X))%Z ->
  (1 <= MiniBatch.max_iter s)%Z ->
  ∃ idx g' e w,
    choice_no_replace (shape0 X) (MiniBatch.n_clusters s) g = (Ok idx, g') ∧
    choice_no_replace (shape0 X) (MiniBatch.batch_size s) g' = (Raise e, g') ∧
    MiniBatch.fit X (mkWorld s g []) = (Raise (ValueError e), w) ∧
    MiniBatch.centroids (self w) = Some (take_rows X idx) ∧
    MiniBatch._X (self w) = Some X ∧
    MiniBatch._fitted (self w) = MiniBatch._fitted s ∧
    trace w = [].
Proof.
  intros HK HB Hmax.
  destruct (choice_no_replace_ok _ _ g HK) as (idx&g'&Hch&_).
  destruct (choice_no_replace_out_of_range _ _ g' HB) as (e&He).
  exists idx, g', e.
  rewrite MiniBatch_fit_eq. cbn [self gen trace]. cbv zeta.
  cbn [MiniBatch.n_clusters MiniBatch.set_X]. rewrite Hch.
  cbn [MiniBatch.max_iter MiniBatch.set_X MiniBatch.set_centroids].
  destruct (Z.to_nat (MiniBatch.max_iter s)) as [|n] eqn:Hn; [lia|].
  cbn [for_range]. rewrite MiniBatch_iteration_eq. cbn [self gen trace].
  cbn [MiniBatch.batch_size MiniBatch.set_centroids MiniBatch.set_X].
  rewrite He.
  eexists. split_and!; reflexivity.
Qed.

Lemma minibatch_batch_out_of_range_witness :
  ∃ idx g' e w,
    choice_no_replace 4 2 [0; 1] = (Ok idx, g') ∧
    choice_no_replace 4 5 g' = (Raise e, g') ∧
    MiniBatch.fit four_points (mkWorld (MiniBatch.init 2 5 10) [0; 1] [])
      = (Raise (ValueError e), w) ∧
    MiniBatch.centroids (self w) = Some (take_rows four_points idx) ∧
    MiniBatch._X (self w) = Some four_points ∧
    MiniBatch._fitted (self w) = false ∧
    trace w = [].
Proof.
  apply (minibatch_batch_out_of_range four_points (MiniBatch.init 2 5 10) [0; 1]).
  - vm_compute. split; discriminate.
  - vm_compute. intros [_ H]. by apply H.
  - vm_compute. discriminate.
Defined.

Lemma nearest_no_points f D C :
  broadcastable D (ncols C) = true -> shape0 C ≠ 0 ->
  nearest f (mkMatrix D []) C = Ok [].
Proof.
  intros Hb Hne. unfold nearest, pairwise, argmin_axis1. cbn. rewrite Hb.
  by destruct (Nat.eqb_spec (shape0 C) 0).
Qed.

Lemma MiniBatch_update_no_points batch K ls c :
  (∀ i, select (rows batch) ls i = []) ->
  MiniBatch.update batch K ls c = c.
Proof.
  intros Hsel. unfold MiniBatch.update. destruct c as [D rs]. cbn. f_equal.
  generalize (seq 0 (Z.to_nat K)) as l. intros l. revert rs.
  induction l as [|i l IH]; intros rs; cbn; [done|].
  unfold MiniBatch.update_cluster at 2. rewrite Hsel. cbn. apply IH.
Qed.

Lemma MiniBatch_iteration_empty_batch X w c :
  MiniBatch.batch_size (self w) = 0%Z ->
  MiniBatch.centroids (self w) = Some c ->
  ncols c = ncols X -> shape0 c ≠ 0 ->
  MiniBatch.iteration X w =
  (Ok Continue, mkWorld (self w) (gen w) (trace w ++ [(c, c)])).
Proof.
  intros HB Hc Hcols Hrows. rewrite MiniBatch_iteration_eq.
  rewrite HB, choice_no_replace_zero. cbv zeta.
  unfold MiniBatch.the_centroids. rewrite Hc. cbn [default from_option id].
  unfold take_rows at 1. cbn [fmap list_fmap].
  rewrite nearest_no_points; [|by rewrite Hcols, broadcastable_refl|done].
  rewrite MiniBatch_update_no_points by done.
  do 2 f_equal. destruct w as [s g tr]. cbn in *. f_equal.
  destruct s. cbn in *. by subst.
Qed.

Lemma MiniBatch_loop_empty_batch X c n : ∀ w,
  MiniBatch.batch_size (self w) = 0%Z ->
  MiniBatch.centroids (self w) = Some c ->
  ncols c = ncols X -> shape0 c ≠ 0 ->
  for_range n (MiniBatch.iteration X) w =
  (Ok tt, mkWorld (self w) (gen w) (trace w ++ replicate n (c, c))).
Proof.
  induction n as [|n IH]; intros w HB Hc Hcols Hrows; cbn [for_range].
  - cbn. rewrite app_nil_r. by destruct w.
  - rewrite (MiniBatch_iteration_empty_batch X w c) by done.
    rewrite IH by done. cbn. by rewrite <- app_assoc.
Qed.

(** X5.  Mini-Batch K-Means with [batch_size = 0] and
    [1 <= n_clusters <= N]: every batch is empty, every cluster is skipped,
    and [fit] returns after [max_iter] iterations that each leave the
    centroids as they were: the fitted centroids are the rows drawn at the
    start, and the random source is not asked again. *)
Theorem minibatch_empty_batch (X : Matrix) (s : MiniBatch.t) (g : rng) :
  MiniBatch.batch_size s = 0%Z ->
  (1 <= MiniBatch.n_clusters s <= Z.of_nat (shape0 X))%Z ->
  ∃ idx g' w,
    choice_no_replace (shape0 X) (MiniBatch.n_clusters s) g = (Ok idx, g') ∧
    MiniBatch.fit X (mkWorld s g []) = (Ok tt, w) ∧
    MiniBatch.centroids (self w) = Some (take_rows X idx) ∧
    MiniBatch._fitted (self w) = true ∧
    trace w = replicate (Z.to_nat (MiniBatch.max_iter s))
                (take_rows X idx, take_rows X idx) ∧
    gen w = g'.
Proof.
  intros HB HK.
  destruct (choice_no_replace_ok (shape0 X) (MiniBatch.n_clusters s) g)
    as (idx&g'&Hch&Hlen&_); [lia|].
  exists idx, g'.
  rewrite MiniBatch_fit_eq. cbn [self gen trace]. cbv zeta.
  cbn [MiniBatch.n_clusters MiniBatch.set_X]. rewrite Hch.
  rewrite (MiniBatch_loop_empty_batch X (take_rows X idx)); [|done..|].
  - eexists. split_and!; reflexivity.
  - unfold shape0. cbn. rewrite length_fmap. lia.
Qed.

Lemma minibatch_empty_batch_witness :
  ∃ idx g' w,
    choice_no_replace 4 2 [0; 1] = (Ok idx, g') ∧
    MiniBatch.fit four_points (mkWorld (MiniBatch.init 2 0 3) [0; 1] [])
      = (Ok tt, w) ∧
    MiniBatch.centroids (self w) = Some (take_rows four_points idx) ∧
    MiniBatch._fitted (self w) = true ∧
    trace w = replicate 3 (take_rows four_points idx, take_rows four_points idx) ∧
    gen w = g'.
Proof.
  apply (minibatch_empty_batch four_points (MiniBatch.init 2 0 3) [0; 1]).
  - reflexivity.
  - vm_compute. split; discriminate.
Defined.

(** ** K-Means++: iterations that change nothing *)

Lemma set_centroids_same (s : KMeansPlus.t) c :
  KMeansPlus.centroids s = Some c -> KMeansPlus.set_centroids c s = s.
Proof. destruct s. cbn. by intros ->. Qed.

(** An iteration whose update reproduces the reference set leaves the
    instance as it is. *)
Lemma KMeansPlus_iteration_stationary X w c ls :
  KMeansPlus.centroids (self w) = Some c ->
  nearest norm2 X c = Ok ls ->
  KMeansPlus.update X (KMeansPlus.n_clusters (self w)) ls c = c ->
  KMeansPlus.iteration X w =
  (if KMeansPlus.verbose (self w) && (KMeansPlus.n_clusters (self w) <=? 0)%Z
   then Raise UnboundLocalError else Ok Continue,
   mkWorld (self w) (gen w) (trace w ++ [(c, c)])).
Proof.
  intros Hc Hls Hupd. rewrite KMeansPlus_iteration_eq. cbv zeta.
  unfold KMeansPlus.the_centroids. rewrite Hc. cbn [default from_option id].
  rewrite Hls, Hupd, (set_centroids_same _ _ Hc).
  by destruct (_ && _).
Qed.

(** From then on every iteration does the same: the loop runs its budget,
    or stops at the progress test of its first pass. *)
Lemma KMeansPlus_loop_stationary X c ls n : ∀ w,
  KMeansPlus.centroids (self w) = Some c ->
  nearest norm2 X c = Ok ls ->
  KMeansPlus.update X (KMeansPlus.n_clusters (self w)) ls c = c ->
  let stop := KMeansPlus.verbose (self w) &&
              (KMeansPlus.n_clusters (self w) <=? 0)%Z in
  for_range n (KMeansPlus.iteration X) w =
  (if stop && (0 <? n) then Raise UnboundLocalError else Ok tt,
   mkWorld (self w) (gen w)
     (trace w ++ replicate (if stop then Nat.min 1 n else n) (c, c))).
Proof.
  induction n as [|n IH]; intros w Hc Hls Hupd; cbv zeta; cbn [for_range].
  - msimpl. rewrite andb_false_r. destruct (_ && _); cbn; rewrite app_nil_r;
      by destruct w.
  - rewrite (KMeansPlus_iteration_stationary X w c ls Hc Hls Hupd).
    destruct (_ && _) eqn:Hstop; [done|].
    rewrite IH by done. cbn [self gen trace]. rewrite Hstop. cbn.
    by rewrite <- app_assoc.
Qed.




(** ** K-Means++ without clusters *)

Lemma KMeansPlus_update_no_cluster X K ls c :
  (K <= 0)%Z -> KMeansPlus.update X K ls c = c.
Proof.
  intros HK. unfold KMeansPlus.update.
  replace (Z.to_nat K) with 0 by lia. by destruct c.
Qed.

(** X7.  K-Means++ with [n_clusters <= 0] on a matrix with a row: the
    seeding keeps the single row drawn first and the update loop over
    [range(n_clusters)] has no pass, so no iteration changes that centroid.
    With [verbose] set, the progress test of the first iteration reads the
    unbound loop variable and [fit] raises [UnboundLocalError], the fitted
    flag kept; otherwise [fit] returns after [max_iter] such iterations with
    the flag set. *)
Theorem plus_without_clusters (X : Matrix) (s : KMeansPlus.t) (g : rng) :
  (KMeansPlus.n_clusters s <= 0)%Z ->
  shape0 X ≠ 0 ->
  let c := mkMatrix (ncols X)
             [KMeansPlus.row X (fst (next_below (shape0 X) g))] in
  ∃ r w, KMeansPlus.fit X (mkWorld s g []) = (r, w) ∧
    KMeansPlus.centroids (self w) = Some c ∧
    (KMeansPlus.verbose s = true -> (1 <= KMeansPlus.max_iter s)%Z ->
       r = Raise UnboundLocalError ∧ trace w = [(c, c)] ∧
       KMeansPlus._fitted (self w) = KMeansPlus._fitted s) ∧
    (KMeansPlus.verbose s = false ∨ (KMeansPlus.max_iter s <= 0)%Z ->
       r = Ok tt ∧ KMeansPlus._fitted (self w) = true ∧
       trace w = replicate (Z.to_nat (KMeansPlus.max_iter s)) (c, c)).
Proof.
  intros HK HN c.
  rewrite KMeansPlus_fit_eq. cbn [self gen trace]. cbv zeta.
  rewrite KMeansPlus_initialize_eq. cbn [self gen trace]. cbv zeta.
  unfold choice_one. destruct (Nat.eqb_spec (shape0 X) 0) as [|_]; [done|].
  destruct (next_below (shape0 X) g) as [first g1] eqn:Hfirst.
  cbn [fst] in c.
  cbn [KMeansPlus.n_clusters KMeansPlus.set_centroids KMeansPlus.set_X].
  replace (Z.to_nat (KMeansPlus.n_clusters s - 1)) with 0 by lia.
  cbn [for_range]. msimpl.
  cbn [KMeansPlus.max_iter KMeansPlus.set_centroids KMeansPlus.set_X].
  fold c.
  set (w1 := mkWorld _ g1 []).
  destruct (nearest norm2 X c) as [ls|e] eqn:Hls.
  2:{ unfold nearest, pairwise, argmin_axis1 in Hls. subst c. cbn in Hls.
      by rewrite broadcastable_refl in Hls. }
  rewrite (KMeansPlus_loop_stationary X c ls);
    [|done|done|by apply KMeansPlus_update_no_cluster].
  subst w1. cbn [self gen trace KMeansPlus.verbose KMeansPlus.n_clusters
                 KMeansPlus.set_centroids KMeansPlus.set_X].
  destruct (Z.leb_spec (KMeansPlus.n_clusters s) 0); [|lia].
  rewrite andb_true_r.
  destruct (KMeansPlus.verbose s) eqn:Hv; cbn [andb];
    destruct (Z.to_nat (KMeansPlus.max_iter s)) as [|n] eqn:Hn;
    eexists _, _; (split; [reflexivity|]); cbn;
    (split; [reflexivity|]); split.
  - intros _ ?. lia.
  - intros _. done.
  - intros _ _. done.
  - intros [?|?]; [done|lia].
  - done.
  - intros _. done.
  - done.
  - intros _. done.
Qed.

Lemma plus_without_clusters_witness :
  let c := mkMatrix 2 [[Q_of 0; Q_of 1]] in
  ∃ r w, KMeansPlus.fit four_points (mkWorld (KMeansPlus.init 0 5 true) [1] [])
           = (r, w) ∧
    KMeansPlus.centroids (self w) = Some c ∧
    r = Raise UnboundLocalError ∧ trace w = [(c, c)].
Proof.
  intros c.
  destruct (plus_without_clusters four_points (KMeansPlus.init 0 5 true) [1])
    as (r&w&Hrun&Hc&Hverbose&_); [vm_compute; discriminate|discriminate|].
  exists r, w. split_and!; [exact Hrun|exact Hc|..];
    destruct Hverbose as (Hr&Htr&_);
      [reflexivity|vm_compute; discriminate|exact Hr
      |reflexivity|vm_compute; discriminate|exact Htr].
Defined.

(** ** [fit] starts afresh *)

Section Commute.
Context {T : Type}.
Variable phi : world T -> world T.
Variable body : M T control.
Hypothesis body_commutes : ∀ w,
  body (phi w) = (fst (body w), phi (snd (body w))).

Lemma for_range_commute n : ∀ w,
  for_range n body (phi w) =
  (fst (for_range n body w), phi (snd (for_range n body w))).
Proof.
  induction n as [|n IH]; intros w; cbn [for_range]; [done|].
  rewrite body_commutes.
  destruct (body w) as [[[|]|e] w1]; cbn [fst snd]; [apply IH|done..].
Qed.

End Commute.

Lemma KMeans_iteration_flag b X w :
  KMeans.iteration X (with_flag KMeansClustering b w) =
  (fst (KMeans.iteration X w),
   with_flag KMeansClustering b (snd (KMeans.iteration X w))).
Proof.
  unfold KMeans.iteration, with_flag. msimpl.
  change (KMeans.the_centroids (KMeans.set_fitted b (self w)))
    with (KMeans.the_centroids (self w)).
  destruct (nearest _ _ _); [|done]. cbn.
  by destruct (all_eq _ _).
Qed.

Lemma KMedians_iteration_flag b X w :
  KMedians.iteration X (with_flag KMediansClustering b w) =
  (fst (KMedians.iteration X w),
   with_flag KMediansClustering b (snd (KMedians.iteration X w))).
Proof.
  unfold KMedians.iteration, with_flag. msimpl.
  change (KMedians.the_medians (KMedians.set_fitted b (self w)))
    with (KMedians.the_medians (self w)).
  destruct (nearest _ _ _); [|done]. cbn.
  by destruct (all_eq _ _).
Qed.

Lemma KMeansPlus_iteration_flag b X w :
  KMeansPlus.iteration X (with_flag KMeansClusteringPlus b w) =
  (fst (KMeansPlus.iteration X w),
   with_flag KMeansClusteringPlus b (snd (KMeansPlus.iteration X w))).
Proof.
  rewrite !KMeansPlus_iteration_eq. unfold with_flag. cbv zeta.
  cbn [self gen trace].
  change (KMeansPlus.the_centroids (KMeansPlus.set_fitted b (self w)))
    with (KMeansPlus.the_centroids (self w)).
  destruct (nearest _ _ _); [|done]. cbn.
  by destruct (_ && _).
Qed.

Lemma KMeansPlus_seed_next_flag b X w :
  KMeansPlus.seed_next X (with_flag KMeansClusteringPlus b w) =
  (fst (KMeansPlus.seed_next X w),
   with_flag KMeansClusteringPlus b (snd (KMeansPlus.seed_next X w))).
Proof.
  unfold KMeansPlus.seed_next, with_flag. msimpl.
  change (KMeansPlus.the_centroids (KMeansPlus.set_fitted b (self w)))
    with (KMeansPlus.the_centroids (self w)).
  by destruct (choice_weighted _ _ _) as [[r|e] g'].
Qed.

Lemma MiniBatch_iteration_flag b X w :
  MiniBatch.iteration X (with_flag MiniBatchKMeansClustering b w) =
  (fst (MiniBatch.iteration X w),
   with_flag MiniBatchKMeansClustering b (snd (MiniBatch.iteration X w))).
Proof.
  rewrite !MiniBatch_iteration_eq. unfold with_flag. cbv zeta.
  cbn [self gen trace].
  change (MiniBatch.batch_size (MiniBatch.set_fitted b (self w)))
    with (MiniBatch.batch_size (self w)).
  destruct (choice_no_replace _ _ _) as [[idx|e] g']; [|done].
  change (MiniBatch.the_centroids (MiniBatch.set_fitted b (self w)))
    with (MiniBatch.the_centroids (self w)).
  by destruct (nearest _ _ _).
Qed.

Lemma KMeans_fit_renewed X w :
  fit_outcome KMeansClustering X
    (mkWorld (renewed KMeansClustering (self w)) (gen w) (trace w)) =
  fit_outcome KMeansClustering X w.
Proof.
  unfold fit_outcome. cbn [fit variant_estimator KMeans_estimator].
  rewrite !KMeans_fit_eq. cbn [self gen trace].
  change (KMeans.n_clusters (renewed KMeansClustering (self w)))
    with (KMeans.n_clusters (self w)).
  destruct (choice_no_replace _ _ _) as [[idx|e] g']; [|done]. cbv zeta.
  set (s1 := KMeans.set_X X (KMeans.set_centroids (take_rows X idx) (self w))).
  change (KMeans.set_X X (KMeans.set_centroids (take_rows X idx)
            (renewed KMeansClustering (self w))))
    with (KMeans.set_fitted false s1).
  change (KMeans.max_iter (KMeans.set_fitted false s1)) with (KMeans.max_iter s1).
  change (mkWorld (KMeans.set_fitted false s1) g' (trace w))
    with (with_flag KMeansClustering false (mkWorld s1 g' (trace w))).
  rewrite (for_range_commute _ _ (KMeans_iteration_flag false X)).
  by destruct (for_range _ _ _) as [[[]|e] w2].
Qed.

Lemma KMedians_fit_renewed X w :
  fit_outcome KMediansClustering X
    (mkWorld (renewed KMediansClustering (self w)) (gen w) (trace w)) =
  fit_outcome KMediansClustering X w.
Proof.
  unfold fit_outcome. cbn [fit variant_estimator KMedians_estimator].
  rewrite !KMedians_fit_eq. cbn [self gen trace]. cbv zeta.
  change (KMedians.n_clusters (KMedians.set_X X (renewed KMediansClustering (self w))))
    with (KMedians.n_clusters (KMedians.set_X X (self w))).
  destruct (choice_no_replace _ _ _) as [[idx|e] g']; [|done].
  set (s1 := KMedians.set_medians (take_rows X idx) (KMedians.set_X X (self w))).
  change (KMedians.set_medians (take_rows X idx)
            (KMedians.set_X X (renewed KMediansClustering (self w))))
    with (KMedians.set_fitted false s1).
  change (KMedians.max_iter (KMedians.set_fitted false s1))
    with (KMedians.max_iter s1).
  change (mkWorld (KMedians.set_fitted false s1) g' (trace w))
    with (with_flag KMediansClustering false (mkWorld s1 g' (trace w))).
  rewrite (for_range_commute _ _ (KMedians_iteration_flag false X)).
  by destruct (for_range _ _ _) as [[[]|e] w2].
Qed.

Lemma MiniBatch_fit_renewed X w :
  fit_outcome MiniBatchKMeansClustering X
    (mkWorld (renewed MiniBatchKMeansClustering (self w)) (gen w) (trace w)) =
  fit_outcome MiniBatchKMeansClustering X w.
Proof.
  unfold fit_outcome. cbn [fit variant_estimator MiniBatch_estimator].
  rewrite !MiniBatch_fit_eq. cbn [self gen trace]. cbv zeta.
  change (MiniBatch.n_clusters
            (MiniBatch.set_X X (renewed MiniBatchKMeansClustering (self w))))
    with (MiniBatch.n_clusters (MiniBatch.set_X X (self w))).
  destruct (choice_no_replace _ _ _) as [[idx|e] g']; [|done].
  set (s1 := MiniBatch.set_centroids (take_rows X idx)
               (MiniBatch.set_X X (self w))).
  change (MiniBatch.set_centroids (take_rows X idx)
            (MiniBatch.set_X X (renewed MiniBatchKMeansClustering (self w))))
    with (MiniBatch.set_fitted false s1).
  change (MiniBatch.max_iter (MiniBatch.set_fitted false s1))
    with (MiniBatch.max_iter s1).
  change (mkWorld (MiniBatch.set_fitted false s1) g' (trace w))
    with (with_flag MiniBatchKMeansClustering false (mkWorld s1 g' (trace w))).
  rewrite (for_range_commute _ _ (MiniBatch_iteration_flag false X)).
  by destruct (for_range _ _ _) as [[[]|e] w2].
Qed.

Lemma KMeansPlus_fit_renewed X w :
  fit_outcome KMeansClusteringPlus X
    (mkWorld (renewed KMeansClusteringPlus (self w)) (gen w) (trace w)) =
  fit_outcome KMeansClusteringPlus X w.
Proof.
  unfold fit_outcome. cbn [fit variant_estimator KMeansPlus_estimator].
  rewrite !KMeansPlus_fit_eq. cbn [self gen trace]. cbv zeta.
  rewrite !KMeansPlus_initialize_eq. cbn [self gen trace]. cbv zeta.
  destruct (choice_one _ _) as [[first|e] g']; [|done].
  set (s1 := KMeansPlus.set_centroids
               (mkMatrix (ncols X) [KMeansPlus.row X first])
               (KMeansPlus.set_X X (self w))).
  change (KMeansPlus.set_centroids
            (mkMatrix (ncols X) [KMeansPlus.row X first])
            (KMeansPlus.set_X X (renewed KMeansClusteringPlus (self w))))
    with (KMeansPlus.set_fitted false s1).
  change (KMeansPlus.n_clusters (KMeansPlus.set_fitted false s1))
    with (KMeansPlus.n_clusters s1).
  change (mkWorld (KMeansPlus.set_fitted false s1) g' (trace w))
    with (with_flag KMeansClusteringPlus false (mkWorld s1 g' (trace w))).
  rewrite (for_range_commute _ _ (KMeansPlus_seed_next_flag false X)).
  cbn [instance].
  destruct (for_range _ (KMeansPlus.seed_next X) _) as [[[]|e] w1];
    cbn [fst snd]; [|done].
  change (KMeansPlus.max_iter (self (with_flag KMeansClusteringPlus false w1)))
    with (KMeansPlus.max_iter (self w1)).
  rewrite (for_range_commute _ _ (KMeansPlus_iteration_flag false X)).
  by destruct (for_range _ _ _) as [[[]|e] w2].
Qed.

(** X8.  [fit] starts afresh: what it returns or raises, and the instance,
    random source and trace a returning call leaves, are those of the same
    call on a newly constructed estimator with the same hyperparameters;
    neither a reference set, nor a training set, nor a fitted flag left by
    earlier calls is read. *)
Theorem fit_starts_afresh (v : variant) (X : Matrix) (w : world (instance v)) :
  let afresh := fit X (mkWorld (renewed v (self w)) (gen w) (trace w)) in
  fst (fit X w) = fst afresh ∧
  (is_ok (fst (fit X w)) = true -> snd (fit X w) = snd afresh).
Proof.
  intros afresh.
  assert (Hout : fit_outcome v X
                   (mkWorld (renewed v (self w)) (gen w) (trace w)) =
                 fit_outcome v X w).
  { destruct v.
    - apply KMeans_fit_renewed.
    - apply KMeansPlus_fit_renewed.
    - apply KMedians_fit_renewed.
    - apply MiniBatch_fit_renewed. }
  unfold fit_outcome in Hout. fold afresh in Hout.
  destruct afresh as [r0 w0], (fit X w) as [r w']. cbn [fst snd].
  injection Hout as -> Hw. split; [done|]. intros Hok.
  rewrite Hok in Hw. by injection Hw.
Qed.

Lemma fit_starts_afresh_witness :
  let once := snd (KMeans.fit four_points
                     (mkWorld (KMeans.init 2 10 false) [0; 1] [])) in
  let w := mkWorld (self once) [1; 0] [] in
  let afresh := KMeans.fit four_points
                  (mkWorld (KMeans.init 2 10 false) [1; 0] []) in
  KMeans._fitted (self w) = true ∧
  fst (KMeans.fit four_points w) = fst afresh ∧
  snd (KMeans.fit four_points w) = snd afresh.
Proof.
  intros once w afresh.
  destruct (fit_starts_afresh KMeansClustering four_points w) as [Hr Hw].
  split_and!; [vm_compute; reflexivity|exact Hr|].
  apply Hw. vm_compute. reflexivity.
Defined.

(** ** The shape of the reference set *)

Lemma mean_axis0_length d rs : length (mean_axis0 d rs) = d.
Proof. unfold mean_axis0. by rewrite length_fmap, length_seq. Qed.

Lemma median_axis0_length d rs : length (median_axis0 d rs) = d.
Proof. unfold median_axis0. by rewrite length_fmap, length_seq. Qed.

Lemma take_rows_wf X idx :
  wf_matrix X -> (∀ i, i ∈ idx -> i < shape0 X) -> wf_matrix (take_rows X idx).
Proof.
  intros Hwf Hidx. unfold wf_matrix, take_rows. cbn.
  apply Forall_fmap, Forall_forall. intros i Hi. cbn.
  destruct (lookup_lt_is_Some_2 (rows X) i (Hidx i Hi)) as [x Hx].
  rewrite Hx. cbn. unfold wf_matrix in Hwf. rewrite Forall_lookup in Hwf.
  by eapply Hwf.
Qed.

Lemma row_width X i :
  wf_matrix X -> i < shape0 X -> length (KMeansPlus.row X i) = ncols X.
Proof.
  intros Hwf Hi. unfold KMeansPlus.row.
  destruct (lookup_lt_is_Some_2 (rows X) i Hi) as [x Hx].
  rewrite Hx. cbn. unfold wf_matrix in Hwf. rewrite Forall_lookup in Hwf.
  by eapply Hwf.
Qed.

(** An update in place keeps what holds of the old rows and of the new
    values. *)
Lemma foldl_update_Forall (P : list num -> Prop)
    (step : list (list num) -> nat -> list (list num)) (l : list nat) :
  (∀ c i, Forall P c -> Forall P (step c i)) ->
  ∀ c, Forall P c -> Forall P (foldl step c l).
Proof.
  intros Hstep. induction l as [|i l IH]; intros c Hc; cbn; [done|].
  apply IH, Hstep, Hc.
Qed.

Lemma KMeansPlus_update_wf X K ls c :
  ncols c = ncols X -> wf_matrix c -> wf_matrix (KMeansPlus.update X K ls c).
Proof.
  intros Hcols Hwf. unfold wf_matrix, KMeansPlus.update in *. cbn [ncols rows].
  apply foldl_update_Forall; [|done].
  intros rs i Hrs. unfold KMeansPlus.update_cluster.
  destruct (_ =? 0); [done|].
  apply Forall_insert; [done|]. by rewrite mean_axis0_length.
Qed.

Lemma MiniBatch_update_wf batch K ls c :
  ncols c = ncols batch -> wf_matrix c ->
  wf_matrix (MiniBatch.update batch K ls c).
Proof.
  intros Hcols Hwf. unfold wf_matrix, MiniBatch.update in *. cbn [ncols rows].
  apply foldl_update_Forall; [|done].
  intros rs i Hrs. unfold MiniBatch.update_cluster.
  destruct (0 <? _); [|done].
  apply Forall_insert; [done|]. by rewrite mean_axis0_length.
Qed.

Lemma for_range_keeps {T} (Inv : world T -> Prop) (body : M T control) :
  (∀ w r w', Inv w -> body w = (r, w') -> Inv w') ->
  ∀ n w r w', Inv w -> for_range n body w = (r, w') -> Inv w'.
Proof.
  intros Hbody n w r w' Hw Hrun. revert Hw.
  eapply (for_range_rel (λ w w', Inv w -> Inv w'));
    [| |by eauto|exact Hrun]; auto.
Qed.

Lemma KMeans_iteration_width X w r w' :
  has_width X w -> KMeans.iteration X w = (r, w') -> has_width X w'.
Proof.
  intros (C&HC&Hcols&Hwf) Hrun.
  apply (KMeans_iteration_spec X _ w r w' eq_refl) in Hrun
    as (_&[(e&->&->)|(new&_&(ls&_&Hnew)&[(_&_&Hr)|(_&_&Hr)])]).
  - by exists C.
  - exists C. by rewrite Hr.
  - exists new. split_and!; [done|by subst new|]. subst new.
    unfold wf_matrix. cbn. apply Forall_fmap, Forall_forall. intros i _. cbn.
    apply mean_axis0_length.
Qed.

Lemma KMedians_iteration_width X w r w' :
  has_width X w -> KMedians.iteration X w = (r, w') -> has_width X w'.
Proof.
  intros (C&HC&Hcols&Hwf) Hrun.
  apply (KMedians_iteration_spec X _ w r w' eq_refl) in Hrun
    as (_&[(e&->&->)|(new&_&(ls&_&Hnew)&[(_&_&Hr)|(_&_&Hr)])]).
  - by exists C.
  - exists C. by rewrite Hr.
  - exists new. split_and!; [done|by subst new|]. subst new.
    unfold wf_matrix. cbn. apply Forall_fmap, Forall_forall. intros i _. cbn.
    apply median_axis0_length.
Qed.

Lemma KMeansPlus_iteration_width X w r w' :
  has_width X w -> KMeansPlus.iteration X w = (r, w') -> has_width X w'.
Proof.
  intros (C&HC&Hcols&Hwf). rewrite KMeansPlus_iteration_eq. cbv zeta.
  cbn in HC. unfold KMeansPlus.the_centroids. rewrite HC.
  cbn [default from_option id].
  destruct (nearest _ _ _) as [ls|e]; [|intros; simplify_eq; by exists C].
  intros Hrun.
  assert (Hw' : has_width X
            (mkWorld
               (KMeansPlus.set_centroids
                  (KMeansPlus.update X (KMeansPlus.n_clusters (self w)) ls C)
                  (self w))
               (gen w)
               (trace w ++ [(C, KMeansPlus.update X
                                  (KMeansPlus.n_clusters (self w)) ls C)]))).
  { eexists. split_and!; [reflexivity|done|].
    by apply KMeansPlus_update_wf. }
  by destruct (_ && _); simplify_eq.
Qed.

Lemma MiniBatch_iteration_width X w r w' :
  has_width X w -> MiniBatch.iteration X w = (r, w') -> has_width X w'.
Proof.
  intros (C&HC&Hcols&Hwf). rewrite MiniBatch_iteration_eq.
  cbn in HC. unfold MiniBatch.the_centroids. rewrite HC.
  cbn [default from_option id].
  destruct (choice_no_replace _ _ _) as [[idx|e] g'];
    [|intros; simplify_eq; by exists C].
  cbv zeta.
  destruct (nearest _ _ _) as [ls|e]; [|intros; simplify_eq; by exists C].
  intros Hrun. simplify_eq.
  eexists. split_and!; [reflexivity|done|].
  by apply MiniBatch_update_wf.
Qed.

Lemma KMeansPlus_seed_next_width X w r w' :
  wf_matrix X ->
  has_width X w -> KMeansPlus.seed_next X w = (r, w') -> has_width X w'.
Proof.
  intros HX (C&HC&Hcols&Hwf). unfold KMeansPlus.seed_next. msimpl.
  destruct (choice_weighted _ _ _) as [[next|e] g'] eqn:Hch;
    [|intros; simplify_eq; by exists C].
  intros Hrun. simplify_eq.
  apply choice_weighted_ok in Hch as [Hnext _].
  eexists. split_and!; [reflexivity|done|].
  unfold wf_matrix. cbn [ncols rows].
  cbn in HC. unfold KMeansPlus.the_centroids. rewrite HC.
  cbn [default from_option id].
  apply Forall_app. split; [by rewrite <- Hcols|].
  apply Forall_singleton. by apply row_width.
Qed.

(** A [fit] that returns has installed the matrix, and its reference set is
    rectangular, of the width of the matrix. *)
Lemma fit_reference_width (v : variant) X (s : instance v) g w :
  wf_matrix X ->
  fit X (mkWorld s g []) = (Ok tt, w) ->
  has_width X w ∧ training_set (self w) = Some X.
Proof.
  intros HX Hfit.
  assert (HtX : training_set (self w) = Some X).
  { destruct (decide (v = KMeansClustering)) as [->|Hv];
      [|by eapply fit_training_set].
    cbn in *. rewrite KMeans_fit_eq in Hfit. cbn [self gen trace] in Hfit.
    destruct (choice_no_replace _ _ _) as [[idx|e] g']; [|done].
    cbv zeta in Hfit.
    destruct (for_range _ _ _) as [[[]|e] w2] eqn:Hloop; [|done].
    apply (for_range_frame _ (KMeans_iteration_frame X)) in Hloop
      as (_&_&_&Ht).
    simplify_eq. exact Ht. }
  split; [|done]. clear HtX.
  destruct v; cbn in *.
  - rewrite KMeans_fit_eq in Hfit. cbn [self gen trace] in Hfit.
    destruct (choice_no_replace _ _ _) as [[idx|e] g'] eqn:Hch; [|done].
    apply choice_no_replace_inv in Hch as (_&_&_&Hidx). cbv zeta in Hfit.
    destruct (for_range _ _ _) as [[[]|e] w2] eqn:Hloop; [|done].
    apply (for_range_keeps _ _ (KMeans_iteration_width X)) in Hloop.
    + simplify_eq. destruct Hloop as (C&?&?&?). by exists C.
    + eexists. split_and!; [reflexivity|done|by apply take_rows_wf].
  - rewrite KMeansPlus_fit_eq in Hfit. cbn [self gen trace] in Hfit.
    cbv zeta in Hfit. rewrite KMeansPlus_initialize_eq in Hfit.
    cbn [self gen trace] in Hfit.
    destruct (choice_one _ _) as [[first|e] g'] eqn:Hfirst; [|done].
    apply choice_one_ok in Hfirst. cbv zeta in Hfit.
    destruct (for_range _ (KMeansPlus.seed_next X) _) as [[[]|e] w1] eqn:Hseed;
      [|done].
    apply (for_range_keeps (has_width X) _
             (λ w r w', KMeansPlus_seed_next_width X w r w' HX)) in Hseed.
    + destruct (for_range _ _ _) as [[[]|e] w2] eqn:Hloop; [|done].
      apply (for_range_keeps _ _ (KMeansPlus_iteration_width X)) in Hloop;
        [|done].
      simplify_eq. destruct Hloop as (C&?&?&?). by exists C.
    + eexists. split_and!; [reflexivity|done|].
      unfold wf_matrix. cbn [ncols rows].
      apply Forall_singleton. by apply row_width.
  - rewrite KMedians_fit_eq in Hfit. cbn [self gen trace] in Hfit.
    cbv zeta in Hfit.
    destruct (choice_no_replace _ _ _) as [[idx|e] g'] eqn:Hch; [|done].
    apply choice_no_replace_inv in Hch as (_&_&_&Hidx).
    destruct (for_range _ _ _) as [[[]|e] w2] eqn:Hloop; [|done].
    apply (for_range_keeps _ _ (KMedians_iteration_width X)) in Hloop.
    + simplify_eq. destruct Hloop as (C&?&?&?). by exists C.
    + eexists. split_and!; [reflexivity|done|by apply take_rows_wf].
  - rewrite MiniBatch_fit_eq in Hfit. cbn [self gen trace] in Hfit.
    cbv zeta in Hfit.
    destruct (choice_no_replace _ _ _) as [[idx|e] g'] eqn:Hch; [|done].
    apply choice_no_replace_inv in Hch as (_&_&_&Hidx).
    destruct (for_range _ _ _) as [[[]|e] w2] eqn:Hloop; [|done].
    apply (for_range_keeps _ _ (MiniBatch_iteration_width X)) in Hloop.
    + simplify_eq. destruct Hloop as (C&?&?&?). by exists C.
    + eexists. split_and!; [reflexivity|done|by apply take_rows_wf].
Qed.

(** X9.  After a [fit] that returns, on a rectangular matrix with
    [n_clusters >= 1]: the reference set is a rectangular matrix of exactly
    [n_clusters] rows, as wide as the matrix; and [n_clusters] did not
    exceed the number of rows. *)
Theorem fitted_reference_shape (v : variant) (X : Matrix) (s : instance v)
    (g : rng) (w : world (instance v)) :
  wf_matrix X ->
  (1 <= n_clusters s)%Z ->
  fit X (mkWorld s g []) = (Ok tt, w) ->
  ∃ C, reference_set (self w) = Some C ∧
    Z.of_nat (shape0 C) = n_clusters s ∧ ncols C = ncols X ∧ wf_matrix C ∧
    shape0 C ≤ shape0 X.
Proof.
  intros HX HK Hfit.
  destruct (fit_reference_rows v X s g w HK Hfit) as (_&_&C&HC&Hrows).
  destruct (fit_reference_width v X s g w HX Hfit) as [(C'&HC'&Hcols&Hwf) _].
  rewrite HC in HC'. simplify_eq.
  exists C'. split_and!; [done..|].
  destruct (Z_le_gt_dec (n_clusters s) (Z.of_nat (shape0 X))) as [|Hgt]; [lia|].
  destruct (fit_too_many_raises v X (mkWorld s g []) HX) as (e&w'&Hraise);
    [cbn; lia|].
  rewrite Hfit in Hraise. done.
Qed.

Lemma fitted_reference_shape_witness :
  ∃ C, KMedians.medians
         (self (snd (KMedians.fit four_points
                       (mkWorld (KMedians.init 2 10 false) [0; 1] []))))
       = Some C ∧
    Z.of_nat (shape0 C) = 2%Z ∧ ncols C = 2 ∧ wf_matrix C ∧ shape0 C ≤ 4.
Proof.
  apply (fitted_reference_shape KMediansClustering four_points
           (KMedians.init 2 10 false) [0; 1]).
  - repeat constructor.
  - vm_compute. discriminate.
  - vm_compute. reflexivity.
Defined.

(** X10.  After a [fit] that returns, on a rectangular matrix with
    [n_clusters >= 1]: the property [labels] does not raise; it gives what
    [predict] gives on the matrix just fitted, one label below [n_clusters]
    per row.  [predict] on any matrix answers by the widths alone: if the
    widths broadcast (equal, or one of them 1) it returns one label below
    [n_clusters] per row, otherwise it raises the [ValueError] of the
    subtraction; the instance is unchanged either way. *)
Theorem predict_after_fit (v : variant) (X : Matrix) (s : instance v)
    (g : rng) (w : world (instance v)) (X' : Matrix) :
  wf_matrix X ->
  (1 <= n_clusters s)%Z ->
  fit X (mkWorld s g []) = (Ok tt, w) ->
  (∃ ls, labels w = (Ok ls, w) ∧ predict X w = (Ok ls, w) ∧
     length ls = shape0 X ∧
     Forall (λ l, (Z.of_nat l < n_clusters s)%Z) ls) ∧
  (if broadcastable (ncols X') (ncols X)
   then ∃ ls, predict X' w = (Ok ls, w) ∧ length ls = shape0 X' ∧
              Forall (λ l, (Z.of_nat l < n_clusters s)%Z) ls
   else predict X' w = (Raise (ValueError OperandsNotBroadcastable), w)).
Proof.
  intros HX HK Hfit.
  destruct (fit_reference_rows v X s g w HK Hfit) as (Hf&_&C&HC&Hrows).
  destruct (fit_reference_width v X s g w HX Hfit) as [(C'&HC'&Hcols&_) HtX].
  rewrite HC in HC'. simplify_eq.
  assert (Hpred : ∀ Y, broadcastable (ncols Y) (ncols X) = true ->
            ∃ ls, predict Y w = (Ok ls, w) ∧ length ls = shape0 Y ∧
                  Forall (λ l, (Z.of_nat l < n_clusters s)%Z) ls).
  { intros Y Hb. rewrite (predict_fitted v w Y C' Hf HC).
    destruct (nearest (norm (T := instance v)) Y C') as [ls|e] eqn:Hn.
    - exists ls. split; [done|].
      apply nearest_spec in Hn as (_&Hlen&Hls). split; [done|].
      apply Forall_lookup. intros n l Hl.
      destruct (Hls n l Hl) as (_&_&_&Hlt). lia.
    - exfalso. unfold nearest, pairwise, argmin_axis1 in Hn.
      rewrite Hcols, Hb in Hn.
      destruct (Nat.eqb_spec (shape0 C') 0); [lia|done]. }
  split.
  - destruct (Hpred X (broadcastable_refl _)) as (ls&Hp&Hlen&Hrange).
    exists ls. split_and!; [|done..].
    destruct (observers_via_predict v w X (λ _ _, NaN)) as [Hl _].
    by rewrite Hl.
  - destruct (broadcastable (ncols X') (ncols X)) eqn:Hb; [by apply Hpred|].
    rewrite (predict_fitted v w X' C' Hf HC).
    unfold nearest, pairwise. by rewrite Hcols, Hb.
Qed.

Lemma predict_after_fit_witness :
  let w := snd (KMeans.fit four_points
                  (mkWorld (KMeans.init 2 10 false) [0; 1] [])) in
  (∃ ls, KMeans.labels w = (Ok ls, w) ∧
     KMeans.predict four_points w = (Ok ls, w) ∧
     length ls = 4 ∧ Forall (λ l, (Z.of_nat l < 2)%Z) ls) ∧
  KMeans.predict (mkMatrix 3 [[Q_of 0; Q_of 0; Q_of 0]]) w =
    (Raise (ValueError OperandsNotBroadcastable), w).
Proof.
  intros w.
  apply (predict_after_fit KMeansClustering four_points
           (KMeans.init 2 10 false) [0; 1] w
           (mkMatrix 3 [[Q_of 0; Q_of 0; Q_of 0]])).
  - repeat constructor.
  - vm_compute. discriminate.
  - vm_compute. reflexivity.
Defined.

(** ** The seeds of K-Means++ *)

Lemma py_min_from_not_positive l : ∀ m,
  is_positive m = false -> is_positive (py_min_from m l) = false.
Proof.
  induction l as [|a l IH]; intros m Hm; cbn; [done|].
  by apply IH, min_step_not_positive.
Qed.

Lemma py_min_from_zero l e : ∀ m,
  e ∈ l -> zero e -> is_positive (py_min_from m l) = false.
Proof.
  induction l as [|a l IH]; intros m He Hz; [by apply elem_of_nil in He|].
  apply elem_of_cons in He as [<-|He]; cbn; [|by apply IH].
  apply py_min_from_not_positive.
  destruct e as [q|]; [|done]. cbn in Hz.
  destruct (nlt (Fin q) m) eqn:Hlt.
  - apply not_true_iff_false. rewrite positive_Fin. lra.
  - destruct m as [p|]; [|done].
    apply not_true_iff_false. apply not_true_iff_false in Hlt.
    rewrite positive_Fin. rewrite nlt_Fin in Hlt. lra.
Qed.

(** A zero among the items: Python's [min] is not positive. *)
Lemma py_min_zero l e :
  e ∈ l -> zero e -> is_positive (py_min l) = false.
Proof.
  destruct l as [|a l]; [done|]. intros He Hz. cbn.
  apply elem_of_cons in He as [<-|He]; [|by eapply py_min_from_zero].
  apply py_min_from_not_positive.
  destruct e as [q|]; [|done]. cbn in Hz.
  apply not_true_iff_false. rewrite positive_Fin. lra.
Qed.

(** A row at a positive seeding distance is none of the centroids. *)
Lemma positive_distance_new X c r xr dr :
  wf_matrix X -> (∀ x, x ∈ rows c -> x ∈ rows X) ->
  rows X !! r = Some xr ->
  KMeansPlus.seed_distances X c !! r = Some dr -> is_positive dr = true ->
  xr ∉ rows c.
Proof.
  intros HX Hsub Hxr Hdr Hpos Hin.
  rewrite (seed_distances_lookup X c r xr Hxr) in Hdr. injection Hdr as <-.
  assert (Hwidth : ∀ x, x ∈ rows X -> length x = ncols X).
  { intros x Hx. unfold wf_matrix in HX. rewrite Forall_forall in HX. auto. }
  assert (Hfin : Forall finite xr).
  { destruct (rows c) as [|c0 cs] eqn:Hrows; [by apply elem_of_nil in Hin|].
    cbn in Hpos.
    change (py_min_from ?a ?l) with (py_min (a :: l)) in Hpos.
    destruct (py_min _) as [q|] eqn:Hmin; [|done].
    apply py_min_finite_head in Hmin.
    destruct (norm2 (zip_with nsub xr c0)) as [q0|] eqn:Hn; [|done].
    apply norm2_finite in Hn. apply zip_with_nsub_finite in Hn; [done|].
    rewrite (Hwidth xr) by (by eapply list_elem_of_lookup_2).
    symmetry. apply Hwidth, Hsub. by left. }
  assert (Hzero : is_positive
            (py_min ((λ c, norm2 (zip_with nsub xr c)) <$> rows c)) = false).
  { eapply py_min_zero; [|by apply norm2_self].
    apply list_elem_of_fmap. by exists xr. }
  congruence.
Qed.

Lemma KMeansPlus_seed_next_distinct X w w' :
  wf_matrix X -> distinct_seeds X w ->
  KMeansPlus.seed_next X w = (Ok Continue, w') -> distinct_seeds X w'.
Proof.
  intros HX (C&HC&Hne&Hcols&Hnd&Hsub).
  unfold KMeansPlus.seed_next. msimpl.
  unfold KMeansPlus.the_centroids. rewrite HC. cbn [default from_option id].
  destruct (choice_weighted _ _ _) as [[r|e] g'] eqn:Hch; [|done].
  intros [= <-].
  apply choice_weighted_ok in Hch as (Hr&pr&Hpr&Hpos).
  apply seed_probs_positive in Hpr as (dr&Hdr&Hdpos);
    [|apply seed_distances_nonneg|done].
  destruct (lookup_lt_is_Some_2 (rows X) r Hr) as [xr Hxr].
  assert (Hrow : KMeansPlus.row X r = xr)
    by (unfold KMeansPlus.row; by rewrite Hxr).
  rewrite Hrow.
  pose proof (positive_distance_new X C r xr dr HX Hsub Hxr Hdr Hdpos) as Hnew.
  eexists. split; [reflexivity|]. cbn [ncols rows].
  split_and!.
  - by destruct (rows C).
  - done.
  - apply NoDup_app. split_and!; [done| |apply NoDup_singleton].
    intros x Hx Hx'. apply list_elem_of_singleton in Hx' as ->. done.
  - intros x Hx. apply elem_of_app in Hx as [Hx|Hx]; [auto|].
    apply list_elem_of_singleton in Hx as ->. by eapply list_elem_of_lookup_2.
Qed.

(** X11.  The seeding of K-Means++ never takes a row twice: when
    [_initialize_centroids] returns on a rectangular matrix, the centroids
    are [max 1 n_clusters] rows of the matrix, no two of them the same
    (a row equal to a centroid is at distance 0 and has probability 0). *)
Theorem plus_seeds_are_distinct_rows (X : Matrix) (w w' : world KMeansPlus.t) :
  wf_matrix X ->
  KMeansPlus._initialize_centroids X w = (Ok tt, w') ->
  ∃ C, KMeansPlus.centroids (self w') = Some C ∧
    ncols C = ncols X ∧
    shape0 C = S (Z.to_nat (KMeansPlus.n_clusters (self w) - 1)) ∧
    NoDup (rows C) ∧
    ∀ x, x ∈ rows C -> x ∈ rows X.
Proof.
  intros HX Hinit.
  pose proof (KMeansPlus_initialize_rows _ _ _ Hinit) as Hrows.
  rewrite KMeansPlus_initialize_eq in Hinit.
  destruct (choice_one _ _) as [[first|e] g'] eqn:Hfirst; [|done].
  apply choice_one_ok in Hfirst. cbv zeta in Hinit.
  destruct (lookup_lt_is_Some_2 (rows X) first Hfirst) as [x0 Hx0].
  eapply (for_range_invariant (distinct_seeds X)) in Hinit.
  - destruct Hinit as (C&HC&_&Hcols&Hnd&Hsub). exists C.
    split_and!; [done..| |done|done].
    unfold KMeansPlus.the_centroids in Hrows. by rewrite HC in Hrows.
  - intros ????. by eapply KMeansPlus_seed_next_distinct.
  - apply KMeansPlus_seed_next_no_break.
  - eexists. split; [reflexivity|]. cbn [ncols rows].
    unfold KMeansPlus.row. rewrite Hx0. cbn.
    split_and!; [done|done|apply NoDup_singleton|].
    intros x Hx. apply list_elem_of_singleton in Hx as ->.
    by eapply list_elem_of_lookup_2.
Qed.

Lemma plus_seeds_are_distinct_rows_witness :
  let w := mkWorld (KMeansPlus.init 3 10 false) [2; 0; 1] [] in
  ∃ C, KMeansPlus.centroids
         (self (snd (KMeansPlus._initialize_centroids four_points w))) = Some C ∧
    ncols C = 2 ∧ shape0 C = 3 ∧ NoDup (rows C) ∧
    ∀ x, x ∈ rows C -> x ∈ rows four_points.
Proof.
  intros w.
  apply (plus_seeds_are_distinct_rows four_points w).
  - repeat constructor.
  - vm_compute. reflexivity.
Defined.

(** ** Early stop and NaN *)

Lemma all_eq_row_finite a : ∀ b,
  all_eq_row a b = true -> Forall finite a ∧ Forall finite b.
Proof.
  induction a as [|x a IH]; intros [|y b] Heq; try done.
  cbn in Heq. apply andb_prop in Heq as [Hxy Heq].
  destruct (IH b Heq). destruct x, y; try done.
  split; by constructor.
Qed.

(** Arrays that compare equal everywhere hold no NaN. *)
Lemma all_eq_finite A : ∀ B,
  all_eq A B = true ->
  Forall (Forall finite) A ∧ Forall (Forall finite) B.
Proof.
  induction A as [|r A IH]; intros [|s B] Heq; try done.
  cbn in Heq. apply andb_prop in Heq as [Hrs Heq].
  destruct (IH B Heq). destruct (all_eq_row_finite r s Hrs).
  split; by constructor.
Qed.

Section EarlyExit.
Context {T : Type} `{Estimator T}.
Variable body : M T control.
Variable K : Z.
Variable step : Matrix -> Matrix -> Prop.

Hypothesis body_spec : ∀ w r w',
  n_clusters (self w) = K ->
  body w = (r, w') ->
  n_clusters (self w') = K ∧
  ((∃ e, r = Raise e ∧ w' = w) ∨
   (∃ new, trace w' = trace w ++ [(current w, new)] ∧
      step (current w) new ∧
      ((r = Ok Break ∧ all_eq (rows new) (rows (current w)) = true ∧
        reference_set (self w') = reference_set (self w)) ∨
       (r = Ok Continue ∧ all_eq (rows new) (rows (current w)) = false ∧
        reference_set (self w') = Some new)))).

(** A loop that returns before its budget is used up has left at a pass
    that reproduced the reference set. *)
Lemma checked_loop_early n : ∀ w w',
  n_clusters (self w) = K ->
  is_Some (reference_set (self w)) ->
  for_range n body w = (Ok tt, w') ->
  length (trace w') < n + length (trace w) ->
  ∃ new, last (trace w') = Some (current w', new) ∧
    all_eq (rows new) (rows (current w')) = true ∧
    is_Some (reference_set (self w')).
Proof.
  induction n as [|n IH]; intros w w' HK Href Hrun Hlen; cbn in Hrun.
  - msimpl. simplify_eq. lia.
  - destruct (body w) as [r1 w1] eqn:Hb.
    apply (body_spec _ _ _ HK) in Hb
      as (HK1&[(e&->&->)|(new&Htr1&Hstep&[(->&Heq&Hr)|(->&Hne&Hr)])]);
      cbn in Hrun; [done| |].
    + simplify_eq.
      assert (Hcur : current w' = current w) by (unfold current; by rewrite Hr).
      exists new. rewrite Hcur, Htr1, last_snoc.
      split_and!; [done..|by rewrite Hr].
    + apply (IH w1 w'); [done|by rewrite Hr|done|].
      rewrite Htr1, length_app. cbn. lia.
Qed.

End EarlyExit.

(** A [fit] of K-Means or K-Medians that returns within its budget: the
    last iteration reproduced the reference set it started from. *)
Lemma early_stop_last (v : variant) X (s : instance v) g w :
  v = KMeansClustering ∨ v = KMediansClustering ->
  fit X (mkWorld s g []) = (Ok tt, w) ->
  length (trace w) < Z.to_nat (max_iter s) ->
  ∃ C new, reference_set (self w) = Some C ∧
    last (trace w) = Some (C, new) ∧
    all_eq (rows new) (rows C) = true.
Proof.
  intros Hv Hfit Hlen.
  assert (Hloop : ∃ new, last (trace w) = Some (current w, new) ∧
            all_eq (rows new) (rows (current w)) = true ∧
            is_Some (reference_set (self w))).
  { destruct Hv as [-> | ->]; cbn in *.
    - rewrite KMeans_fit_eq in Hfit. cbn [self gen trace] in Hfit.
      destruct (choice_no_replace _ _ _) as [[idx|e] g']; [|done].
      cbv zeta in Hfit.
      destruct (for_range _ _ _) as [[[]|e] w2] eqn:Hloop; [|done].
      apply (checked_loop_early _ _ _
               (KMeans_iteration_spec X (KMeans.n_clusters s))) in Hloop
        as (new&Hlast&Heq&Hsome); [|done|by eexists|].
      + simplify_eq. by exists new.
      + simplify_eq. cbn in *. lia.
    - rewrite KMedians_fit_eq in Hfit. cbn [self gen trace] in Hfit.
      cbv zeta in Hfit.
      destruct (choice_no_replace _ _ _) as [[idx|e] g']; [|done].
      destruct (for_range _ _ _) as [[[]|e] w2] eqn:Hloop; [|done].
      apply (checked_loop_early _ _ _
               (KMedians_iteration_spec X (KMedians.n_clusters s))) in Hloop
        as (new&Hlast&Heq&Hsome); [|done|by eexists|].
      + simplify_eq. by exists new.
      + simplify_eq. cbn in *. lia. }
  destruct Hloop as (new&Hlast&Heq&[C HC]).
  unfold current in *. rewrite HC in *. cbn in *.
  by exists C, new.
Qed.

(** X12.  K-Means and K-Medians: a [fit] that returns after fewer than
    [max_iter] iterations has stopped at an iteration whose recomputed
    reference set compared equal to the one it started from; the fitted
    reference set is that one, and it holds no NaN. *)
Theorem early_stop_without_nan (v : variant) (X : Matrix) (s : instance v)
    (g : rng) (w : world (instance v)) :
  v = KMeansClustering ∨ v = KMediansClustering ->
  fit X (mkWorld s g []) = (Ok tt, w) ->
  length (trace w) < Z.to_nat (max_iter s) ->
  ∃ C new, reference_set (self w) = Some C ∧
    last (trace w) = Some (C, new) ∧
    all_eq (rows new) (rows C) = true ∧
    Forall (Forall finite) (rows C).
Proof.
  intros Hv Hfit Hlen.
  destruct (early_stop_last v X s g w Hv Hfit Hlen) as (C&new&HC&Hlast&Heq).
  exists C, new. split_and!; [done..|].
  by apply all_eq_finite in Heq as [_ ?].
Qed.

Lemma early_stop_without_nan_witness :
  let w := snd (KMeans.fit four_points
                  (mkWorld (KMeans.init 2 10 false) [0; 1] [])) in
  ∃ C new, KMeans.centroids (self w) = Some C ∧
    last (trace w) = Some (C, new) ∧
    all_eq (rows new) (rows C) = true ∧
    Forall (Forall finite) (rows C).
Proof.
  intros w.
  apply (early_stop_without_nan KMeansClustering four_points
           (KMeans.init 2 10 false) [0; 1] w).
  - by left.
  - vm_compute. reflexivity.
  - vm_compute. lia.
Defined.

(** ** K-Means and K-Medians: a NaN stays *)

Lemma bsub_same_length x c :
  length x = length c -> bsub x c = zip_with nsub x c.
Proof.
  destruct x as [|a [|a' x]], c as [|b [|b' c]]; cbn; done.
Qed.

Lemma norm1_finite v q : norm1 v = Fin q -> Forall finite v.
Proof.
  unfold norm1. intros Hsum. apply nsum_finite in Hsum.
  rewrite Forall_fmap in Hsum. eapply Forall_impl; [exact Hsum|].
  by intros [a|].
Qed.

Lemma nsum_Fin qs : nsum (Fin <$> qs) = Fin (foldl Qplus 0%Q qs).
Proof. apply foldl_nadd_Fin. Qed.

Lemma norm_finite (v : variant) l :
  Forall finite l -> finite (norm (T := instance v) l).
Proof.
  intros Hl. destruct (finite_list l Hl) as [qs ->].
  destruct v; cbn; unfold norm2, norm1; rewrite <- list_fmap_compose.
  - by rewrite (list_fmap_ext _ (Fin ∘ (λ q, q * q)%Q) qs), list_fmap_compose,
      nsum_Fin.
  - by rewrite (list_fmap_ext _ (Fin ∘ (λ q, q * q)%Q) qs), list_fmap_compose,
      nsum_Fin.
  - by rewrite (list_fmap_ext _ (Fin ∘ Qabs) qs), list_fmap_compose, nsum_Fin.
  - by rewrite (list_fmap_ext _ (Fin ∘ (λ q, q * q)%Q) qs), list_fmap_compose,
      nsum_Fin.
Qed.

Lemma norm_nan (v : variant) l :
  ¬ Forall finite l -> norm (T := instance v) l = NaN.
Proof.
  intros Hl. destruct (norm (T := instance v) l) as [q|] eqn:Hn; [|done].
  exfalso. apply Hl.
  destruct v; cbn in Hn;
    [by eapply norm2_finite|by eapply norm2_finite|by eapply norm1_finite
    |by eapply norm2_finite].
Qed.

Lemma zip_with_nsub_finite_r x : ∀ c,
  length x = length c -> Forall finite (zip_with nsub x c) -> Forall finite c.
Proof.
  induction x as [|a x IH]; intros [|b c] Hlen Hz; try done.
  cbn in *. apply Forall_cons in Hz as [Hab Hz]. constructor; [|eauto].
  by destruct a, b.
Qed.

Lemma zip_with_nsub_Fin x : ∀ c,
  Forall finite x -> Forall finite c -> Forall finite (zip_with nsub x c).
Proof.
  induction x as [|a x IH]; intros [|b c] Hx Hc; cbn; try done.
  apply Forall_cons in Hx as [Ha Hx]. apply Forall_cons in Hc as [Hb Hc].
  constructor; [|auto]. by destruct a, b.
Qed.

(** The distance of a point to a reference point is NaN when the reference
    point holds a NaN, and a number when neither holds one. *)
Lemma distance_nan (v : variant) x c :
  length x = length c -> ¬ Forall finite c ->
  norm (T := instance v) (bsub x c) = NaN.
Proof.
  intros Hlen Hc. rewrite bsub_same_length by done.
  apply norm_nan. intros Hz. by apply Hc, (zip_with_nsub_finite_r x).
Qed.

Lemma distance_finite (v : variant) x c :
  length x = length c -> Forall finite x -> Forall finite c ->
  finite (norm (T := instance v) (bsub x c)).
Proof.
  intros Hlen Hx Hc. rewrite bsub_same_length by done.
  by apply norm_finite, zip_with_nsub_Fin.
Qed.

(** Labels against a reference set with a NaN: every point without NaN goes
    to the first reference point that holds one. *)
Lemma nearest_poisoned (v : variant) X K c :
  wf_matrix X -> nan_free X -> (1 <= K)%Z -> shaped X K c -> ¬ nan_free c ->
  ∃ k0, nearest (norm (T := instance v)) X c = Ok ((λ _, k0) <$> rows X).
Proof.
  intros HX HXfin HK (Hcols&Hwf&Hrows) Hnan.
  apply not_Forall_Exists in Hnan; [|apply _].
  apply Exists_exists in Hnan as (ck&Hck&Hcknan).
  destruct (list_find_elem_of (λ r, ¬ Forall finite r) (rows c) ck Hck Hcknan)
    as [[k0 c0] Hfind].
  apply list_find_Some in Hfind as (Hk0&Hc0&Hbefore).
  exists k0. unfold nearest, pairwise, argmin_axis1.
  rewrite Hcols, broadcastable_refl.
  destruct (Nat.eqb_spec (shape0 c) 0) as [H0|_]; [lia|].
  f_equal. rewrite <- list_fmap_compose.
  apply list_fmap_ext. intros n x Hx. cbn.
  assert (Hxlen : length x = ncols X).
  { unfold wf_matrix in HX. rewrite Forall_lookup in HX. by eapply HX. }
  assert (Hxfin : Forall finite x).
  { unfold nan_free in HXfin. rewrite Forall_lookup in HXfin. by eapply HXfin. }
  assert (Hclen : ∀ j cj, rows c !! j = Some cj -> length x = length cj).
  { intros j cj Hj. unfold wf_matrix in Hwf. rewrite Forall_lookup in Hwf.
    rewrite (Hwf j cj Hj). congruence. }
  apply argmin_first_nan.
  - unfold distance_row. rewrite list_lookup_fmap, Hk0. cbn. f_equal.
    apply distance_nan; [by eapply Hclen|done].
  - intros j dj Hj Hdj. unfold distance_row in Hdj.
    apply list_lookup_fmap_Some_1 in Hdj as (cj&->&Hcj).
    apply distance_finite; [by eapply Hclen|done|].
    destruct (decide (Forall finite cj)) as [|Hn]; [done|].
    by destruct (Hbefore j cj Hcj Hj).
Qed.

Lemma select_other rs k0 j :
  j ≠ k0 -> select rs ((λ _, k0) <$> rs) j = [].
Proof.
  intros Hj. unfold select. induction rs as [|r rs IH]; [done|].
  cbn [fmap list_fmap zip_with].
  rewrite filter_cons_False by (cbn; congruence). exact IH.
Qed.

Lemma mean_axis0_empty d : 1 ≤ d -> ¬ Forall finite (mean_axis0 d []).
Proof.
  destruct d as [|d]; [lia|]. intros _ Hf. unfold mean_axis0 in Hf.
  cbn in Hf. by apply Forall_cons in Hf as [? _].
Qed.

Lemma median_axis0_empty d : 1 ≤ d -> ¬ Forall finite (median_axis0 d []).
Proof.
  destruct d as [|d]; [lia|]. intros _ Hf. unfold median_axis0 in Hf.
  cbn in Hf. by apply Forall_cons in Hf as [? _].
Qed.

Lemma recompute_shaped (v : variant) X K ls : shaped X K (recompute v X K ls).
Proof.
  destruct v; cbn; (split_and!; [done| |]);
    unfold wf_matrix, shape0; cbn;
    try (by rewrite length_fmap, length_seq);
    apply Forall_fmap, Forall_forall; intros i _; cbn;
    first [apply mean_axis0_length|apply median_axis0_length].
Qed.

Lemma recompute_lookup (v : variant) X K ls j :
  j < Z.to_nat K ->
  rows (recompute v X K ls) !! j =
  Some (match v with
        | KMediansClustering => median_axis0 (ncols X) (select (rows X) ls j)
        | _ => mean_axis0 (ncols X) (select (rows X) ls j)
        end).
Proof.
  intros Hj. destruct v; cbn; rewrite list_lookup_fmap, lookup_seq_lt by done;
    done.
Qed.

(** With two clusters or more, the reference set recomputed from one with a
    NaN has a NaN again: a cluster is left without points. *)
Lemma poisoned_step (v : variant) X K c :
  wf_matrix X -> nan_free X -> 1 ≤ ncols X -> (2 <= K)%Z ->
  shaped X K c -> ¬ nan_free c ->
  ∃ ls, nearest (norm (T := instance v)) X c = Ok ls ∧
        ¬ nan_free (recompute v X K ls).
Proof.
  intros HX HXfin HD HK Hshape Hnan.
  destruct (nearest_poisoned v X K c HX HXfin ltac:(lia) Hshape Hnan)
    as [k0 Hls].
  eexists. split; [exact Hls|].
  set (j := if decide (k0 = 0) then 1 else 0).
  assert (Hj : j ≠ k0) by (unfold j; case_decide; lia).
  assert (HjK : j < Z.to_nat K) by (unfold j; case_decide; lia).
  intros Hfree. unfold nan_free in Hfree. rewrite Forall_lookup in Hfree.
  pose proof (Hfree j _ (recompute_lookup v X K _ j HjK)) as Hrow.
  rewrite select_other in Hrow by done.
  destruct v; first [by eapply mean_axis0_empty|by eapply median_axis0_empty].
Qed.

Lemma all_eq_poisoned A c : ¬ nan_free c -> all_eq A (rows c) = false.
Proof.
  intros Hnan. apply not_true_iff_false. intros Heq.
  by apply all_eq_finite in Heq as [_ ?].
Qed.

Lemma KMeans_iteration_poisoned X K w :
  wf_matrix X -> nan_free X -> 1 ≤ ncols X -> (2 <= K)%Z ->
  poisoned X K w ->
  ∃ w', KMeans.iteration X w = (Ok Continue, w') ∧
        length (trace w') = S (length (trace w)) ∧ poisoned X K w'.
Proof.
  intros HX HXfin HD HK (HKw&c&Hc&Hshape&Hnan). cbn in HKw, Hc.
  destruct (poisoned_step KMeansClustering X K c HX HXfin HD HK Hshape Hnan)
    as (ls&Hls&Hnew).
  unfold KMeans.iteration, KMeans.the_centroids. msimpl.
  rewrite Hc. cbn [default from_option id]. cbn in Hls. rewrite Hls. msimpl.
  rewrite HKw, (all_eq_poisoned _ c Hnan).
  eexists. split; [reflexivity|]. cbn. split; [rewrite length_app; cbn; lia|].
  split; [done|]. eexists. split; [reflexivity|].
  split; [apply (recompute_shaped KMeansClustering)|done].
Qed.

Lemma KMedians_iteration_poisoned X K w :
  wf_matrix X -> nan_free X -> 1 ≤ ncols X -> (2 <= K)%Z ->
  poisoned X K w ->
  ∃ w', KMedians.iteration X w = (Ok Continue, w') ∧
        length (trace w') = S (length (trace w)) ∧ poisoned X K w'.
Proof.
  intros HX HXfin HD HK (HKw&c&Hc&Hshape&Hnan). cbn in HKw, Hc.
  destruct (poisoned_step KMediansClustering X K c HX HXfin HD HK Hshape Hnan)
    as (ls&Hls&Hnew).
  unfold KMedians.iteration, KMedians.the_medians. msimpl.
  rewrite Hc. cbn [default from_option id]. cbn in Hls. rewrite Hls. msimpl.
  rewrite HKw, (all_eq_poisoned _ c Hnan).
  eexists. split; [reflexivity|]. cbn. split; [rewrite length_app; cbn; lia|].
  split; [done|]. eexists. split; [reflexivity|].
  split; [apply (recompute_shaped KMediansClustering)|done].
Qed.

Section Poisoned.
Context {T : Type} `{Estimator T}.
Variable body : M T control.
Variable K : Z.
Variable X : Matrix.

Hypothesis body_spec : ∀ w r w',
  n_clusters (self w) = K ->
  body w = (r, w') ->
  n_clusters (self w') = K ∧
  ((∃ e, r = Raise e ∧ w' = w) ∨
   (∃ new, trace w' = trace w ++ [(current w, new)] ∧
      shaped X K new ∧
      ((r = Ok Break ∧ all_eq (rows new) (rows (current w)) = true ∧
        reference_set (self w') = reference_set (self w)) ∨
       (r = Ok Continue ∧ all_eq (rows new) (rows (current w)) = false ∧
        reference_set (self w') = Some new)))).

Hypothesis body_poisoned : ∀ w,
  poisoned X K w ->
  ∃ w', body w = (Ok Continue, w') ∧
        length (trace w') = S (length (trace w)) ∧ poisoned X K w'.

(** From a reference set with a NaN the loop runs its whole budget. *)
Lemma poisoned_loop n : ∀ w,
  poisoned X K w ->
  ∃ w', for_range n body w = (Ok tt, w') ∧
        length (trace w') = n + length (trace w) ∧ poisoned X K w'.
Proof.
  induction n as [|n IH]; intros w Hw; cbn [for_range].
  - by exists w.
  - destruct (body_poisoned w Hw) as (w1&->&Hlen&Hw1).
    destruct (IH w1 Hw1) as (w'&Hrun&Hlen'&Hw').
    exists w'. split_and!; [done| |done]. lia.
Qed.

(** Once a pass has computed a reference set with a NaN, the loop runs its
    whole budget and ends with one. *)
Lemma poisoned_from_entry n : ∀ w r w',
  n_clusters (self w) = K ->
  for_range n body w = (r, w') ->
  ∃ tr, trace w' = trace w ++ tr ∧
    ∀ i old new, tr !! i = Some (old, new) -> ¬ nan_free new ->
      r = Ok tt ∧ length tr = n ∧ poisoned X K w'.
Proof.
  induction n as [|n IH]; intros w r w' HK Hrun; cbn in Hrun.
  - msimpl. simplify_eq. exists []. rewrite app_nil_r. split; [done|].
    intros i old new Hi. by destruct i.
  - destruct (body w) as [r1 w1] eqn:Hb.
    apply (body_spec _ _ _ HK) in Hb
      as (HK1&[(e&->&->)|(new&Htr&Hshape&[(->&Heq&Hr)|(->&Hne&Hr)])]);
      cbn in Hrun.
    + simplify_eq. exists []. rewrite app_nil_r. split; [done|].
      intros i old new Hi. by destruct i.
    + simplify_eq. exists [(current w, new)]. split; [done|].
      intros [|i] old new' Hi Hnan; cbn in Hi; [|by destruct i].
      simplify_eq. by apply all_eq_finite in Heq as [? _].
    + pose proof Hrun as Hrun'.
      apply IH in Hrun as (tr&Htr'&Hfrom); [|done].
      exists ((current w, new) :: tr).
      split; [by rewrite Htr', Htr, <- app_assoc|].
      intros [|i] old new' Hi Hnan; cbn in Hi.
      * injection Hi as Hold Hnew. subst old new'.
        destruct (poisoned_loop n w1) as (w2&Hrun2&Hlen&Hw2).
        { split; [done|]. by exists new. }
        rewrite Hrun2 in Hrun'. injection Hrun' as <- <-.
        split_and!; [done| |done].
        cbn. f_equal. rewrite Htr', length_app in Hlen. lia.
      * destruct (Hfrom i old new' Hi Hnan) as (?&?&?).
        split_and!; [done|cbn; lia|done].
Qed.

End Poisoned.

Lemma recomputed_shaped (v : variant) X K old new :
  recomputed v X K old new -> shaped X K new.
Proof. intros (ls&_&->). apply (recompute_shaped v). Qed.

(** X13.  K-Means and K-Medians do not recover from a NaN reference point
    (the mean or median of a cluster without points).  On a rectangular
    matrix without NaN, with a column and with [n_clusters >= 2]: once an
    iteration has computed a reference set with a NaN in it, the
    convergence check never succeeds again; [fit] does not raise, it runs
    all [max_iter] iterations, and the fitted reference set has a NaN. *)
Theorem nan_reference_point_stays (v : variant) (X : Matrix) (s : instance v)
    (g : rng) r w (i : nat) (old new : Matrix) :
  v = KMeansClustering ∨ v = KMediansClustering ->
  wf_matrix X -> nan_free X -> 1 ≤ ncols X ->
  (2 <= n_clusters s)%Z ->
  fit X (mkWorld s g []) = (r, w) ->
  trace w !! i = Some (old, new) ->
  ¬ nan_free new ->
  r = Ok tt ∧
  length (trace w) = Z.to_nat (max_iter s) ∧
  ∃ C, reference_set (self w) = Some C ∧ ¬ nan_free C.
Proof.
  intros Hv HX HXfin HD HK Hfit Hi Hnan.
  destruct Hv as [-> | ->]; cbn in *.
  - rewrite KMeans_fit_eq in Hfit. cbn [self gen trace] in Hfit.
    destruct (choice_no_replace _ _ _) as [[idx|e] g'];
      [|simplify_eq; by destruct i].
    cbv zeta in Hfit.
    destruct (for_range _ _ _) as [r2 w2] eqn:Hloop.
    apply (poisoned_from_entry (KMeans.iteration X) (KMeans.n_clusters s) X)
      in Hloop as (tr&Htr&Hfrom).
    + cbn in Htr.
      assert (trace w = tr) as Hw by (destruct r2 as [[]|]; by simplify_eq).
      rewrite Hw in Hi. destruct (Hfrom i old new Hi Hnan) as (->&Hlen&Hp).
      simplify_eq. cbn. split_and!; [done..|].
      destruct Hp as (_&C&HC&_&HCnan). by exists C.
    + intros w0 r0 w0' HK0 Hb.
      destruct (KMeans_iteration_spec X _ w0 r0 w0' HK0 Hb)
        as (HK1&[?|(new0&?&Hstep&?)]); (split; [done|]); [by left|].
      right. exists new0. split_and!; [done| |done].
      by eapply recomputed_shaped.
    + intros w0. by apply KMeans_iteration_poisoned.
    + done.
  - rewrite KMedians_fit_eq in Hfit. cbn [self gen trace] in Hfit.
    cbv zeta in Hfit.
    destruct (choice_no_replace _ _ _) as [[idx|e] g'];
      [|simplify_eq; by destruct i].
    destruct (for_range _ _ _) as [r2 w2] eqn:Hloop.
    apply (poisoned_from_entry (KMedians.iteration X) (KMedians.n_clusters s) X)
      in Hloop as (tr&Htr&Hfrom).
    + cbn in Htr.
      assert (trace w = tr) as Hw by (destruct r2 as [[]|]; by simplify_eq).
      rewrite Hw in Hi. destruct (Hfrom i old new Hi Hnan) as (->&Hlen&Hp).
      simplify_eq. cbn. split_and!; [done..|].
      destruct Hp as (_&C&HC&_&HCnan). by exists C.
    + intros w0 r0 w0' HK0 Hb.
      destruct (KMedians_iteration_spec X _ w0 r0 w0' HK0 Hb)
        as (HK1&[?|(new0&?&Hstep&?)]); (split; [done|]); [by left|].
      right. exists new0. split_and!; [done| |done].
      by eapply recomputed_shaped.
    + intros w0. by apply KMedians_iteration_poisoned.
    + done.
Qed.

Lemma nan_reference_point_stays_witness :
  let run := KMeans.fit two_zeros (mkWorld (KMeans.init 2 3 false) [] []) in
  fst run = Ok tt ∧ length (trace (snd run)) = 3 ∧
  ∃ C, KMeans.centroids (self (snd run)) = Some C ∧ ¬ nan_free C.
Proof.
  intros run.
  destruct (trace (snd run) !! 0) as [[old new]|] eqn:Hi;
    [|by vm_compute in Hi].
  apply (nan_reference_point_stays KMeansClustering two_zeros
           (KMeans.init 2 3 false) [] (fst run) (snd run) 0 old new).
  - by left.
  - repeat constructor.
  - repeat constructor.
  - cbn. lia.
  - vm_compute. discriminate.
  - vm_compute. reflexivity.
  - exact Hi.
  - vm_compute in Hi. injection Hi as _ <-.
    intros Hfree. unfold nan_free in Hfree. cbn in Hfree.
    apply Forall_cons in Hfree as [_ Hfree].
    apply Forall_cons in Hfree as [Hrow _].
    by apply Forall_cons in Hrow as [? _].
Defined.

(** ** Observers *)

(** X14.  [predict], [labels] and [score] only read: after any sequence
    of such calls the instance, the random source and the trace are what
    they were, and each of the three answers as it would have before the
    sequence. *)
Theorem observers_leave_instance (v : variant) (cs : list (call (instance v)))
    (w : world (instance v)) (X : Matrix) (metric : Evaluator) :
  forallb is_observer cs = true ->
  run cs w = w ∧
  predict X (run cs w) = (fst (predict X w), w) ∧
  labels (run cs w) = (fst (labels w), w) ∧
  score X metric (run cs w) = (fst (score X metric w), w).
Proof.
  intros Hcs.
  assert (Hone : ∀ c : call (instance v),
            is_observer c = true -> ∀ w0, snd (exec c w0) = w0).
  { intros c Hc w0. destruct c as [Y|Y| |Y m|p]; try done; cbn [exec].
    - pose proof (observers_pure v w0 Y (λ _ _, NaN)) as (Hp&_&_).
      by destruct (predict Y w0).
    - pose proof (observers_pure v w0 (mkMatrix 0 []) (λ _ _, NaN)) as (_&Hl&_).
      by destruct (labels w0).
    - pose proof (observers_pure v w0 Y m) as (_&_&Hs).
      by destruct (score Y m w0). }
  assert (Hrun : run cs w = w).
  { induction cs as [|c cs IH]; [done|].
    cbn in Hcs. apply andb_prop in Hcs as [Hc Hcs].
    unfold run in *. cbn [foldl]. rewrite (Hone c Hc). by apply IH. }
  rewrite Hrun.
  pose proof (observers_pure v w X metric) as (Hp&Hl&Hs).
  split_and!; [done| | |].
  - destruct (predict X w); cbn in *; by subst.
  - destruct (labels w); cbn in *; by subst.
  - destruct (score X metric w); cbn in *; by subst.
Qed.

Lemma observers_leave_instance_witness :
  let w := snd (KMeans.fit four_points
                  (mkWorld (KMeans.init 2 10 false) [0; 1] [])) in
  let cs : list (call KMeans.t) :=
    [CallPredict one_point; CallLabels; CallScore four_points (λ _ _, NaN);
     CallPredict four_points] in
  run cs w = w ∧
  KMeans.predict four_points (run cs w) = (Ok [0; 0; 1; 1], w).
Proof.
  intros w cs.
  destruct (observers_leave_instance KMeansClustering cs w four_points
              (λ _ _, NaN)) as (Hrun&Hp&_); [reflexivity|].
  split; [exact Hrun|].
  etransitivity; [exact Hp|]. vm_compute. reflexivity.
Defined.

(** ** One cluster *)

Lemma select_all rs : select rs ((λ _, 0) <$> rs) 0 = rs.
Proof.
  unfold select. induction rs as [|r rs IH]; [done|].
  cbn [fmap list_fmap zip_with].
  rewrite filter_cons_True by done. cbn. f_equal. exact IH.
Qed.

(** Against a single reference point every label is 0. *)
Lemma nearest_single f X c :
  ncols c = ncols X -> shape0 c = 1 ->
  nearest f X c = Ok ((λ _, 0) <$> rows X).
Proof.
  intros Hcols Hrows. unfold nearest, pairwise, argmin_axis1.
  rewrite Hcols, broadcastable_refl, Hrows. cbn [Nat.eqb].
  f_equal. rewrite <- list_fmap_compose.
  apply list_fmap_ext. intros n x _. cbn. unfold distance_row, shape0 in *.
  destruct (rows c) as [|c0 [|c1 cs]]; try done. cbn.
  by destruct (is_nan _).
Qed.

Lemma recompute_single (v : variant) X :
  recompute v X 1 ((λ _, 0) <$> rows X) = center v X.
Proof.
  destruct v;
    unfold recompute, KMeans.new_centroids, KMedians.new_medians, center;
    change (Z.to_nat 1) with 1; cbn [seq fmap list_fmap];
    by rewrite select_all.
Qed.

Lemma KMeans_iteration_single X w c :
  KMeans.centroids (self w) = Some c ->
  KMeans.n_clusters (self w) = 1%Z ->
  ncols c = ncols X -> shape0 c = 1 ->
  KMeans.iteration X w =
  let M := center KMeansClustering X in
  if all_eq (rows M) (rows c)
  then (Ok Break, mkWorld (self w) (gen w) (trace w ++ [(c, M)]))
  else (Ok Continue,
        mkWorld (KMeans.set_centroids M (self w)) (gen w) (trace w ++ [(c, M)])).
Proof.
  intros Hc HK Hcols Hrows. unfold KMeans.iteration, KMeans.the_centroids.
  msimpl. rewrite Hc. cbn [default from_option id].
  rewrite (nearest_single norm2 X c Hcols Hrows). msimpl. rewrite HK.
  change (KMeans.new_centroids X 1 ((λ _, 0) <$> rows X))
    with (recompute KMeansClustering X 1 ((λ _, 0) <$> rows X)).
  rewrite recompute_single. by destruct (all_eq _ _).
Qed.

Lemma KMedians_iteration_single X w c :
  KMedians.medians (self w) = Some c ->
  KMedians.n_clusters (self w) = 1%Z ->
  ncols c = ncols X -> shape0 c = 1 ->
  KMedians.iteration X w =
  let M := center KMediansClustering X in
  if all_eq (rows M) (rows c)
  then (Ok Break, mkWorld (self w) (gen w) (trace w ++ [(c, M)]))
  else (Ok Continue,
        mkWorld (KMedians.set_medians M (self w)) (gen w) (trace w ++ [(c, M)])).
Proof.
  intros Hc HK Hcols Hrows. unfold KMedians.iteration, KMedians.the_medians.
  msimpl. rewrite Hc. cbn [default from_option id].
  rewrite (nearest_single norm1 X c Hcols Hrows). msimpl. rewrite HK.
  change (KMedians.new_medians X 1 ((λ _, 0) <$> rows X))
    with (recompute KMediansClustering X 1 ((λ _, 0) <$> rows X)).
  rewrite recompute_single. by destruct (all_eq _ _).
Qed.

Lemma KMeansPlus_iteration_single X w c :
  KMeansPlus.centroids (self w) = Some c ->
  KMeansPlus.n_clusters (self w) = 1%Z ->
  ncols c = ncols X -> shape0 c = 1 -> shape0 X ≠ 0 ->
  KMeansPlus.iteration X w =
  let M := center KMeansClusteringPlus X in
  (Ok Continue,
   mkWorld (KMeansPlus.set_centroids M (self w)) (gen w) (trace w ++ [(c, M)])).
Proof.
  intros Hc HK Hcols Hrows HN. rewrite KMeansPlus_iteration_eq. cbv zeta.
  unfold KMeansPlus.the_centroids. rewrite Hc. cbn [default from_option id].
  rewrite (nearest_single norm2 X c Hcols Hrows), HK.
  rewrite andb_false_r.
  assert (KMeansPlus.update X 1 ((λ _, 0) <$> rows X) c =
          center KMeansClusteringPlus X) as ->; [|done].
  unfold KMeansPlus.update, center. rewrite Hcols. f_equal.
  change (Z.to_nat 1) with 1. cbn [seq foldl].
  unfold KMeansPlus.update_cluster. rewrite select_all.
  unfold shape0 in *. destruct (rows X) as [|x xs] eqn:HX; [done|].
  cbn [length Nat.eqb]. by destruct (rows c) as [|c0 [|c1 cs]].
Qed.

(** The loop of K-Means and K-Medians for one cluster: it ends with the
    center, or with the sampled row when that row compares equal to it. *)
Lemma KMeans_loop_single X n : ∀ w c,
  KMeans.centroids (self w) = Some c ->
  KMeans.n_clusters (self w) = 1%Z ->
  ncols c = ncols X -> shape0 c = 1 ->
  ∃ w', for_range n (KMeans.iteration X) w = (Ok tt, w') ∧
    length (trace w') ≤ length (trace w) + n ∧
    (KMeans.centroids (self w') = Some (center KMeansClustering X) ∨
     KMeans.centroids (self w') = Some c ∧
     (n = 0 ∨ all_eq (rows (center KMeansClustering X)) (rows c) = true)).
Proof.
  induction n as [|n IH]; intros w c Hc HK Hcols Hrows; cbn [for_range].
  - exists w. split_and!; [done|lia|]. right. auto.
  - rewrite (KMeans_iteration_single X w c Hc HK Hcols Hrows). cbv zeta.
    destruct (all_eq _ _) eqn:Heq.
    + eexists. split_and!; [reflexivity|cbn; rewrite length_app; cbn; lia|].
      right. auto.
    + edestruct (IH (mkWorld (KMeans.set_centroids (center KMeansClustering X)
                                (self w)) (gen w)
                       (trace w ++ [(c, center KMeansClustering X)])))
        as (w'&Hrun&Hlen&Hfinal); [reflexivity|done|done|done|].
      exists w'. split_and!; [done| |].
      * cbn in Hlen. rewrite length_app in Hlen. cbn in Hlen. lia.
      * left. by destruct Hfinal as [?|[? _]].
Qed.

Lemma KMedians_loop_single X n : ∀ w c,
  KMedians.medians (self w) = Some c ->
  KMedians.n_clusters (self w) = 1%Z ->
  ncols c = ncols X -> shape0 c = 1 ->
  ∃ w', for_range n (KMedians.iteration X) w = (Ok tt, w') ∧
    length (trace w') ≤ length (trace w) + n ∧
    (KMedians.medians (self w') = Some (center KMediansClustering X) ∨
     KMedians.medians (self w') = Some c ∧
     (n = 0 ∨ all_eq (rows (center KMediansClustering X)) (rows c) = true)).
Proof.
  induction n as [|n IH]; intros w c Hc HK Hcols Hrows; cbn [for_range].
  - exists w. split_and!; [done|lia|]. right. auto.
  - rewrite (KMedians_iteration_single X w c Hc HK Hcols Hrows). cbv zeta.
    destruct (all_eq _ _) eqn:Heq.
    + eexists. split_and!; [reflexivity|cbn; rewrite length_app; cbn; lia|].
      right. auto.
    + edestruct (IH (mkWorld (KMedians.set_medians (center KMediansClustering X)
                                (self w)) (gen w)
                       (trace w ++ [(c, center KMediansClustering X)])))
        as (w'&Hrun&Hlen&Hfinal); [reflexivity|done|done|done|].
      exists w'. split_and!; [done| |].
      * cbn in Hlen. rewrite length_app in Hlen. cbn in Hlen. lia.
      * left. by destruct Hfinal as [?|[? _]].
Qed.

Lemma KMeansPlus_loop_single X n : ∀ w c,
  KMeansPlus.centroids (self w) = Some c ->
  KMeansPlus.n_clusters (self w) = 1%Z ->
  ncols c = ncols X -> shape0 c = 1 -> shape0 X ≠ 0 ->
  ∃ w', for_range n (KMeansPlus.iteration X) w = (Ok tt, w') ∧
    KMeansPlus.centroids (self w') =
      Some (if n is 0 then c else center KMeansClusteringPlus X).
Proof.
  induction n as [|n IH]; intros w c Hc HK Hcols Hrows HN; cbn [for_range].
  - by exists w.
  - rewrite (KMeansPlus_iteration_single X w c Hc HK Hcols Hrows HN). cbv zeta.
    edestruct (IH (mkWorld (KMeansPlus.set_centroids
                              (center KMeansClusteringPlus X) (self w)) (gen w)
                     (trace w ++ [(c, center KMeansClusteringPlus X)])))
      as (w'&Hrun&Hfinal); [reflexivity|done|done|done|done|].
    exists w'. split; [done|]. rewrite Hfinal. by destruct n.
Qed.

(** X15.  One cluster, K-Means, K-Means++ and K-Medians, on a matrix with
    a row and with [max_iter >= 1]: [fit] returns, and the fitted reference
    point is the mean (for K-Medians the median) of all rows, column by
    column; or, for K-Means and K-Medians, it is still the row drawn at the
    start, when that row compared equal to the mean (median) in the first
    iteration. *)
Theorem single_cluster_center (v : variant) (X : Matrix) (s : instance v)
    (g : rng) :
  v ≠ MiniBatchKMeansClustering ->
  n_clusters s = 1%Z ->
  shape0 X ≠ 0 ->
  (1 <= max_iter s)%Z ->
  ∃ w C, fit X (mkWorld s g []) = (Ok tt, w) ∧
    reference_set (self w) = Some C ∧
    (C = center v X ∨
     v ≠ KMeansClusteringPlus ∧ C ∈ (λ x, mkMatrix (ncols X) [x]) <$> rows X ∧
     all_eq (rows (center v X)) (rows C) = true).
Proof.
  intros Hv HK HN Hmax.
  assert (Hsample : ∃ i g', choice_no_replace (shape0 X) 1 g = (Ok [i], g') ∧
                            i < shape0 X).
  { destruct (choice_no_replace_ok (shape0 X) 1 g) as (idx&g'&Hch&Hlen&_&Hlt);
      [lia|].
    destruct idx as [|i [|j idx]]; try done.
    exists i, g'. split; [done|]. apply Hlt. by left. }
  destruct Hsample as (i&g'&Hch&Hi).
  destruct (lookup_lt_is_Some_2 (rows X) i Hi) as [xi Hxi].
  assert (Htake : take_rows X [i] = mkMatrix (ncols X) [xi]).
  { unfold take_rows. cbn. by rewrite Hxi. }
  assert (Hin : mkMatrix (ncols X) [xi] ∈ (λ x, mkMatrix (ncols X) [x]) <$> rows X).
  { apply list_elem_of_fmap. exists xi. split; [done|].
    by eapply list_elem_of_lookup_2. }
  destruct (Z.to_nat (max_iter s)) as [|n] eqn:Hn; [lia|].
  destruct v; cbn in *; [| | |done].
  - rewrite KMeans_fit_eq. cbn [self gen trace]. rewrite HK, Hch. cbv zeta.
    cbn [KMeans.max_iter KMeans.set_X KMeans.set_centroids]. rewrite Hn, Htake.
    edestruct (KMeans_loop_single X (S n)) as (w'&->&_&Hfinal);
      [reflexivity|exact HK|reflexivity|reflexivity|].
    destruct Hfinal as [Hc|[Hc [?|Heq]]]; [|done|];
      (eexists _, _; split; [reflexivity|]; split; [exact Hc|]);
      [by left|right; auto].
  - rewrite KMeansPlus_fit_eq. cbn [self gen trace]. cbv zeta.
    rewrite KMeansPlus_initialize_eq. cbn [self gen trace].
    unfold choice_one. destruct (Nat.eqb_spec (shape0 X) 0); [done|].
    destruct (next_below (shape0 X) g) as [first g1]. cbv zeta.
    cbn [KMeansPlus.n_clusters KMeansPlus.set_centroids KMeansPlus.set_X].
    rewrite HK. change (Z.to_nat (1 - 1)) with 0. cbn [for_range]. msimpl.
    cbn [KMeansPlus.max_iter KMeansPlus.set_centroids KMeansPlus.set_X].
    rewrite Hn.
    edestruct (KMeansPlus_loop_single X (S n)) as (w'&->&Hfinal);
      [reflexivity|exact HK|reflexivity|reflexivity|done|].
    eexists _, _. split; [reflexivity|]. cbn. split; [exact Hfinal|]. by left.
  - rewrite KMedians_fit_eq. cbn [self gen trace]. cbv zeta.
    cbn [KMedians.n_clusters KMedians.set_X]. rewrite HK, Hch.
    cbn [KMedians.max_iter KMedians.set_X KMedians.set_medians].
    rewrite Hn, Htake.
    edestruct (KMedians_loop_single X (S n)) as (w'&->&_&Hfinal);
      [reflexivity|exact HK|reflexivity|reflexivity|].
    destruct Hfinal as [Hc|[Hc [?|Heq]]]; [|done|];
      (eexists _, _; split; [reflexivity|]; split; [exact Hc|]);
      [by left|right; auto].
Qed.

Lemma single_cluster_center_witness :
  ∃ w C, KMeans.fit four_points (mkWorld (KMeans.init 1 10 false) [2] [])
           = (Ok tt, w) ∧
    KMeans.centroids (self w) = Some C ∧
    (C = center KMeansClustering four_points ∨
     KMeansClustering ≠ KMeansClusteringPlus ∧
     C ∈ (λ x, mkMatrix 2 [x]) <$> rows four_points ∧
     all_eq (rows (center KMeansClustering four_points)) (rows C) = true).
Proof.
  apply (single_cluster_center KMeansClustering four_points
           (KMeans.init 1 10 false) [2]).
  - discriminate.
  - reflexivity.
  - discriminate.
  - vm_compute. discriminate.
Defined.

(** ** A converged fit is a fixed point *)




(** ** Sums of rationals *)

Lemma sumQ_cons x l : sumQ (x :: l) = (x + sumQ l)%Q.
Proof. reflexivity. Qed.

Lemma sumQ_fmap_cons {A} (f : A -> Q) x l :
  sumQ (f <$> x :: l) = (f x + sumQ (f <$> l))%Q.
Proof. reflexivity. Qed.

Lemma foldl_Qplus_sumQ l : ∀ a, (foldl Qplus a l == a + sumQ l)%Q.
Proof.
  induction l as [|x l IH]; intros a; cbn [foldl].
  - unfold sumQ. cbn [foldr]. ring.
  - rewrite IH, sumQ_cons. ring.
Qed.

Lemma sumQ_fmap_le {A} (f g : A -> Q) l :
  (∀ x, x ∈ l -> (f x <= g x)%Q) -> (sumQ (f <$> l) <= sumQ (g <$> l))%Q.
Proof.
  induction l as [|x l IH]; intros Hfg; [apply Qle_refl|].
  rewrite !sumQ_fmap_cons.
  assert (f x <= g x)%Q by (apply Hfg; by left).
  assert (sumQ (f <$> l) <= sumQ (g <$> l))%Q
    by (apply IH; intros y Hy; apply Hfg; by right).
  lra.
Qed.

Lemma sumQ_fmap_eq {A} (f g : A -> Q) l :
  (∀ x, x ∈ l -> (f x == g x)%Q) -> (sumQ (f <$> l) == sumQ (g <$> l))%Q.
Proof.
  induction l as [|x l IH]; intros Hfg; [reflexivity|].
  rewrite !sumQ_fmap_cons.
  assert (f x == g x)%Q by (apply Hfg; by left).
  assert (sumQ (f <$> l) == sumQ (g <$> l))%Q
    by (apply IH; intros y Hy; apply Hfg; by right).
  lra.
Qed.

Lemma sumQ_fmap_plus {A} (f g : A -> Q) l :
  (sumQ ((λ x, f x + g x)%Q <$> l) == sumQ (f <$> l) + sumQ (g <$> l))%Q.
Proof.
  induction l as [|x l IH].
  - unfold sumQ. cbn [fmap list_fmap foldr]. ring.
  - rewrite !sumQ_fmap_cons, IH. ring.
Qed.

Lemma sumQ_fmap_zero {A} (l : list A) : (sumQ ((λ _, 0%Q) <$> l) == 0)%Q.
Proof.
  induction l as [|x l IH]; [reflexivity|].
  rewrite sumQ_fmap_cons, IH. ring.
Qed.

(** Sums over two lists may be taken in either order. *)
Lemma sumQ_exchange {A B} (f : A -> B -> Q) (P : list A) (J : list B) :
  (sumQ ((λ x, sumQ ((λ j, f x j) <$> J)) <$> P) ==
   sumQ ((λ j, sumQ ((λ x, f x j) <$> P)) <$> J))%Q.
Proof.
  induction P as [|x P IH].
  - cbn [fmap list_fmap]. rewrite sumQ_fmap_zero. reflexivity.
  - rewrite sumQ_fmap_cons, IH.
    rewrite <- (sumQ_fmap_plus (λ j, f x j) (λ j, sumQ ((λ x0, f x0 j) <$> P)) J).
    apply sumQ_fmap_eq. intros j _. by rewrite sumQ_fmap_cons.
Qed.

(** ** The mean minimises the sum of squares *)

Lemma sum_squares_shift (l : list Q) (m c : Q) :
  (sumQ ((λ a, (a - c) * (a - c)) <$> l) ==
   sumQ ((λ a, (a - m) * (a - m)) <$> l)
   + 2 * (m - c) * sumQ ((λ a, a - m) <$> l)
   + inject_Z (Z.of_nat (length l)) * ((m - c) * (m - c)))%Q.
Proof.
  induction l as [|a l IH].
  - unfold sumQ. cbn [fmap list_fmap foldr length]. ring.
  - rewrite !sumQ_fmap_cons, IH. cbn [length].
    rewrite Nat2Z.inj_succ, <- Z.add_1_r, inject_Z_plus. ring.
Qed.

Lemma sum_centered (l : list Q) (m : Q) :
  (sumQ ((λ a, a - m) <$> l) ==
   sumQ l - inject_Z (Z.of_nat (length l)) * m)%Q.
Proof.
  induction l as [|a l IH].
  - unfold sumQ. cbn [fmap list_fmap foldr length]. ring.
  - rewrite sumQ_fmap_cons, sumQ_cons, IH. cbn [length].
    rewrite Nat2Z.inj_succ, <- Z.add_1_r, inject_Z_plus. ring.
Qed.

Lemma Qsquare_nonneg (d : Q) : (0 <= d * d)%Q.
Proof. nra. Qed.

(** Among all [c], the sum of the squares of the differences to [c] is
    least at the mean. *)
Lemma mean_minimises (l : list Q) (m c : Q) :
  (inject_Z (Z.of_nat (length l)) * m == sumQ l)%Q ->
  (sumQ ((λ a, (a - m) * (a - m)) <$> l) <=
   sumQ ((λ a, (a - c) * (a - c)) <$> l))%Q.
Proof.
  intros Hm.
  pose proof (sum_squares_shift l m c) as Hshift.
  pose proof (sum_centered l m) as Hcentered.
  assert (Hzero : (sumQ ((λ a, a - m) <$> l) == 0)%Q) by lra.
  rewrite Hzero in Hshift.
  assert (Hn : (0 <= inject_Z (Z.of_nat (length l)))%Q).
  { change 0%Q with (inject_Z 0). rewrite <- Zle_Qle. lia. }
  pose proof (Qsquare_nonneg (m - c)) as Hsq.
  pose proof (Qmult_le_0_compat _ _ Hn Hsq) as Hprod.
  rewrite Hshift. lra.
Qed.

(** ** The dispersion as a rational *)

Lemma nsum_val l :
  Forall finite l -> ∃ q, nsum l = Fin q ∧ (q == sumQ (val <$> l))%Q.
Proof.
  intros Hl. destruct (finite_list l Hl) as [qs ->].
  exists (foldl Qplus 0%Q qs). split; [apply nsum_Fin|].
  rewrite foldl_Qplus_sumQ, <- list_fmap_compose.
  rewrite (list_fmap_ext (val ∘ Fin) id qs) by done.
  rewrite list_fmap_id. ring.
Qed.

Lemma squares_val x : ∀ c,
  Forall finite x -> Forall finite c ->
  val <$> ((λ a, nmul a a) <$> zip_with nsub x c) =
  zip_with (λ a b, (val a - val b) * (val a - val b))%Q x c.
Proof.
  induction x as [|a x IH]; intros [|b c] Hx Hc; try done.
  apply Forall_cons in Hx as [Ha Hx]. apply Forall_cons in Hc as [Hb Hc].
  cbn. rewrite <- IH by done. f_equal. by destruct a, b.
Qed.

(** The squared distance the code computes, for points without NaN. *)
Lemma norm2_val x c :
  length x = length c -> Forall finite x -> Forall finite c ->
  ∃ q, norm2 (bsub x c) = Fin q ∧ (q == d2 x c)%Q.
Proof.
  intros Hlen Hx Hc. rewrite bsub_same_length by done. unfold norm2.
  destruct (nsum_val ((λ a, nmul a a) <$> zip_with nsub x c)) as (q&Hq&Hval).
  { apply Forall_fmap. eapply Forall_impl; [by apply zip_with_nsub_Fin|].
    by intros [a|]. }
  exists q. split; [done|]. by rewrite Hval, squares_val.
Qed.

Lemma lookup_row_wf (C : Matrix) l :
  wf_matrix C -> nan_free C -> l < shape0 C ->
  ∃ c, rows C !! l = Some c ∧ length c = ncols C ∧ Forall finite c.
Proof.
  intros Hwf Hfin Hl.
  destruct (lookup_lt_is_Some_2 (rows C) l Hl) as [c Hc]. exists c.
  unfold wf_matrix in Hwf. unfold nan_free in Hfin.
  rewrite Forall_lookup in Hwf, Hfin. eauto.
Qed.

(** The dispersion is a number when nothing is NaN, and [costQ] is its
    value. *)
Lemma cost_val X C ls :
  wf_matrix X -> nan_free X ->
  ncols C = ncols X -> wf_matrix C -> nan_free C ->
  Forall (λ l, l < shape0 C) ls ->
  ∃ q, cost norm2 X C ls = Fin q ∧ (q == costQ (rows X) (rows C) ls)%Q.
Proof.
  intros HX HXfin Hcols HC HCfin Hls. unfold cost, costQ.
  assert (Hterms : ∀ x l, x ∈ rows X -> l ∈ ls ->
            ∃ q, norm2 (bsub x (default [] (rows C !! l))) = Fin q ∧
                 (q == d2 x (default [] (rows C !! l)))%Q).
  { intros x l Hx Hl. rewrite Forall_forall in Hls.
    destruct (lookup_row_wf C l HC HCfin (Hls l Hl)) as (c&->&Hclen&Hcfin).
    cbn. unfold wf_matrix in HX. unfold nan_free in HXfin.
    rewrite Forall_forall in HX, HXfin.
    apply norm2_val; [|by apply HXfin|done].
    rewrite (HX x Hx). congruence. }
  clear Hls HX HXfin HC HCfin Hcols.
  destruct (nsum_val (zip_with (λ x l, norm2 (bsub x (default [] (rows C !! l))))
                        (rows X) ls)) as (q&Hq&Hval).
  { apply Forall_lookup. intros n a Ha.
    apply lookup_zip_with_Some in Ha as (x&l&->&Hx&Hl).
    destruct (Hterms x l) as (q&Hq&_);
      [by eapply list_elem_of_lookup_2..|].
    unfold finite. by rewrite Hq. }
  exists q. split; [done|]. rewrite Hval. clear Hq Hval q.
  revert Hterms. generalize (rows X) as P. intros P. revert ls.
  induction P as [|x P IH]; intros [|l ls] Hterms; try reflexivity.
  cbn [zip_with fmap list_fmap]. rewrite !sumQ_cons.
  destruct (Hterms x l) as (q&Hq&Hval); [by left..|].
  rewrite Hq. cbn [val]. rewrite Hval.
  rewrite (IH ls); [reflexivity|].
  intros x' l' Hx' Hl'. apply Hterms; by right.
Qed.

(** ** Regrouping the dispersion by cluster *)

Lemma select_cons r rs l ls k :
  select (r :: rs) (l :: ls) k =
  if decide (l = k) then r :: select rs ls k else select rs ls k.
Proof.
  unfold select. cbn [zip_with]. case_decide.
  - by rewrite filter_cons_True.
  - by rewrite filter_cons_False.
Qed.

Lemma select_nil_r rs k : select rs [] k = [].
Proof. unfold select. by destruct rs. Qed.

Lemma select_elem_of rs ls k x : x ∈ select rs ls k -> x ∈ rs.
Proof.
  revert ls. induction rs as [|r rs IH]; intros [|l ls] Hx;
    try (by apply elem_of_nil in Hx).
  rewrite select_cons in Hx. case_decide.
  - apply elem_of_cons in Hx as [->|Hx]; [by left|]. right. eauto.
  - right. eauto.
Qed.

Lemma sumQ_indicator (f : nat -> Q) l n : ∀ a,
  (sumQ ((λ k, if decide (l = k) then f k else 0%Q) <$> seq a n) ==
   if decide (a ≤ l < a + n)%nat then f l else 0%Q)%Q.
Proof.
  induction n as [|n IH]; intros a; cbn [seq].
  - case_decide; [lia|reflexivity].
  - rewrite sumQ_fmap_cons, IH.
    repeat case_decide; first [lia|subst; ring].
Qed.

(** The dispersion is the sum over the clusters of the dispersion within
    each. *)
Lemma costQ_by_cluster C K P : ∀ ls,
  Forall (λ l, l < K) ls ->
  (costQ P C ls ==
   sumQ ((λ k, sumQ ((λ x, d2 x (default [] (C !! k))) <$> select P ls k))
           <$> seq 0 K))%Q.
Proof.
  unfold costQ.
  induction P as [|x P IH]; intros ls Hls.
  - cbn [zip_with]. rewrite (sumQ_fmap_eq _ (λ _, 0%Q)).
    + by rewrite sumQ_fmap_zero.
    + intros k _. unfold select. reflexivity.
  - destruct ls as [|l ls].
    + cbn [zip_with]. rewrite (sumQ_fmap_eq _ (λ _, 0%Q)).
      * by rewrite sumQ_fmap_zero.
      * intros k _. rewrite select_nil_r. reflexivity.
    + apply Forall_cons in Hls as [Hl Hls].
      cbn [zip_with]. rewrite sumQ_cons, (IH ls Hls).
      rewrite (sumQ_fmap_eq
                 (λ k, sumQ ((λ x0, d2 x0 (default [] (C !! k)))
                               <$> select (x :: P) (l :: ls) k))
                 (λ k, (if decide (l = k) then d2 x (default [] (C !! k)) else 0)
                       + sumQ ((λ x0, d2 x0 (default [] (C !! k)))
                                 <$> select P ls k))%Q).
      * rewrite sumQ_fmap_plus.
        rewrite (sumQ_indicator (λ k, d2 x (default [] (C !! k))) l K 0).
        rewrite decide_True by lia. reflexivity.
      * intros k _. rewrite select_cons. case_decide.
        -- by rewrite sumQ_fmap_cons.
        -- ring.
Qed.

(** ** The update step does not increase the dispersion *)

Lemma zip_with_seq {A} (g : num -> num -> A) x m d :
  length x = d -> length m = d ->
  zip_with g x m =
  (λ j, g (default NaN (x !! j)) (default NaN (m !! j))) <$> seq 0 d.
Proof.
  intros Hx Hm. apply list_eq. intros i.
  rewrite lookup_zip_with, list_lookup_fmap.
  destruct (decide (i < d)) as [Hi|Hi].
  - rewrite lookup_seq_lt by done. cbn.
    destruct (lookup_lt_is_Some_2 x i) as [a ->]; [lia|].
    destruct (lookup_lt_is_Some_2 m i) as [b ->]; [lia|]. done.
  - rewrite lookup_seq_ge by lia.
    rewrite (lookup_ge_None_2 x i) by lia. done.
Qed.

Lemma column_finite j pts d :
  j < d -> Forall (λ r, length r = d) pts -> Forall (Forall finite) pts ->
  Forall finite (column j pts).
Proof.
  intros Hj Hlen Hfin. unfold column. apply Forall_fmap, Forall_lookup.
  intros n r Hr. cbn.
  rewrite Forall_lookup in Hlen, Hfin.
  destruct (lookup_lt_is_Some_2 r j) as [a Ha]; [rewrite (Hlen n r Hr); lia|].
  rewrite Ha. cbn. specialize (Hfin n r Hr). rewrite Forall_lookup in Hfin.
  by eapply Hfin.
Qed.

(** The entries of the mean of points without NaN. *)
Lemma mean_axis0_val j pts d :
  j < d -> pts ≠ [] ->
  Forall (λ r, length r = d) pts -> Forall (Forall finite) pts ->
  ∃ q, mean_axis0 d pts !! j = Some (Fin q) ∧
    (inject_Z (Z.of_nat (length pts)) * q == sumQ (val <$> column j pts))%Q.
Proof.
  intros Hj Hne Hlen Hfin. unfold mean_axis0.
  rewrite list_lookup_fmap, lookup_seq_lt by done. cbn.
  destruct (nsum_val (column j pts)) as (s&->&Hs);
    [by eapply column_finite|].
  unfold of_nat, ndiv.
  assert (Hn : ¬ (inject_Z (Z.of_nat (length pts)) == 0)%Q).
  { change 0%Q with (inject_Z 0). rewrite inject_Z_injective.
    destruct pts; [done|]. cbn. lia. }
  destruct (Qeq_bool _ 0) eqn:Hz; [by apply Qeq_bool_iff in Hz|].
  eexists. split; [reflexivity|]. rewrite <- Hs. field. exact Hn.
Qed.

(** Within one cluster: the mean of the points is at least as good a
    reference point as any other. *)
Lemma cluster_mean_minimises pts d c :
  Forall (λ r, length r = d) pts -> Forall (Forall finite) pts ->
  length c = d ->
  (sumQ ((λ x, d2 x (mean_axis0 d pts)) <$> pts) <=
   sumQ ((λ x, d2 x c) <$> pts))%Q.
Proof.
  intros Hlen Hfin Hc.
  destruct (decide (pts = [])) as [->|Hne]; [apply Qle_refl|].
  set (g := λ a b : num, ((val a - val b) * (val a - val b))%Q).
  assert (Hd2 : ∀ m, length m = d -> ∀ x, x ∈ pts ->
            d2 x m = sumQ ((λ j, g (default NaN (x !! j)) (default NaN (m !! j)))
                             <$> seq 0 d)).
  { intros m Hm x Hx. unfold d2. rewrite Forall_forall in Hlen.
    exact (f_equal sumQ (zip_with_seq g x m d (Hlen x Hx) Hm)). }
  rewrite (sumQ_fmap_eq _ _ pts
             (λ x Hx, eq_ind_r (λ q, q == _)%Q (Qeq_refl _)
                        (Hd2 (mean_axis0 d pts) (mean_axis0_length d pts) x Hx))).
  rewrite (sumQ_fmap_eq (λ x, d2 x c) _ pts
             (λ x Hx, eq_ind_r (λ q, q == _)%Q (Qeq_refl _) (Hd2 c Hc x Hx))).
  rewrite (sumQ_exchange
             (λ x j, g (default NaN (x !! j))
                       (default NaN (mean_axis0 d pts !! j))) pts (seq 0 d)).
  rewrite (sumQ_exchange
             (λ x j, g (default NaN (x !! j)) (default NaN (c !! j)))
             pts (seq 0 d)).
  apply sumQ_fmap_le. intros j Hj. apply elem_of_seq in Hj.
  destruct (mean_axis0_val j pts d) as (q&Hq&Hmean); [lia|done..|].
  rewrite Hq. cbn [default from_option id].
  pose proof (mean_minimises (val <$> column j pts) q
                (val (default NaN (c !! j)))) as Hmin.
  rewrite length_fmap in Hmin. unfold column in Hmin at 1.
  rewrite length_fmap in Hmin. specialize (Hmin Hmean).
  unfold column in Hmin. rewrite <- !list_fmap_compose in Hmin.
  exact Hmin.
Qed.

(** ** The labels of [predict] are the best ones *)

Lemma nge_finite a b : nge a b = true -> finite a ∧ finite b.
Proof. by destruct a, b. Qed.

Lemma nge_val a b : nge a b = true -> (val b <= val a)%Q.
Proof. destruct a, b; try done. cbn. apply Qle_bool_iff. Qed.

(** Sums compare as their terms do. *)
Lemma nsum_nge l1 l2 :
  Forall2 (λ a b, nge a b = true) l1 l2 -> nge (nsum l1) (nsum l2) = true.
Proof.
  intros H12.
  assert (H1 : Forall finite l1).
  { eapply Forall2_Forall_l; [exact H12|].
    apply Forall_true. intros a b Hab. by apply nge_finite in Hab as []. }
  assert (H2 : Forall finite l2).
  { eapply Forall2_Forall_r; [exact H12|].
    apply Forall_true. intros a b Hab. by apply nge_finite in Hab as []. }
  destruct (nsum_val l1 H1) as (q1&->&Hq1).
  destruct (nsum_val l2 H2) as (q2&->&Hq2).
  apply nge_Fin. rewrite Hq1, Hq2. clear q1 q2 Hq1 Hq2 H1 H2.
  induction H12 as [|a b l1 l2 Hab _ IH]; [apply Qle_refl|].
  cbn [fmap list_fmap]. rewrite !sumQ_cons.
  apply nge_val in Hab. lra.
Qed.

(** For fixed reference points, no labelling has a smaller dispersion than
    the labels of the nearest reference points. *)
Lemma nearest_minimises (v : variant) X C ls other :
  wf_matrix X -> nan_free X -> wf_matrix C -> nan_free C ->
  ncols C = ncols X ->
  nearest (norm (T := instance v)) X C = Ok ls ->
  length other = shape0 X -> Forall (λ l, l < shape0 C) other ->
  nge (cost (norm (T := instance v)) X C other)
      (cost (norm (T := instance v)) X C ls) = true.
Proof.
  intros HX HXfin HC HCfin Hcols Hls Hlen Hother.
  apply nearest_spec in Hls as (Hpos&Hlen'&Hspec).
  unfold cost. apply nsum_nge, Forall2_same_length_lookup_2.
  { rewrite !length_zip_with. unfold shape0 in *. lia. }
  intros n a b Ha Hb.
  apply lookup_zip_with_Some in Ha as (x&l&->&Hx&Hl).
  apply lookup_zip_with_Some in Hb as (x'&l'&->&Hx'&Hl').
  assert (x' = x) as -> by congruence. clear Hx'.
  destruct (Hspec n l' Hl') as (x''&Hx''&->&_).
  assert (x'' = x) as -> by congruence. clear Hx''.
  assert (Hfin : Forall finite (distance_row (norm (T := instance v)) x C)).
  { unfold distance_row. apply Forall_fmap, Forall_forall. intros c Hc. cbn.
    unfold wf_matrix in HX, HC. unfold nan_free in HXfin, HCfin.
    rewrite Forall_forall in HC, HCfin. rewrite Forall_lookup in HX, HXfin.
    apply distance_finite; [|by eapply HXfin|by apply HCfin].
    rewrite (HX n x Hx), (HC c Hc). done. }
  destruct (argmin_least (distance_row (norm (T := instance v)) x C))
    as (dl&Hdl&Hleast&_); [|done|].
  { unfold distance_row, shape0 in *. destruct (rows C); [cbn in Hpos; lia|done]. }
  rewrite Forall_lookup in Hother. specialize (Hother n l Hl).
  destruct (lookup_lt_is_Some_2 (rows C) l Hother) as [c Hc].
  unfold distance_row in Hdl. rewrite list_lookup_fmap in Hdl.
  destruct (rows C !! argmin _) as [c'|] eqn:Hc'; [|done].
  cbn in Hdl. simplify_eq. rewrite Hc. cbn [default from_option id].
  apply (Hleast l). unfold distance_row.
  by rewrite list_lookup_fmap, Hc.
Qed.



(** ** Moving the reference points to the means *)

Lemma select_Forall (P : list num -> Prop) rs ls k :
  Forall P rs -> Forall P (select rs ls k).
Proof.
  intros Hrs. apply Forall_forall. intros x Hx.
  rewrite Forall_forall in Hrs. by eapply Hrs, select_elem_of.
Qed.

Lemma mean_axis0_finite d pts :
  pts ≠ [] -> Forall (λ r, length r = d) pts -> Forall (Forall finite) pts ->
  Forall finite (mean_axis0 d pts).
Proof.
  intros Hne Hlen Hfin. apply Forall_lookup. intros j a Ha.
  assert (Hj : j < d).
  { rewrite <- (mean_axis0_length d pts). by eapply lookup_lt_Some. }
  destruct (mean_axis0_val j pts d Hj Hne Hlen Hfin) as (q&Hq&_).
  rewrite Ha in Hq. by simplify_eq.
Qed.

(** Replacing the reference point of every cluster that has points by their
    mean does not increase the dispersion under the same labels. *)
Lemma means_improve P d C C' ls :
  Forall (λ r, length r = d) P -> Forall (Forall finite) P ->
  Forall (λ c, length c = d) C ->
  Forall (λ l, l < length C) ls ->
  (∀ k, k < length C ->
     C' !! k = C !! k ∨ C' !! k = Some (mean_axis0 d (select P ls k))) ->
  (costQ P C' ls <= costQ P C ls)%Q.
Proof.
  intros HP HPfin HC Hls Hupd.
  rewrite (costQ_by_cluster C' (length C) P ls Hls).
  rewrite (costQ_by_cluster C (length C) P ls Hls).
  apply sumQ_fmap_le. intros k Hk. apply elem_of_seq in Hk.
  destruct (Hupd k) as [-> | ->]; [lia|apply Qle_refl|].
  cbn [default from_option id].
  destruct (lookup_lt_is_Some_2 C k) as [c Hc]; [lia|]. rewrite Hc.
  cbn [default from_option id].
  apply cluster_mean_minimises.
  - by apply select_Forall.
  - by apply select_Forall.
  - rewrite Forall_lookup in HC. by eapply HC.
Qed.

(** A labelling that only uses finite reference points has a dispersion. *)
Lemma cost_le X C C' ls :
  wf_matrix X -> nan_free X ->
  ncols C = ncols X -> wf_matrix C -> nan_free C ->
  ncols C' = ncols X -> wf_matrix C' -> nan_free C' ->
  shape0 C' = shape0 C ->
  Forall (λ l, l < shape0 C) ls ->
  (costQ (rows X) (rows C') ls <= costQ (rows X) (rows C) ls)%Q ->
  nge (cost norm2 X C ls) (cost norm2 X C' ls) = true.
Proof.
  intros HX HXfin Hcols HC HCfin Hcols' HC' HCfin' Hshape Hls Hle.
  destruct (cost_val X C ls) as (q&->&Hq); [done..|].
  destruct (cost_val X C' ls) as (q'&->&Hq'); [done..|by rewrite Hshape|].
  apply nge_Fin. by rewrite Hq, Hq'.
Qed.

(** ** The update step of K-Means++ *)

Lemma KMeansPlus_update_nan_free X K ls c :
  wf_matrix X -> nan_free X -> nan_free c ->
  nan_free (KMeansPlus.update X K ls c).
Proof.
  intros HX HXfin Hc. unfold nan_free, KMeansPlus.update in *.
  cbn [ncols rows].
  apply foldl_update_Forall; [|done].
  intros rs i Hrs. unfold KMeansPlus.update_cluster.
  destruct (length _ =? 0) eqn:Hlen; [done|].
  apply Forall_insert; [done|].
  apply mean_axis0_finite.
  - intros Hnil. rewrite Hnil in Hlen. done.
  - by apply select_Forall.
  - by apply select_Forall.
Qed.

Lemma KMeansPlus_update_lookup X K ls c k :
  rows (KMeansPlus.update X K ls c) !! k = rows c !! k ∨
  rows (KMeansPlus.update X K ls c) !! k =
    Some (mean_axis0 (ncols X) (select (rows X) ls k)).
Proof.
  unfold KMeansPlus.update. cbn [rows].
  rewrite (foldl_step_lookup _ _ (KMeansPlus_update_cluster_eq X ls)).
  case_decide; [|by left]. unfold cluster_value.
  destruct (select (rows X) ls k) eqn:Hsel; [by left|].
  case_decide; [by right|]. left. symmetry. apply lookup_ge_None. lia.
Qed.

(** ** The trace of a loop, entry by entry *)

Section TracedLoop.
Context {T : Type} `{Estimator T}.
Variable body : M T control.
Variable Inv : world T -> Prop.
Variable P : Matrix * Matrix -> Prop.

(** A pass leaves the trace alone and ends the loop, or notes what it
    computed from the current reference set, which it installs when the
    loop goes on. *)
Hypothesis body_traced : ∀ w r w',
  Inv w -> body w = (r, w') ->
  (trace w' = trace w ∧ r ≠ Ok Continue) ∨
  (∃ new, trace w' = trace w ++ [(current w, new)] ∧ P (current w, new) ∧
     (r = Ok Continue -> Inv w' ∧ current w' = new)).

Lemma traced_loop n : ∀ w r w',
  Inv w -> for_range n body w = (r, w') ->
  ∃ tr, trace w' = trace w ++ tr ∧ Forall P tr ∧
    ∀ i e e', tr !! i = Some e -> tr !! S i = Some e' -> fst e' = snd e.
Proof.
  assert (Hone : ∀ (w w' : world T) e,
            trace w' = trace w ++ [e] -> P e ->
            ∃ tr, trace w' = trace w ++ tr ∧ Forall P tr ∧
              (∀ e0, tr !! 0 = Some e0 -> fst e0 = fst e) ∧
              ∀ i e0 e', tr !! i = Some e0 -> tr !! S i = Some e' ->
                         fst e' = snd e0).
  { intros w w' e Htr HP. exists [e]. split_and!; [done|by constructor| |].
    - intros e0 He0. cbn in He0. by simplify_eq.
    - intros i e0 e' _ He'. by destruct i. }
  assert (Hnone : ∀ (w w' : world T) (C : Matrix),
            trace w' = trace w ->
            ∃ tr, trace w' = trace w ++ tr ∧ Forall P tr ∧
              (∀ e0, tr !! 0 = Some e0 -> fst e0 = C) ∧
              ∀ i e0 e', tr !! i = Some e0 -> tr !! S i = Some e' ->
                         fst e' = snd e0).
  { intros w w' C Htr. exists []. rewrite app_nil_r.
    split_and!; [done|constructor|done|done]. }
  enough (Hgen : ∀ w r w', Inv w -> for_range n body w = (r, w') ->
            ∃ tr, trace w' = trace w ++ tr ∧ Forall P tr ∧
              (∀ e, tr !! 0 = Some e -> fst e = current w) ∧
              ∀ i e e', tr !! i = Some e -> tr !! S i = Some e' ->
                        fst e' = snd e).
  { intros w r w' Hinv Hrun.
    destruct (Hgen w r w' Hinv Hrun) as (tr&?&?&_&?). by exists tr. }
  induction n as [|m IH]; intros w r w' Hinv Hrun; cbn in Hrun.
  - msimpl. injection Hrun as _ <-. by apply Hnone.
  - destruct (body w) as [r1 w1] eqn:Hb.
    destruct (body_traced _ _ _ Hinv Hb) as [[Htr Hr]|(new&Htr&HP&Hcont)].
    + destruct r1 as [[|]|e]; [done| |]; injection Hrun as _ <-;
        by apply Hnone.
    + destruct r1 as [[|]|e].
      * destruct (Hcont eq_refl) as [Hinv1 Hcur].
        apply IH in Hrun as (tr&Htr'&HPs&Hhead&Hchain); [|done].
        exists ((current w, new) :: tr). split_and!.
        -- by rewrite Htr', Htr, <- app_assoc.
        -- by constructor.
        -- intros e He. cbn in He. by injection He as <-.
        -- intros [|i] e e' He He'; cbn in He, He'.
           ++ injection He as <-. cbn. rewrite <- Hcur. by apply Hhead.
           ++ by eapply Hchain.
      * injection Hrun as _ <-. by apply (Hone w w1 (current w, new)).
      * injection Hrun as _ <-. by apply (Hone w w1 (current w, new)).
Qed.

End TracedLoop.

(** ** The iterations of K-Means and K-Means++ *)

Lemma row_finite X i : nan_free X -> Forall finite (KMeansPlus.row X i).
Proof.
  intros HX. unfold KMeansPlus.row.
  destruct (rows X !! i) as [x|] eqn:Hx; cbn; [|constructor].
  unfold nan_free in HX. rewrite Forall_lookup in HX. by eapply HX.
Qed.

Lemma nearest_succeeds f X C :
  ncols C = ncols X -> 0 < shape0 C -> ∃ ls, nearest f X C = Ok ls.
Proof.
  intros Hcols Hpos. unfold nearest, pairwise.
  rewrite Hcols, broadcastable_refl. unfold argmin_axis1.
  destruct (Nat.eqb_spec (shape0 C) 0); [lia|]. eauto.
Qed.

(** One assignment and update step, and the assignment after it. *)
Lemma lloyd_step X old new ls :
  wf_matrix X -> nan_free X ->
  ncols old = ncols X -> wf_matrix old -> nan_free old ->
  ncols new = ncols X -> wf_matrix new -> nan_free new ->
  shape0 new = shape0 old ->
  nearest norm2 X old = Ok ls ->
  (∀ k, k < shape0 old ->
     rows new !! k = rows old !! k ∨
     rows new !! k = Some (mean_axis0 (ncols X) (select (rows X) ls k))) ->
  ∃ ls', nearest norm2 X new = Ok ls' ∧
    nge (cost norm2 X old ls) (cost norm2 X new ls) = true ∧
    nge (cost norm2 X new ls) (cost norm2 X new ls') = true.
Proof.
  intros HX HXfin Hcols Hold Holdfin Hcols' Hnew Hnewfin Hshape Hls Hupd.
  pose proof (nearest_spec _ _ _ _ Hls) as (Hpos&Hlen&Hspec).
  assert (Hbound : Forall (λ l, l < shape0 old) ls).
  { apply Forall_lookup. intros n l Hl.
    by destruct (Hspec n l Hl) as (_&_&_&?). }
  destruct (nearest_succeeds norm2 X new) as [ls' Hls']; [done|lia|].
  exists ls'. split_and!; [done| |].
  - apply cost_le; try done.
    apply (means_improve _ (ncols X)); try done.
    unfold wf_matrix in Hold. by rewrite Hcols in Hold.
  - apply (nearest_minimises KMeansClustering); try done.
    by rewrite Hshape.
Qed.

Lemma KMeans_iteration_traced X K w r w' :
  n_clusters (self w) = K ∧ shaped X K (current w) ->
  KMeans.iteration X w = (r, w') ->
  (trace w' = trace w ∧ r ≠ Ok Continue) ∨
  (∃ new, trace w' = trace w ++ [(current w, new)] ∧
     (shaped X K (current w) ∧
      recomputed KMeansClustering X K (current w) new) ∧
     (r = Ok Continue ->
      (n_clusters (self w') = K ∧ shaped X K (current w')) ∧
      current w' = new)).
Proof.
  intros [HK Hshaped] Hrun.
  apply (KMeans_iteration_spec X K w r w' HK) in Hrun
    as (HK'&[(e&->&->)|(new&Htr&Hstep&[(->&_&_)|(->&_&Hr)])]).
  - by left.
  - right. exists new. split; [done|]. split; [done|]. intros; done.
  - right. exists new. split; [done|]. split; [done|]. intros _.
    assert (Hcur : current w' = new) by (unfold current; by rewrite Hr).
    rewrite Hcur. split; [|done]. split; [done|].
    by eapply recomputed_shaped.
Qed.

Lemma KMeansPlus_iteration_traced X K w r w' :
  n_clusters (self w) = K ∧ ncols (current w) = ncols X ∧
    wf_matrix (current w) ∧ nan_free (current w) ->
  wf_matrix X -> nan_free X ->
  KMeansPlus.iteration X w = (r, w') ->
  (trace w' = trace w ∧ r ≠ Ok Continue) ∨
  (∃ new, trace w' = trace w ++ [(current w, new)] ∧
     ((ncols (current w) = ncols X ∧ wf_matrix (current w) ∧
       nan_free (current w)) ∧
      ∃ ls, nearest norm2 X (current w) = Ok ls ∧
            new = KMeansPlus.update X K ls (current w)) ∧
     (r = Ok Continue ->
      (n_clusters (self w') = K ∧ ncols (current w') = ncols X ∧
       wf_matrix (current w') ∧ nan_free (current w')) ∧
      current w' = new)).
Proof.
  intros (HK&Hcols&Hwf&Hfin) HX HXfin.
  rewrite KMeansPlus_iteration_eq. cbv zeta.
  change (KMeansPlus.the_centroids (self w)) with (current w).
  cbn in HK. rewrite HK.
  destruct (nearest _ _ _) as [ls|e] eqn:Hls;
    [|intros; simplify_eq; by left].
  intros Hrun. right. exists (KMeansPlus.update X K ls (current w)).
  assert (Hw' : trace w' = trace w ++
                  [(current w, KMeansPlus.update X K ls (current w))] ∧
                n_clusters (self w') = K ∧
                current w' = KMeansPlus.update X K ls (current w)).
  { by destruct (_ && _); simplify_eq. }
  destruct Hw' as (Htr&HK'&Hcur).
  split; [done|]. split; [split; [done|by eexists]|].
  intros _. rewrite Hcur. split; [|done].
  split; [done|]. split; [done|]. split.
  - by apply KMeansPlus_update_wf.
  - by apply KMeansPlus_update_nan_free.
Qed.

Lemma KMeansPlus_seed_next_sound X w r w' :
  wf_matrix X -> nan_free X ->
  ncols (current w) = ncols X ∧ wf_matrix (current w) ∧ nan_free (current w) ->
  KMeansPlus.seed_next X w = (r, w') ->
  ncols (current w') = ncols X ∧ wf_matrix (current w') ∧
    nan_free (current w').
Proof.
  intros HX HXfin (Hcols&Hwf&Hfin). unfold KMeansPlus.seed_next. msimpl.
  change (KMeansPlus.the_centroids (self w)) with (current w).
  destruct (choice_weighted _ _ _) as [[next|e] g'] eqn:Hch;
    [|intros; by simplify_eq].
  intros Hrun. simplify_eq.
  apply choice_weighted_ok in Hch as [Hnext _].
  unfold current. cbn. split_and!; [done| |].
  - unfold wf_matrix. cbn [ncols rows].
    apply Forall_app. split; [by rewrite <- Hcols|].
    apply Forall_singleton. by apply row_width.
  - unfold nan_free. cbn [rows].
    apply Forall_app. split; [done|].
    apply Forall_singleton. by apply row_finite.
Qed.

(** The entries of the trace of a [fit] of K-Means: each starts from a
    reference set of the right shape, and from the one the entry before
    computed. *)
Lemma KMeans_fit_traced X s g r w :
  wf_matrix X ->
  KMeans.fit X (mkWorld s g []) = (r, w) ->
  Forall (λ e, shaped X (KMeans.n_clusters s) (fst e) ∧
               recomputed KMeansClustering X (KMeans.n_clusters s)
                 (fst e) (snd e)) (trace w) ∧
  ∀ i e e', trace w !! i = Some e -> trace w !! S i = Some e' ->
            fst e' = snd e.
Proof.
  intros HX. rewrite KMeans_fit_eq. cbn [self gen trace]. intros Hrun.
  destruct (choice_no_replace _ _ _) as [[idx|v] g'] eqn:Hch;
    cbv zeta in Hrun.
  - apply choice_no_replace_inv in Hch as (_&Hlen&_&Hidx).
    destruct (for_range _ _ _) as [r2 w2] eqn:Hloop.
    apply (traced_loop (KMeans.iteration X)
             (λ w, n_clusters (self w) = KMeans.n_clusters s ∧
                   shaped X (KMeans.n_clusters s) (current w))
             (λ e, shaped X (KMeans.n_clusters s) (fst e) ∧
                   recomputed KMeansClustering X (KMeans.n_clusters s)
                     (fst e) (snd e))
             (KMeans_iteration_traced X (KMeans.n_clusters s)))
      in Hloop as (tr&Htr&HP&Hchain).
    + cbn in Htr. subst tr. by destruct r2 as [[]|e]; simplify_eq.
    + split; [done|]. unfold current. cbn.
      split_and!; [done|by apply take_rows_wf|].
      unfold shape0. cbn. by rewrite length_fmap.
  - simplify_eq. cbn. split; [constructor|]. intros i e e' He.
    by rewrite lookup_nil in He.
Qed.

Lemma KMeansPlus_fit_traced X s g r w :
  wf_matrix X -> nan_free X ->
  KMeansPlus.fit X (mkWorld s g []) = (r, w) ->
  Forall (λ e, (ncols (fst e) = ncols X ∧ wf_matrix (fst e) ∧
                nan_free (fst e)) ∧
               ∃ ls, nearest norm2 X (fst e) = Ok ls ∧
                     snd e = KMeansPlus.update X (KMeansPlus.n_clusters s) ls
                               (fst e)) (trace w) ∧
  ∀ i e e', trace w !! i = Some e -> trace w !! S i = Some e' ->
            fst e' = snd e.
Proof.
  intros HX HXfin. rewrite KMeansPlus_fit_eq. cbn [self gen trace].
  cbv zeta. intros Hrun.
  destruct (KMeansPlus._initialize_centroids _ _) as [[[]|e] w1] eqn:Hinit.
  - pose proof (KMeansPlus_initialize_trace _ _ _ _ Hinit) as Htr1.
    pose proof (KMeansPlus_initialize_frame _ _ _ _ Hinit) as (HK&_).
    cbn in Htr1, HK.
    assert (Hsound : ncols (current w1) = ncols X ∧ wf_matrix (current w1) ∧
                     nan_free (current w1)).
    { rewrite KMeansPlus_initialize_eq in Hinit. cbn [self gen trace] in Hinit.
      destruct (choice_one _ _) as [[first|e] g'] eqn:Hfirst; [|done].
      apply choice_one_ok in Hfirst. cbv zeta in Hinit.
      apply (for_range_keeps
               (λ w, ncols (current w) = ncols X ∧ wf_matrix (current w) ∧
                     nan_free (current w)) _
               (λ w r w', KMeansPlus_seed_next_sound X w r w' HX HXfin))
        in Hinit; [done|].
      unfold current. cbn. split_and!; [done| |].
      - unfold wf_matrix. cbn [ncols rows].
        apply Forall_singleton. by apply row_width.
      - unfold nan_free. cbn [rows].
        apply Forall_singleton. by apply row_finite. }
    destruct (for_range _ _ _) as [r2 w2] eqn:Hloop.
    apply (traced_loop (KMeansPlus.iteration X)
             (λ w, n_clusters (self w) = KMeansPlus.n_clusters s ∧
                   ncols (current w) = ncols X ∧ wf_matrix (current w) ∧
                   nan_free (current w))
             (λ e, (ncols (fst e) = ncols X ∧ wf_matrix (fst e) ∧
                    nan_free (fst e)) ∧
                   ∃ ls, nearest norm2 X (fst e) = Ok ls ∧
                         snd e = KMeansPlus.update X (KMeansPlus.n_clusters s)
                                   ls (fst e))
             (λ w r w' Hinv, KMeansPlus_iteration_traced X
                               (KMeansPlus.n_clusters s) w r w' Hinv HX HXfin))
      in Hloop as (tr&Htr&HP&Hchain); [|done].
    rewrite Htr1 in Htr. cbn in Htr. subst tr.
    by destruct r2 as [[]|e]; simplify_eq.
  - apply KMeansPlus_initialize_trace in Hinit. cbn in Hinit.
    simplify_eq. rewrite Hinit. split; [constructor|]. intros i e0 e' He.
    by rewrite lookup_nil in He.
Qed.

(** X18.  No iteration of [fit] of K-Means or K-Means++ increases the
    dispersion (the sum of the squared distances of the rows to their
    reference points), entries being exact rationals.  On a rectangular
    matrix without NaN, for every iteration executed: moving the reference
    points as the iteration does keeps or lowers the dispersion under the
    labels the iteration took, and taking the labels again against the new
    reference points keeps or lowers it once more; the next iteration, if
    there is one, starts from these new reference points.  For K-Means
    this holds for an iteration whose reference sets, old and new, hold no
    NaN (no cluster was left without points); K-Means++ never produces a
    NaN here. *)
Theorem dispersion_never_increases (v : variant) (X : Matrix) (s : instance v)
    (g : rng) r (w : world (instance v)) (i : nat) (old new : Matrix) :
  v = KMeansClustering ∨ v = KMeansClusteringPlus ->
  wf_matrix X -> nan_free X ->
  fit X (mkWorld s g []) = (r, w) ->
  trace w !! i = Some (old, new) ->
  (v = KMeansClustering -> nan_free old ∧ nan_free new) ->
  ∃ ls ls', nearest norm2 X old = Ok ls ∧ nearest norm2 X new = Ok ls' ∧
    nge (cost norm2 X old ls) (cost norm2 X new ls) = true ∧
    nge (cost norm2 X new ls) (cost norm2 X new ls') = true ∧
    ∀ e, trace w !! S i = Some e -> fst e = new.
Proof.
  intros [-> | ->] HX HXfin Hfit Hi Hfin; cbn in Hfit.
  - destruct (Hfin eq_refl) as [Hold Hnew].
    destruct (KMeans_fit_traced X s g r w HX Hfit) as [HP Hchain].
    rewrite Forall_lookup in HP.
    destruct (HP i _ Hi) as ((Hcols&Hwf&Hshape)&ls&Hls&Hrec).
    cbn [fst snd] in *.
    destruct (recompute_shaped KMeansClustering X (KMeans.n_clusters s) ls)
      as (Hcols'&Hwf'&Hshape').
    subst new.
    destruct (lloyd_step X old _ ls HX HXfin Hcols Hwf Hold Hcols' Hwf' Hnew)
      as (ls'&Hls'&Hup&Hre).
    + congruence.
    + done.
    + intros k Hk. right.
      apply (recompute_lookup KMeansClustering). lia.
    + exists ls, ls'. split_and!; try done.
      intros e He. by apply (Hchain i _ e Hi).
  - destruct (KMeansPlus_fit_traced X s g r w HX HXfin Hfit) as [HP Hchain].
    rewrite Forall_lookup in HP.
    destruct (HP i _ Hi) as ((Hcols&Hwf&Hold)&ls&Hls&Hupd).
    cbn [fst snd] in *.
    subst new.
    destruct (lloyd_step X old
                (KMeansPlus.update X (KMeansPlus.n_clusters s) ls old)
                ls HX HXfin Hcols Hwf Hold Hcols
                (KMeansPlus_update_wf X _ ls old Hcols Hwf)
                (KMeansPlus_update_nan_free X (KMeansPlus.n_clusters s) ls old
                   HX HXfin Hold))
      as (ls'&Hls'&Hup&Hre).
    + by destruct (KMeansPlus_update_updated (KMeansPlus.n_clusters s) X ls old)
        as (_&?&_).
    + done.
    + intros k _. apply KMeansPlus_update_lookup.
    + exists ls, ls'. split_and!; try done.
      intros e He. by apply (Hchain i _ e Hi).
Qed.

Lemma dispersion_never_increases_witness :
  let w := snd (KMeans.fit four_points
                  (mkWorld (KMeans.init 2 10 false) [0; 1] [])) in
  let old := mkMatrix 2 [[Q_of 0; Q_of 0]; [Q_of 10; Q_of 0]] in
  ∃ ls ls', nearest norm2 four_points old = Ok ls ∧
    nearest norm2 four_points two_means = Ok ls' ∧
    nge (cost norm2 four_points old ls)
        (cost norm2 four_points two_means ls) = true ∧
    nge (cost norm2 four_points two_means ls)
        (cost norm2 four_points two_means ls') = true ∧
    ∀ e, trace w !! 1 = Some e -> fst e = two_means.
Proof.
  intros w old.
  apply (dispersion_never_increases KMeansClustering four_points
           (KMeans.init 2 10 false) [0; 1]
           (fst (KMeans.fit four_points
                   (mkWorld (KMeans.init 2 10 false) [0; 1] [])))
           w 0 old two_means).
  - by left.
  - repeat constructor.
  - repeat constructor.
  - vm_compute. reflexivity.
  - vm_compute. reflexivity.
  - intros _. split; repeat constructor.
Defined.
